(** * swagger-to-har: from an OpenAPI document to HAR request objects

    A shallow embedding of [src/swagger-to-har.js] and the properties of
    its reference resolution and value synthesis.

    Modelling conventions.
    - A JavaScript value is a [value]; [VUndef] is [undefined].  Numbers
      are the integral ones ([Z]), printed in decimal.  The fields of a
      [VObj] are kept in property enumeration order, with distinct keys;
      only own properties are looked up, and letter case is mapped on the
      ASCII letters.  The predicates [inherited_key], [own_only],
      [ascii_text] and [plain_text] delimit the inputs on which that is
      all the JavaScript operation does.
    - A thrown exception is [Throw e]; a normal completion is [Ok v].
    - The conversion entry points ([createHar], [swaggerToHarList]) never
      write to the document, so they are functions over immutable values.
      [getResolvedSchema] assigns into the schema it walks; it is modelled
      in [Module Store] over an explicit object store with references, so
      that aliasing is visible.
    - What the file imports from elsewhere is a section variable: the
      schema instantiator, [JSON.stringify], and the ambient binding
      [values] that [getPathParams] reads. *)

From Stdlib Require Import String Ascii List ZArith Bool Lia DecimalString.
Import ListNotations.
Local Open Scope string_scope.

(** ** Values and completions *)

Unset Elimination Schemes.
Inductive value : Type :=
| VUndef
| VNull
| VBool (b : bool)
| VNum (n : Z)
| VStr (s : string)
| VArr (items : list value)
| VObj (fields : list (string * value)).
Set Elimination Schemes.

Inductive error : Type :=
| TypeError
| SyntaxError
| External (msg : string).

Inductive result (A : Type) : Type :=
| Ok (a : A)
| Throw (e : error).

Arguments Ok {A} a.
Arguments Throw {A} e.

Definition bind {A B : Type} (r : result A) (k : A -> result B) : result B :=
  match r with
  | Ok a => k a
  | Throw e => Throw e
  end.

Notation "x <- r ;; k" := (bind r (fun x => k))
  (at level 61, r at next level, right associativity).

(** [try { body } catch (e) { return handler }] *)
Definition try_catch {A : Type} (body : result A) (handler : A) : A :=
  match body with
  | Ok a => a
  | Throw _ => handler
  end.

(** A [for] loop whose body updates the loop's state and may throw. *)
Fixpoint for_each {S X : Type} (body : S -> X -> result S) (xs : list X) (s : S)
  : result S :=
  match xs with
  | [] => Ok s
  | x :: rest => s' <- body s x ;; for_each body rest s'
  end.

(** [xs.push(x)] *)
Definition push {A : Type} (xs : list A) (x : A) : list A := (xs ++ [x])%list.

(** ** Strings *)

Definition to_upper_ascii (c : ascii) : ascii :=
  let n := nat_of_ascii c in
  if (97 <=? n)%nat && (n <=? 122)%nat then ascii_of_nat (n - 32) else c.

Definition to_lower_ascii (c : ascii) : ascii :=
  let n := nat_of_ascii c in
  if (65 <=? n)%nat && (n <=? 90)%nat then ascii_of_nat (n + 32) else c.

Fixpoint map_string (f : ascii -> ascii) (s : string) : string :=
  match s with
  | EmptyString => EmptyString
  | String c rest => String (f c) (map_string f rest)
  end.

(** [s.toUpperCase()] and [s.toLowerCase()], on ASCII letters. *)
Definition toUpperCase (s : string) : string := map_string to_upper_ascii s.
Definition toLowerCase (s : string) : string := map_string to_lower_ascii s.

(** [s.split(sep)] for a one-character separator; [cur] is the segment
    being read. *)
Fixpoint split_aux (sep : ascii) (s : string) (cur : string) : list string :=
  match s with
  | EmptyString => [cur]
  | String c rest =>
      if Ascii.eqb c sep then cur :: split_aux sep rest EmptyString
      else split_aux sep rest (cur ++ String c EmptyString)
  end.

Definition split (sep : ascii) (s : string) : list string :=
  split_aux sep s EmptyString.

Fixpoint contains_char (c : ascii) (s : string) : bool :=
  match s with
  | EmptyString => false
  | String d rest => Ascii.eqb d c || contains_char c rest
  end.

Definition slash : ascii := "/"%char.

(** [/^http/.test(s)] *)
Definition test_http (s : string) : bool := String.prefix "http" s.

(** [ref.split("/").slice(-1)[0]]: the last segment ([split] never returns
    an empty array). *)
Definition last_segment (ref : string) : string :=
  List.last (split slash ref) EmptyString.

Definition string_of_nat (n : nat) : string :=
  NilEmpty.string_of_uint (Nat.to_uint n).

Definition string_of_Z (n : Z) : string :=
  NilZero.string_of_int (Z.to_int n).

(** An array index written as a property key ("0", "1", ..., no leading
    zero). *)
Definition index_of_key (k : string) : option nat :=
  match NilEmpty.uint_of_string k with
  | Some u =>
      let n := Nat.of_uint u in
      if String.eqb (string_of_nat n) k then Some n else None
  | None => None
  end.

Fixpoint chars (s : string) : list string :=
  match s with
  | EmptyString => []
  | String c rest => String c EmptyString :: chars rest
  end.

(** ** Primitive operations of the language *)

Fixpoint lookup (k : string) (fs : list (string * value)) : value :=
  match fs with
  | [] => VUndef
  | (k', v) :: rest => if String.eqb k' k then v else lookup k rest
  end.

(** [v[k]]: reading a property of [undefined] or [null] throws. *)
Definition get (v : value) (k : string) : result value :=
  match v with
  | VUndef | VNull => Throw TypeError
  | VObj fs => Ok (lookup k fs)
  | VArr xs =>
      if String.eqb k "length" then Ok (VNum (Z.of_nat (List.length xs)))
      else match index_of_key k with
           | Some i => Ok (nth i xs VUndef)
           | None => Ok VUndef
           end
  | VStr s =>
      if String.eqb k "length" then Ok (VNum (Z.of_nat (String.length s)))
      else match index_of_key k with
           | Some i => Ok (nth i (map VStr (chars s)) VUndef)
           | None => Ok VUndef
           end
  | VBool _ | VNum _ => Ok VUndef
  end.

(** [typeof v === "undefined"] and [typeof v === "string"] *)
Definition is_undefined (v : value) : bool :=
  match v with VUndef => true | _ => false end.

Definition is_string (v : value) : bool :=
  match v with VStr _ => true | _ => false end.

(** Truthiness, as tested by [if], [?:], [&&] and [||]. *)
Definition truthy (v : value) : bool :=
  match v with
  | VUndef | VNull => false
  | VBool b => b
  | VNum n => negb (Z.eqb n 0)
  | VStr s => negb (String.eqb s "")
  | VArr _ | VObj _ => true
  end.

(** [v + ""]: the string form of a value. *)
Fixpoint to_string (v : value) : string :=
  match v with
  | VUndef => "undefined"
  | VNull => "null"
  | VBool true => "true"
  | VBool false => "false"
  | VNum n => string_of_Z n
  | VStr s => s
  | VArr xs =>
      (fix join (l : list value) : string :=
         match l with
         | [] => ""
         | x :: rest =>
             let e := match x with
                      | VUndef | VNull => ""
                      | _ => to_string x
                      end in
             match rest with
             | [] => e
             | _ :: _ => e ++ "," ++ join rest
             end
         end) xs
  | VObj _ => "[object Object]"
  end.

(** [v === s] for a string literal [s] *)
Definition strict_eq_str (v : value) (s : string) : bool :=
  match v with
  | VStr s' => String.eqb s' s
  | _ => false
  end.

(** The number a value converts to in a comparison; [None] is NaN.
    Numeric strings are the decimal integers. *)
Definition to_number (v : value) : option Z :=
  let of_string (s : string) :=
    match NilZero.int_of_string s with
    | Some i => Some (Z.of_int i)
    | None => if String.eqb s "" then Some 0%Z else None
    end in
  match v with
  | VUndef => None
  | VNull => Some 0%Z
  | VBool b => Some (if b then 1%Z else 0%Z)
  | VNum n => Some n
  | VStr s => of_string s
  | VArr _ => of_string (to_string v)
  | VObj _ => None
  end.

(** [v > 0] *)
Definition gt_zero (v : value) : bool :=
  match to_number v with
  | Some n => (0 <? n)%Z
  | None => false
  end.

(** [v.toLowerCase()] and [v.toUpperCase()] as method calls: they exist on
    strings only. *)
Definition call_toLowerCase (v : value) : result string :=
  match v with
  | VStr s => Ok (toLowerCase s)
  | _ => Throw TypeError
  end.

Definition call_toUpperCase (v : value) : result string :=
  match v with
  | VStr s => Ok (toUpperCase s)
  | _ => Throw TypeError
  end.

(** The keys a [for (k in v)] loop and [Object.keys(v)] enumerate. *)
Definition own_keys (v : value) : list string :=
  match v with
  | VObj fs => map fst fs
  | VArr xs => map string_of_nat (seq 0 (List.length xs))
  | VStr s => map string_of_nat (seq 0 (String.length s))
  | _ => []
  end.

(** The values [v[k]] for the keys [k] of a [for (k in v)] loop, in order. *)
Definition forin_values (v : value) : list value :=
  match v with
  | VObj fs => map snd fs
  | VArr xs => xs
  | VStr s => map VStr (chars s)
  | _ => []
  end.

(** [Object.keys(v)]: throws on [undefined] and [null]. *)
Definition Object_keys (v : value) : result (list string) :=
  match v with
  | VUndef | VNull => Throw TypeError
  | _ => Ok (own_keys v)
  end.

(** [JSON.parse(JSON.stringify(v))]: a structural copy; [undefined] fields
    are dropped, [undefined] array elements become [null], and
    [JSON.parse(undefined)] is a syntax error. *)
Fixpoint json_copy (v : value) : value :=
  match v with
  | VArr xs =>
      VArr (map (fun x => match x with
                          | VUndef => VNull
                          | _ => json_copy x
                          end) xs)
  | VObj fs =>
      VObj ((fix copy_fields (l : list (string * value)) :=
               match l with
               | [] => []
               | (k, VUndef) :: rest => copy_fields rest
               | (k, x) :: rest => (k, json_copy x) :: copy_fields rest
               end) fs)
  | _ => v
  end.

Definition JSON_roundtrip (v : value) : result value :=
  match v with
  | VUndef => Throw SyntaxError
  | _ => Ok (json_copy v)
  end.

(** ** Reference Resolver *)

(** The inner function [recursive(obj, index)] of [resolveRef], over the
    segments still to walk, [rest = parts.slice(index)]. *)
Fixpoint recursive (rest : list string) (obj : value) : result value :=
  match rest with
  | [] => get obj "undefined"
  | [p] => get obj p
  | p :: ((_ :: _) as rest') => next <- get obj p ;; recursive rest' next
  end.

Definition resolveRef (oai : value) (ref : string) : result value :=
  let parts := split slash ref in
  if (List.length parts <=? 1)%nat then Ok (VObj [])
  else recursive (skipn 1 parts) oai.

(** [typeof param["$ref"] === "string" && !/^http/.test(param["$ref"])] *)
Definition is_local_ref (r : value) : bool :=
  match r with
  | VStr s => negb (test_http s)
  | _ => false
  end.

(** The first lines of the loop bodies of [getQueryStrings] and
    [getPathParams]: a parameter that is a local reference is replaced by
    what the reference resolves to. *)
Definition resolve_param (swagger param : value) : result value :=
  r <- get param "$ref" ;;
  match r with
  | VStr s => if negb (test_http s) then resolveRef swagger s else Ok param
  | _ => Ok param
  end.

(** [swagger.paths[path][method]] *)
Definition operation (swagger : value) (path method : string) : result value :=
  paths <- get swagger "paths" ;;
  item <- get paths path ;;
  get item method.

(** ** Base URL *)

Definition getBaseUrl (swagger : value) : result value :=
  servers <- get swagger "servers" ;;
  if truthy servers then
    len <- get servers "length" ;;
    if gt_zero len then
      first <- get servers "0" ;;
      get first "url"
    else Ok VUndef
  else Ok VUndef.

Definition getFirstContentTypeFromContent (contentObj : value) : result value :=
  keys <- Object_keys contentObj ;;
  Ok (match keys with
      | k :: _ => VStr k
      | [] => VUndef
      end).

(** ** Value synthesis *)

(** ["SOME_" + type.toUpperCase() + "_VALUE"] *)
Definition placeholder (v : value) : result value :=
  u <- call_toUpperCase v ;;
  Ok (VStr ("SOME_" ++ u ++ "_VALUE")).

(** [typeof values[name] === "undefined"
      ? typeof param.default === "undefined"
        ? "SOME_" + type.toUpperCase() + "_VALUE"
        : param.default + ""
      : values[name] + ""] *)
Definition from_values_or_default (values param type : value) : result value :=
  name <- get param "name" ;;
  given <- get values (to_string name) ;;
  if is_undefined given then
    dflt <- get param "default" ;;
    if is_undefined dflt then placeholder type
    else Ok (VStr (to_string dflt))
  else Ok (VStr (to_string given)).

(** [var type = param.in ? param.schema.type : param.type] *)
Definition param_type (param pin : value) : result value :=
  if truthy pin then
    schema <- get param "schema" ;;
    get schema "type"
  else get param "type".

(** ** Query strings *)

(** [typeof param.schema && param.schema.example !== 'undefined'
       ? param.schema.example + "" : undefined].
    [typeof param.schema] is a non-empty string, hence truthy, so the test
    is the comparison of [param.schema.example] with the string
    ['undefined']. *)
Definition exampleVal (param : value) : result value :=
  schema <- get param "schema" ;;
  example <- get schema "example" ;;
  if negb (strict_eq_str example "undefined")
  then Ok (VStr (to_string example))
  else Ok VUndef.

Definition query_step (swagger values : value) (queryStrings : list value)
    (param0 : value) : result (list value) :=
  param <- resolve_param swagger param0 ;;
  pin <- get param "in" ;;
  if is_undefined pin then Ok queryStrings
  else
    l <- call_toLowerCase pin ;;
    if String.eqb l "query" then
      type <- param_type param pin ;;
      example <- exampleVal param ;;
      name <- get param "name" ;;
      value <- (if truthy example then Ok example
                else from_values_or_default values param type) ;;
      Ok (push queryStrings (VObj [("name", name); ("value", value)]))
    else Ok queryStrings.

Definition getQueryStrings (swagger : value) (path method : string)
    (values : value) : result (list value) :=
  let values := if is_undefined values then VObj [] else values in
  op <- operation swagger path method ;;
  parameters <- get op "parameters" ;;
  if negb (is_undefined parameters) then
    for_each (query_step swagger values) (forin_values parameters) []
  else Ok [].

(** ** Headers *)

(** [param.example ? param.example
                   : "SOME_" + param.name.toUpperCase() + "_VALUE"] *)
Definition header_value (param : value) : result value :=
  example <- get param "example" ;;
  if truthy example then Ok example
  else
    name <- get param "name" ;;
    placeholder name.

(** The loop body shared by [getHeadersArray] and
    [getRequiredHeaderParams]; [auth apiKey] is the value given to an
    [Authorization] header when an API key is supplied. *)
Definition header_step (auth : value -> value) (apiKey : value)
    (headers : list value) (param : value) : result (list value) :=
  pin <- get param "in" ;;
  if is_undefined pin then Ok headers
  else
    l <- call_toLowerCase pin ;;
    if String.eqb l "header" then
      required <- get param "required" ;;
      if truthy required then
        name <- get param "name" ;;
        if strict_eq_str name "Authorization" && truthy apiKey then
          schema <- get param "schema" ;;
          type <- get schema "type" ;;
          Ok (push headers (VObj [("name", name); ("value", auth apiKey);
                                  ("type", type)]))
        else
          value <- header_value param ;;
          schema <- get param "schema" ;;
          type <- get schema "type" ;;
          Ok (push headers (VObj [("name", name); ("value", value);
                                  ("type", type)]))
      else Ok headers
    else Ok headers.

(** ['Bearer ' + apiKey] *)
Definition bearer (apiKey : value) : value :=
  VStr ("Bearer " ++ to_string apiKey).

Definition getHeadersArray (swagger : value) (path method : string)
    (apiKey : value) : result (list value) :=
  pathObj <- operation swagger path method ;;
  contentType <-
    (if truthy pathObj then
       requestBody <- get pathObj "requestBody" ;;
       if truthy requestBody then
         content <- get requestBody "content" ;;
         if truthy content then getFirstContentTypeFromContent content
         else Ok (VStr "application/json")
       else Ok (VStr "application/json")
     else Ok (VStr "application/json")) ;;
  let headers :=
    [VObj [("name", VStr "accept"); ("value", contentType)];
     VObj [("name", VStr "content-type"); ("value", contentType)]] in
  parameters <- get pathObj "parameters" ;;
  if negb (is_undefined parameters) then
    for_each (header_step bearer apiKey) (forin_values parameters) headers
  else Ok headers.

Definition getRequiredHeaderParams (swagger : value) (path method : string)
    (apiKey : value) : result (list value) :=
  pathObj <- operation swagger path method ;;
  parameters <- get pathObj "parameters" ;;
  if negb (is_undefined parameters) then
    for_each (header_step (fun k => k) apiKey) (forin_values parameters) []
  else Ok [].

(** ** Path parameters, payload, request assembly *)

Section Conversion.

(** [Instantiator.instantiate], from [./schema-instantiator.js]. *)
Variable instantiate : value -> result value.

(** [JSON.stringify], applied to what the instantiator returns. *)
Variable JSON_stringify : value -> value.

(** The binding [values] that [getPathParams] finds when it is called:
    the function declares no such parameter or variable, so this is the
    ambient one, [VUndef] when there is none. *)
Variable ambient_values : value.

Definition path_step (swagger values : value) (pathParams : list value)
    (param0 : value) : result (list value) :=
  param <- resolve_param swagger param0 ;;
  pin <- get param "in" ;;
  if is_undefined pin then Ok pathParams
  else
    l <- call_toLowerCase pin ;;
    if String.eqb l "path" then
      type <- param_type param pin ;;
      example <- get param "example" ;;
      value <- (if truthy example then Ok example
                else from_values_or_default values param type) ;;
      name <- get param "name" ;;
      schema <- get param "schema" ;;
      ptype <- get schema "type" ;;
      Ok (push pathParams (VObj [("name", name); ("value", value);
                                 ("type", ptype)]))
    else Ok pathParams.

Definition getPathParams (swagger : value) (path method : string)
  : result (list value) :=
  let values :=
    if is_undefined ambient_values then VObj [] else ambient_values in
  op <- operation swagger path method ;;
  parameters <- get op "parameters" ;;
  if negb (is_undefined parameters) then
    for_each (path_step swagger values) (forin_values parameters) []
  else Ok [].

(** The schema that [getPayload] hands to the instantiator:
    [swagger.paths[path][method].requestBody.content[contentType].schema] *)
Definition payload_schema (swagger : value) (path method : string)
    (contentType : value) : result value :=
  op <- operation swagger path method ;;
  requestBody <- get op "requestBody" ;;
  content <- get requestBody "content" ;;
  media <- get content (to_string contentType) ;;
  get media "schema".

Definition getPayload (swagger : value) (path method : string)
  : result value :=
  op <- operation swagger path method ;;
  requestBody <- get op "requestBody" ;;
  if negb (is_undefined requestBody) then
    content <- get requestBody "content" ;;
    if negb (is_undefined content) then
      contentType <- getFirstContentTypeFromContent content ;;
      if negb (is_undefined contentType) then
        schema <- payload_schema swagger path method contentType ;;
        example <- instantiate schema ;;
        Ok (VObj [("mimeType", contentType);
                  ("text", JSON_stringify example)])
      else Ok VNull
    else Ok VNull
  else Ok VNull.

Definition createHar (swagger : value) (path method : string)
    (queryParamValues apiKey : value) : result value :=
  let queryParamValues :=
    if is_undefined queryParamValues then VObj [] else queryParamValues in
  baseUrl <- getBaseUrl swagger ;;
  let url := VStr (to_string baseUrl ++ path) in
  headers <- getHeadersArray swagger path method apiKey ;;
  queryString <- getQueryStrings swagger path method queryParamValues ;;
  op <- operation swagger path method ;;
  originalMethod <- JSON_roundtrip op ;;
  pathParams <- getPathParams swagger path method ;;
  requiredHeaderParams <-
    getRequiredHeaderParams swagger path method apiKey ;;
  let har :=
    [("method", VStr (toUpperCase method));
     ("url", url);
     ("headers", VArr headers);
     ("queryString", VArr queryString);
     ("httpVersion", VStr "HTTP/1.1");
     ("cookies", VArr []);
     ("headersSize", VNum 0);
     ("bodySize", VNum 0);
     ("_swaggerSettings",
      VObj [("originalMethod", originalMethod);
            ("path", VStr path);
            ("pathParams", VArr pathParams);
            ("requiredHeaderParams", VArr requiredHeaderParams)])] in
  postData <- getPayload swagger path method ;;
  if truthy postData then Ok (VObj (push har ("postData", postData)))
  else Ok (VObj har).

(** The body of the inner loop of [swaggerToHarList]. *)
Definition method_step (swagger baseUrl : value) (path : string)
    (harList : list value) (method : string) : result (list value) :=
  let url := VStr (to_string baseUrl ++ path) in
  har <- createHar swagger path method VUndef VUndef ;;
  op <- operation swagger path method ;;
  description <- get op "description" ;;
  Ok (push harList
        (VObj [("method", VStr (toUpperCase method));
               ("url", url);
               ("description",
                if truthy description then description
                else VStr "No description available");
               ("har", har)])).

Definition path_loop_step (swagger baseUrl : value) (harList : list value)
    (path : string) : result (list value) :=
  paths <- get swagger "paths" ;;
  item <- get paths path ;;
  for_each (method_step swagger baseUrl path) (own_keys item) harList.

(** What stands between [try {] and [} catch]. *)
Definition swaggerToHarList_try (swagger : value) : result (list value) :=
  baseUrl <- getBaseUrl swagger ;;
  paths <- get swagger "paths" ;;
  for_each (path_loop_step swagger baseUrl) (own_keys paths) [].

Definition swaggerToHarList (swagger : value) : value :=
  try_catch (harList <- swaggerToHarList_try swagger ;; Ok (VArr harList))
            VNull.

End Conversion.

(** ** Schema Resolver, over an object store

    [getResolvedSchema] assigns to [schema.properties[propKey]] and to
    [schema.items], and what it assigns is a node of [swagger.definitions]
    itself, not a copy.  Objects therefore live in a store and are named
    by their location. *)

Module Store.

Definition loc := nat.

Inductive sval : Type :=
| SUndef
| SNull
| SBool (b : bool)
| SNum (n : Z)
| SStr (s : string)
| SRef (l : loc).

(** An object or an array (an object whose keys are its indices). *)
Record object : Type := mkObject {
  is_array : bool;
  fields : list (string * sval)
}.

Definition store := loc -> object.

Definition empty_store : store := fun _ => mkObject false [].

(** A computation that may throw, and that the fuel may cut short
    ([None]). *)
Definition comp (A : Type) : Type := option (result A).

Definition ret {A : Type} (a : A) : comp A := Some (Ok a).

Definition lift {A : Type} (r : result A) : comp A := Some r.

Definition cbind {A B : Type} (c : comp A) (k : A -> comp B) : comp B :=
  match c with
  | Some (Ok a) => k a
  | Some (Throw e) => Some (Throw e)
  | None => None
  end.

Notation "x <~ c ;; k" := (cbind c (fun x => k))
  (at level 61, c at next level, right associativity).

Fixpoint loop {S X : Type} (body : S -> X -> comp S) (xs : list X) (s : S)
  : comp S :=
  match xs with
  | [] => ret s
  | x :: rest => s' <~ body s x ;; loop body rest s'
  end.

Fixpoint assoc (k : string) (fs : list (string * sval)) : sval :=
  match fs with
  | [] => SUndef
  | (k', v) :: rest => if String.eqb k' k then v else assoc k rest
  end.

(** Assigning a property: an existing key keeps its place, a new one
    goes last. *)
Fixpoint assoc_set (k : string) (v : sval) (fs : list (string * sval))
  : list (string * sval) :=
  match fs with
  | [] => [(k, v)]
  | (k', v') :: rest =>
      if String.eqb k' k then (k', v) :: rest
      else (k', v') :: assoc_set k v rest
  end.

Definition sset (st : store) (l : loc) (k : string) (v : sval) : store :=
  fun l' =>
    if Nat.eqb l' l
    then mkObject (is_array (st l)) (assoc_set k v (fields (st l)))
    else st l'.

(** [v[k]] *)
Definition sget (st : store) (v : sval) (k : string) : result sval :=
  match v with
  | SUndef | SNull => Throw TypeError
  | SRef l =>
      let o := st l in
      if is_array o && String.eqb k "length"
      then Ok (SNum (Z.of_nat (List.length (fields o))))
      else Ok (assoc k (fields o))
  | SStr s =>
      if String.eqb k "length" then Ok (SNum (Z.of_nat (String.length s)))
      else match index_of_key k with
           | Some i => Ok (nth i (map SStr (chars s)) SUndef)
           | None => Ok SUndef
           end
  | SBool _ | SNum _ => Ok SUndef
  end.

(** [base[k] = v]: throws on [undefined] and [null], is ignored on the
    other primitives. *)
Definition sassign (st : store) (base : sval) (k : string) (v : sval)
  : result store :=
  match base with
  | SUndef | SNull => Throw TypeError
  | SRef l => Ok (sset st l k v)
  | SBool _ | SNum _ | SStr _ => Ok st
  end.

Definition forin_keys (st : store) (v : sval) : list string :=
  match v with
  | SRef l => map fst (fields (st l))
  | SStr s => map string_of_nat (seq 0 (String.length s))
  | _ => []
  end.

Definition s_is_undefined (v : sval) : bool :=
  match v with SUndef => true | _ => false end.

Definition s_strict_eq_str (v : sval) (s : string) : bool :=
  match v with
  | SStr s' => String.eqb s' s
  | _ => false
  end.

(** [Array.prototype.join] with the separator ",", [rec] giving the
    string form of an element. *)
Definition join_with (rec : sval -> option string)
  : list (string * sval) -> option string :=
  fix join (l : list (string * sval)) : option string :=
    match l with
    | [] => Some ""
    | (_, x) :: rest =>
        match (match x with
               | SUndef | SNull => Some ""
               | _ => rec x
               end) with
        | None => None
        | Some e =>
            match rest with
            | [] => Some e
            | _ :: _ =>
                match join rest with
                | Some r => Some (e ++ "," ++ r)
                | None => None
                end
            end
        end
    end.

(** The string a value is converted to when a regular expression is
    tested on it; arrays join their elements. *)
Fixpoint sto_string (fuel : nat) (st : store) (v : sval) : option string :=
  match v with
  | SUndef => Some "undefined"
  | SNull => Some "null"
  | SBool true => Some "true"
  | SBool false => Some "false"
  | SNum n => Some (string_of_Z n)
  | SStr s => Some s
  | SRef l =>
      let o := st l in
      if is_array o then
        match fuel with
        | O => None
        | S fuel' => join_with (sto_string fuel' st) (fields o)
        end
      else Some "[object Object]"
  end.

Section Resolver.

(** The recursive call [getResolvedSchema(swagger, .)]. *)
Variable self : store -> sval -> comp store.
Variable fuel : nat.
Variables swagger schema : sval.

(** [swagger.definitions[ref]], [ref] the last segment of a pointer *)
Definition definition_of (st : store) (pointer : string) : result sval :=
  definitions <- sget st swagger "definitions" ;;
  sget st definitions (last_segment pointer).

(** The body of [for (var propKey in schema.properties)]. *)
Definition prop_step (st : store) (propKey : string) : comp store :=
  st1 <~ lift (properties <- sget st schema "properties" ;;
               prop <- sget st properties propKey ;;
               r <- sget st prop "$ref" ;;
               match r with
               | SStr pointer =>
                   if negb (test_http pointer) then
                     target <- definition_of st pointer ;;
                     sassign st properties propKey target
                   else Ok st
               | _ => Ok st
               end) ;;
  properties <~ lift (sget st1 schema "properties") ;;
  prop <~ lift (sget st1 properties propKey) ;;
  self st1 prop.

(** The body of [for (var itemKey in schema.items)]. *)
Definition item_step (st : store) (itemKey : string) : comp store :=
  st1 <~ (if String.eqb itemKey "$ref" then
            items <~ lift (sget st schema "items") ;;
            r <~ lift (sget st items itemKey) ;;
            match sto_string fuel st r with
            | None => None
            | Some text =>
                if negb (test_http text) then
                  match r with
                  | SStr pointer =>
                      lift (target <- definition_of st pointer ;;
                            sassign st schema "items" target)
                  | _ => lift (Throw TypeError)
                  end
                else ret st
            end
          else ret st) ;;
  items <~ lift (sget st1 schema "items") ;;
  self st1 items.

End Resolver.

(** [getResolvedSchema(swagger, schema)] in store [st]: the store it
    leaves (the value it returns is [schema]).  Each nested call uses one
    unit of fuel. *)
Fixpoint getResolvedSchema (fuel : nat) (st : store) (swagger schema : sval)
  : comp store :=
  match fuel with
  | O => None
  | S fuel' =>
      let self := fun st' x => getResolvedSchema fuel' st' swagger x in
      type <~ lift (sget st schema "type") ;;
      if s_strict_eq_str type "object" then
        properties <~ lift (sget st schema "properties") ;;
        if negb (s_is_undefined properties) then
          loop (prop_step self swagger schema) (forin_keys st properties) st
        else ret st
      else if s_strict_eq_str type "array" then
        items <~ lift (sget st schema "items") ;;
        if negb (s_is_undefined items) then
          loop (item_step self fuel' swagger schema)
               (forin_keys st items) st
        else ret st
      else ret st
  end.

(** Loading a document into the store, as parsing does: every object and
    array gets a location of its own, [n] being the next free one. *)
Fixpoint alloc (v : value) (st : store) (n : loc) : sval * store * loc :=
  match v with
  | VUndef => (SUndef, st, n)
  | VNull => (SNull, st, n)
  | VBool b => (SBool b, st, n)
  | VNum z => (SNum z, st, n)
  | VStr s => (SStr s, st, n)
  | VArr xs =>
      let '(fs, st1, n1) :=
        (fix alloc_items (l : list value) (i : nat) (st : store) (n : loc)
           : list (string * sval) * store * loc :=
           match l with
           | [] => ([], st, n)
           | x :: rest =>
               let '(a, st1, n1) := alloc x st n in
               let '(r, st2, n2) := alloc_items rest (S i) st1 n1 in
               ((string_of_nat i, a) :: r, st2, n2)
           end) xs O st n in
      (SRef n1, fun l => if Nat.eqb l n1 then mkObject true fs else st1 l,
       S n1)
  | VObj fs0 =>
      let '(fs, st1, n1) :=
        (fix alloc_fields (l : list (string * value)) (st : store) (n : loc)
           : list (string * sval) * store * loc :=
           match l with
           | [] => ([], st, n)
           | (k, x) :: rest =>
               let '(a, st1, n1) := alloc x st n in
               let '(r, st2, n2) := alloc_fields rest st1 n1 in
               ((k, a) :: r, st2, n2)
           end) fs0 st n in
      (SRef n1, fun l => if Nat.eqb l n1 then mkObject false fs else st1 l,
       S n1)
  end.

(** The document tree seen from [v], to depth [depth]. *)
Fixpoint snapshot (depth : nat) (st : store) (v : sval) : value :=
  match v with
  | SUndef => VUndef
  | SNull => VNull
  | SBool b => VBool b
  | SNum n => VNum n
  | SStr s => VStr s
  | SRef l =>
      match depth with
      | O => VUndef
      | S d =>
          let o := st l in
          if is_array o
          then VArr (map (fun kv => snapshot d st (snd kv)) (fields o))
          else VObj (map (fun kv => (fst kv, snapshot d st (snd kv)))
                         (fields o))
      end
  end.

End Store.

(** ** The value synthesis policy, as the specification words it *)





(** ** The parameter shapes of the data model *)

Definition is_object (v : value) : bool :=
  match v with VObj _ => true | _ => false end.

(** A literal descriptor: an object with a string [name], a string [in]
    and a [schema] object. *)
Definition is_descriptor (p : value) : bool :=
  match p with
  | VObj fs =>
      is_string (lookup "name" fs) && is_string (lookup "in" fs)
      && is_object (lookup "schema" fs)
  | _ => false
  end.

(** A reference: an object with a string [$ref] and no [in]. *)
Definition is_reference (p : value) : bool :=
  match p with
  | VObj fs => is_string (lookup "$ref" fs) && is_undefined (lookup "in" fs)
  | _ => false
  end.

(** [in] is "header" in some letter case and [required] is truthy. *)
Definition is_required_header (p : value) : bool :=
  match p with
  | VObj fs =>
      match lookup "in" fs with
      | VStr i => String.eqb (toLowerCase i) "header"
                  && truthy (lookup "required" fs)
      | _ => false
      end
  | _ => false
  end.

(** [param.schema.type] of a literal descriptor. *)
Definition declared_type (p : value) : value :=
  match p with
  | VObj fs =>
      match lookup "schema" fs with
      | VObj schema => lookup "type" schema
      | _ => VUndef
      end
  | _ => VUndef
  end.

(** Successive key lookups from [obj]. *)
Fixpoint walk (keys : list string) (obj : value) : result value :=
  match keys with
  | [] => Ok obj
  | k :: rest => next <- get obj k ;; walk rest next
  end.

(** A step of the batch conversion that raises: reading the base URL, or
    converting one of the declared (path, method) pairs. *)
Inductive batch_step_raises (instantiate : value -> result value)
    (JSON_stringify : value -> value) (ambient_values swagger : value)
  : Prop :=
| raises_in_getBaseUrl (e : error) :
    getBaseUrl swagger = Throw e ->
    batch_step_raises instantiate JSON_stringify ambient_values swagger
| raises_in_createHar (paths item : value) (path method : string)
    (e : error) :
    get swagger "paths" = Ok paths ->
    In path (own_keys paths) ->
    get paths path = Ok item ->
    In method (own_keys item) ->
    createHar instantiate JSON_stringify ambient_values
              swagger path method VUndef VUndef = Throw e ->
    batch_step_raises instantiate JSON_stringify ambient_values swagger.

(** Does a schema tree still carry a local reference somewhere? *)
Fixpoint has_local_ref (v : value) : bool :=
  match v with
  | VArr xs => existsb has_local_ref xs
  | VObj fs =>
      is_local_ref (lookup "$ref" fs)
      || (fix any (l : list (string * value)) : bool :=
            match l with
            | [] => false
            | (_, x) :: rest => has_local_ref x || any rest
            end) fs
  | _ => false
  end.

(** ** The same descriptor in each location *)




(** What the batch loops push: an entry whose [url] is the base URL's
    string form followed by a declared path, around a request that has
    the same [url]. *)
Definition batch_entry (swagger baseUrl entry : value) : Prop :=
  exists paths path har,
    get swagger "paths" = Ok paths
    /\ In path (own_keys paths)
    /\ get entry "url" = Ok (VStr (to_string baseUrl ++ path))
    /\ get entry "har" = Ok har
    /\ get har "url" = Ok (VStr (to_string baseUrl ++ path)).

(** ** What the resolver keeps true of the store *)

Section AliasInvariant.

Import Store.

(** The document [sw], its definitions [D] and the node [pet] stored there
    under "Pet"; the schema [s], its properties map [P] and the reference
    node [r] found there under [k]. *)
Variables sw D pet s P r : loc.
Variable k : string.

(** What holds of the store throughout a call; [resolved] says that the
    slot [P[k]] already holds [pet]. *)
Record alias_invariant (resolved : bool) (st : store) : Prop := {
  inv_definitions : sget st (SRef sw) "definitions" = Ok (SRef D);
  inv_definitions_objects :
    forall key text, sget st (SRef D) key <> Ok (SStr text);
  inv_pet : sget st (SRef D) "Pet" = Ok (SRef pet);
  inv_pet_plain : forall text, sget st (SRef pet) "$ref" <> Ok (SStr text);
  inv_properties : sget st (SRef s) "properties" = Ok (SRef P);
  inv_properties_plain :
    forall text, sget st (SRef P) "$ref" <> Ok (SStr text);
  inv_pointer : sget st (SRef r) "$ref" = Ok (SStr "#/definitions/Pet");
  inv_slot :
    sget st (SRef P) k = Ok (SRef pet)
    \/ (resolved = false /\ sget st (SRef P) k = Ok (SRef r))
}.

(** The one kind of assignment the resolver makes: a slot that holds a
    reference node receives the definition that the node's pointer
    names. *)
Definition replaces_reference (st : store) (X : loc) (key : string)
    (v : sval) : Prop :=
  exists q pointer,
    sget st (SRef X) key = Ok (SRef q)
    /\ sget st (SRef q) "$ref" = Ok (SStr pointer)
    /\ sget st (SRef D) (last_segment pointer) = Ok v.

End AliasInvariant.

(** A literal parameter that no route takes: its [in] is a string that is
    neither "path" nor "query" in any letter case, and it is not a required
    header (a cookie parameter, an optional header). *)
Definition is_unrouted (p : value) : bool :=
  match p with
  | VObj fs =>
      negb (is_local_ref (lookup "$ref" fs))
      && match lookup "in" fs with
         | VStr location =>
             let l := toLowerCase location in
             negb (String.eqb l "query") && negb (String.eqb l "path")
             && negb (String.eqb l "header" && truthy (lookup "required" fs))
         | _ => false
         end
  | _ => false
  end.

(** ** Plain JSON *)

(** A value as [JSON.parse] gives it: no [undefined] anywhere in it. *)
Fixpoint is_json (v : value) : bool :=
  match v with
  | VUndef => false
  | VArr xs => forallb is_json xs
  | VObj fs =>
      (fix all (l : list (string * value)) : bool :=
         match l with
         | [] => true
         | (_, x) :: rest => is_json x && all rest
         end) fs
  | _ => true
  end.

(** ** Where own properties, ASCII letters and decimal digits suffice

    [get], [lookup] and [Store.sget] read own properties, [toUpperCase]
    and [toLowerCase] map the ASCII letters, and [to_string] prints a
    number in plain decimal and an object as "[object Object]".  The
    predicates below delimit the inputs on which the JavaScript operation
    does nothing more than that; statements that depend on an absent key,
    on a letter case or on a string form are made under them. *)

(** The property names that every object inherits from
    [Object.prototype]: looking one of them up on an object that has no
    own property of that name finds the inherited member, not
    [undefined]. *)
Definition inherited_key (k : string) : bool :=
  existsb (String.eqb k)
    ["constructor"; "hasOwnProperty"; "isPrototypeOf";
     "propertyIsEnumerable"; "toLocaleString"; "toString"; "valueOf";
     "__proto__"; "__defineGetter__"; "__defineSetter__";
     "__lookupGetter__"; "__lookupSetter__"].

(** [node[k]] can find an own property only: [node] is an object and [k]
    is not inherited, or [node] is an array and [k] an index. *)
Definition own_only (node : value) (k : string) : bool :=
  match node with
  | VObj _ => negb (inherited_key k)
  | VArr _ => match index_of_key k with Some _ => true | None => false end
  | _ => false
  end.



(** ** The assignments of the resolver *)

(** [typeof w === "string" && !/^http/.test(w)], on a stored value *)
Definition is_local_pointer (w : Store.sval) : bool :=
  match w with
  | Store.SStr pointer => negb (test_http pointer)
  | _ => false
  end.

(** Both assignments of [getResolvedSchema] have this shape: the slot
    [X[key]] holds a node whose [$ref] is a local pointer, and receives
    [swagger.definitions[name]], [name] the pointer's last segment. *)
Definition replaces_local_reference (swagger : Store.sval) (st : Store.store)
    (X : Store.loc) (key : string) (v : Store.sval) : Prop :=
  exists q pointer,
    Store.sget st (Store.SRef X) key = Ok (Store.SRef q)
    /\ Store.sget st (Store.SRef q) "$ref" = Ok (Store.SStr pointer)
    /\ test_http pointer = false
    /\ Store.definition_of swagger st pointer = Ok v.

(** ** The typed subtree

    What [getResolvedSchema] descends through: the properties of a node
    whose [type] is "object" and the items of a node whose [type] is
    "array". *)

Section Reach.

Import Store.

(** The document root [sw] and its definitions [D]. *)
Variables sw D : loc.

(** [v] does not carry a local reference: it has no [$ref] string, or one
    that starts with "http". *)
Definition not_local_reference (st : store) (v : sval) : Prop :=
  forall pointer,
    sget st v "$ref" = Ok (SStr pointer) -> test_http pointer = true.

(** [c] is one step below [x] on the resolver's way: a property of [x]
    when [x] is typed "object", the items of [x] when it is typed
    "array". *)
Inductive typed_child (st : store) (x c : sval) : Prop :=
| child_property (P : loc) (k : string) :
    sget st x "type" = Ok (SStr "object") ->
    sget st x "properties" = Ok (SRef P) ->
    In k (forin_keys st (SRef P)) ->
    sget st (SRef P) k = Ok c ->
    typed_child st x c
| child_items :
    sget st x "type" = Ok (SStr "array") ->
    sget st x "items" = Ok c ->
    typed_child st x c.

(** [x] itself and everything below it, any number of such steps down. *)
Inductive typed_reach (st : store) (x : sval) : sval -> Prop :=
| reach_here : typed_reach st x x
| reach_child (u c : sval) :
    typed_reach st x u -> typed_child st u c -> typed_reach st x c.

(** No node below [x] carries a local reference. *)
Definition resolved_below (st : store) (x : sval) : Prop :=
  forall u c,
    typed_reach st x u -> typed_child st u c -> not_local_reference st c.

(** The documents the resolver is meant for: [definitions] is an object
    none of whose entries is a string or carries a local reference, and no
    node typed "object" has a local reference as its properties map. *)
Record well_formed (st : store) : Prop := {
  wf_definitions : sget st (SRef sw) "definitions" = Ok (SRef D);
  wf_entries :
    forall key v,
      sget st (SRef D) key = Ok v ->
      (forall text, v <> SStr text) /\ not_local_reference st v;
  wf_properties :
    forall l P,
      sget st (SRef l) "type" = Ok (SStr "object") ->
      sget st (SRef l) "properties" = Ok (SRef P) ->
      not_local_reference st (SRef P)
}.

(** A property of the store that the assignments of the resolver keep, on
    such documents. *)
Definition stable (Q : store -> Prop) : Prop :=
  forall st X key v,
    well_formed st -> Q st ->
    replaces_local_reference (SRef sw) st X key v ->
    Q (sset st X key v).

(** Where the loop over the keys of [x.items] stands, [rest] being the
    keys still to come: the items carry no local reference, and what is
    below them is resolved unless an iteration is still to come; or they
    carry one, and the iteration for the key [$ref] is still to come. *)
Definition items_state (st : store) (x : sval) (rest : list string) : Prop :=
  exists z,
    sget st x "items" = Ok z
    /\ ((not_local_reference st z /\ (resolved_below st z \/ rest <> []))
        \/ ((exists pointer,
               sget st z "$ref" = Ok (SStr pointer)
               /\ test_http pointer = false)
            /\ In "$ref" rest)).

(** Where the loop over the keys of the properties map [P] stands, [done]
    being the keys already visited: each of those properties carries no
    local reference, and neither does any node below it. *)
Definition properties_state (st : store) (P : loc) (done : list string)
  : Prop :=
  forall k,
    In k done ->
    exists c,
      sget st (SRef P) k = Ok c
      /\ not_local_reference st c
      /\ resolved_below st c.

End Reach.

Section ItemsInvariant.

Import Store.

(** The document [sw], its definitions [D] and the node [target] that the
    last segment of [pointer] names there; the array schema [s] and the
    reference node [r] that is its [items]. *)
Variables sw D target s r : loc.
Variable pointer : string.

(** What holds of the store while [s] is resolved; [resolved] says that
    [s.items] already holds [target]. *)
Record items_invariant (resolved : bool) (st : store) : Prop := {
  items_definitions : sget st (SRef sw) "definitions" = Ok (SRef D);
  items_definitions_objects :
    forall key text, sget st (SRef D) key <> Ok (SStr text);
  items_target : sget st (SRef D) (last_segment pointer) = Ok (SRef target);
  items_target_plain :
    forall text, sget st (SRef target) "$ref" <> Ok (SStr text);
  items_pointer : sget st (SRef r) "$ref" = Ok (SStr pointer);
  items_slot :
    sget st (SRef s) "items" = Ok (SRef target)
    \/ (resolved = false /\ sget st (SRef s) "items" = Ok (SRef r))
}.

End ItemsInvariant.

(** ** Sample documents *)

Definition string_schema : value := VObj [("type", VStr "string")].

Definition limit_param : value :=
  VObj [("name", VStr "limit"); ("in", VStr "query");
        ("schema", VObj [("type", VStr "integer")])].

Definition tag_param : value :=
  VObj [("name", VStr "tag"); ("in", VStr "query"); ("default", VStr "d");
        ("schema", VObj [("type", VStr "string"); ("example", VStr "42")])].

Definition authorization_param : value :=
  VObj [("name", VStr "Authorization"); ("in", VStr "header");
        ("required", VBool true); ("schema", string_schema)].

Definition trace_param : value :=
  VObj [("name", VStr "X-Trace"); ("in", VStr "header");
        ("required", VBool true); ("default", VStr "zz");
        ("schema", string_schema)].

Definition petId_param : value :=
  VObj [("name", VStr "petId"); ("in", VStr "path"); ("default", VNum 7);
        ("schema", VObj [("type", VStr "integer")])].

Definition pet_body_schema : value :=
  VObj [("type", VStr "object");
        ("properties",
         VObj [("pet", VObj [("$ref", VStr "#/definitions/Pet")])])].

(** One operation, [GET /pets], no [servers]. *)
Definition petstore : value :=
  VObj [("paths",
         VObj [("/pets",
                VObj [("get",
                       VObj [("description", VStr "List pets");
                             ("parameters",
                              VArr [limit_param; tag_param;
                                    authorization_param; trace_param;
                                    petId_param]);
                             ("requestBody",
                              VObj [("content",
                                     VObj [("application/json",
                                            VObj [("schema",
                                                   pet_body_schema)])])])])])]);
        ("definitions",
         VObj [("Pet", VObj [("type", VStr "object");
                             ("properties",
                              VObj [("name", string_schema)])])])].

(** Parameters declared by reference. *)
Definition by_reference : value :=
  VObj [("paths",
         VObj [("/items",
                VObj [("get",
                       VObj [("parameters",
                              VArr [VObj [("$ref",
                                           VStr "#/components/parameters/Page")];
                                    VObj [("$ref",
                                           VStr "#/components/parameters/Key")]])])])]);
        ("components",
         VObj [("parameters",
                VObj [("Page",
                       VObj [("name", VStr "page"); ("in", VStr "query");
                             ("schema", VObj [("type", VStr "integer");
                                              ("example", VNum 1)])]);
                      ("Key",
                       VObj [("name", VStr "X-Api-Key"); ("in", VStr "header");
                             ("required", VBool true);
                             ("schema", string_schema)])])])].

(** The required header [Authorization], declared by reference. *)
Definition authorization_by_reference : value :=
  VObj [("paths",
         VObj [("/secure",
                VObj [("get",
                       VObj [("parameters",
                              VArr [VObj [("$ref",
                                           VStr "#/components/parameters/Auth")]])])])]);
        ("components",
         VObj [("parameters", VObj [("Auth", authorization_param)])])].

(** The second declared operation has a [null] request body. *)
Definition broken_body : value :=
  VObj [("paths",
         VObj [("/ok", VObj [("get", VObj [])]);
               ("/bad", VObj [("post", VObj [("requestBody", VNull)])])])].

(** A document whose [Pet] composes [Animal] with [allOf], and a schema
    with a property that refers to [Pet]. *)
Definition allOf_document : value :=
  VObj [("definitions",
         VObj [("Pet",
                VObj [("allOf",
                       VArr [VObj [("$ref", VStr "#/definitions/Animal")]])]);
               ("Animal", string_schema)]);
        ("schema", pet_body_schema)].

(** The document in the store.  Locations are given children first:
    2 is [Pet], 4 the definitions, 5 the reference node of the property
    [pet], 6 the properties map, 7 the schema and 8 the document. *)
Definition allOf_store : Store.store :=
  snd (fst (Store.alloc allOf_document Store.empty_store 0)).

Definition allOf_root : Store.sval :=
  fst (fst (Store.alloc allOf_document Store.empty_store 0)).

(** The store that [getResolvedSchema] leaves on that schema. *)
Definition allOf_resolved : Store.store :=
  match Store.getResolvedSchema 3 allOf_store allOf_root (Store.SRef 7) with
  | Some (Ok st) => st
  | _ => allOf_store
  end.

(** What the specification expects of the property [k] of [schema] once
    resolved against the definition [name]: the same tree as the
    definition, and no local reference left anywhere in it. *)
Definition property_fully_resolved (st : Store.store)
    (swagger schema : Store.sval) (k name : string) : Prop :=
  exists definitions target properties property,
    Store.sget st swagger "definitions" = Ok definitions
    /\ Store.sget st definitions name = Ok target
    /\ Store.sget st schema "properties" = Ok properties
    /\ Store.sget st properties k = Ok property
    /\ (forall depth,
          Store.snapshot depth st property = Store.snapshot depth st target)
    /\ (forall depth,
          has_local_ref (Store.snapshot depth st property) = false).

(** A document with an array schema whose items refer to [Pet], an object
    schema with an external and a local reference, one whose property
    refers to the self-referential [Node], and one whose property refers
    to a definition that does not exist. *)
Definition catalog_document : value :=
  VObj [("definitions",
         VObj [("Pet", VObj [("type", VStr "object");
                             ("properties",
                              VObj [("name", string_schema)])]);
               ("Node", VObj [("type", VStr "object");
                              ("properties",
                               VObj [("next",
                                      VObj [("$ref",
                                             VStr "#/definitions/Node")])])])]);
        ("list", VObj [("type", VStr "array");
                       ("items", VObj [("$ref", VStr "#/definitions/Pet")])]);
        ("mixed", VObj [("type", VStr "object");
                        ("properties",
                         VObj [("ext",
                                VObj [("$ref",
                                       VStr "http://example.com/x.json")]);
                               ("pet",
                                VObj [("$ref", VStr "#/definitions/Pet")])])]);
        ("cyclic", VObj [("type", VStr "object");
                         ("properties",
                          VObj [("head",
                                 VObj [("$ref",
                                        VStr "#/definitions/Node")])])]);
        ("missing", VObj [("type", VStr "object");
                          ("properties",
                           VObj [("m",
                                  VObj [("$ref",
                                         VStr "#/definitions/Nothing")])])])].

(** In the store: 2 is [Pet], 5 [Node] (4 its properties map), 6 the
    definitions, 8 [list] (7 its items), 12 [mixed] (11 its properties map,
    9 and 10 the two reference nodes), 15 [cyclic] (14 its properties map),
    18 [missing] (17 its properties map) and 19 the document. *)
Definition catalog_store : Store.store :=
  snd (fst (Store.alloc catalog_document Store.empty_store 0)).

Definition catalog_root : Store.sval :=
  fst (fst (Store.alloc catalog_document Store.empty_store 0)).

(** The node stored in [st] under [key] of the document root. *)
Definition catalog_node (st : Store.store) (key : string) : Store.sval :=
  match Store.sget st catalog_root key with
  | Ok v => v
  | Throw _ => Store.SUndef
  end.

(** A document whose [Pet] has a property that refers to [Owner] and an
    array property whose items refer to [Tag], and a schema with a
    property that refers to [Pet]. *)
Definition kennel_document : value :=
  VObj [("definitions",
         VObj [("Pet",
                VObj [("type", VStr "object");
                      ("properties",
                       VObj [("name", string_schema);
                             ("owner",
                              VObj [("$ref", VStr "#/definitions/Owner")]);
                             ("tags",
                              VObj [("type", VStr "array");
                                    ("items",
                                     VObj [("$ref",
                                            VStr "#/definitions/Tag")])])])]);
               ("Owner", VObj [("type", VStr "object");
                               ("properties",
                                VObj [("name", string_schema)])]);
               ("Tag", string_schema)]);
        ("schema", pet_body_schema)].

Definition kennel_store : Store.store :=
  snd (fst (Store.alloc kennel_document Store.empty_store 0)).

Definition kennel_root : Store.sval :=
  fst (fst (Store.alloc kennel_document Store.empty_store 0)).

(** The store that [getResolvedSchema] leaves on that schema, which is at
    location 13; [Pet] is at 5 and its properties map at 4, [Owner] at 8,
    [Tag] at 9, the definitions at 10, the properties map of the schema at
    12 and the document at 14. *)
Definition kennel_resolved : Store.store :=
  match Store.getResolvedSchema 4 kennel_store kennel_root (Store.SRef 13) with
  | Some (Ok st) => st
  | _ => kennel_store
  end.

(** An operation with a cookie parameter and an optional header. *)
Definition unrouted_api : value :=
  VObj [("paths",
         VObj [("/s",
                VObj [("get",
                       VObj [("parameters",
                              VArr [VObj [("name", VStr "session");
                                          ("in", VStr "cookie");
                                          ("schema", string_schema)];
                                    VObj [("name", VStr "X-Debug");
                                          ("in", VStr "header");
                                          ("schema", string_schema)]])])])])].

(** The instantiator and the serializer used to observe what
    [getPayload] passes on. *)
Definition echo (v : value) : result value := Ok v.
Definition same (v : value) : value := v.

(** ** The operations a document declares *)

(** The (path, method) pairs in the order in which the two loops of
    [swaggerToHarList] enumerate them. *)
Definition declared_pairs (swagger : value) : list (string * string) :=
  match get swagger "paths" with
  | Ok paths =>
      flat_map (fun path =>
                  match get paths path with
                  | Ok item => map (fun method => (path, method))
                                   (own_keys item)
                  | Throw _ => []
                  end)
               (own_keys paths)
  | Throw _ => []
  end.

(** The batch entry of a declared pair: its [method] is the method key in
    upper case, its [url] the base URL's string form followed by the path
    key, and its [har] what [createHar] returns for the pair (given here
    as [convert]). *)
Definition batch_entry_of (convert : string -> string -> result value)
    (baseUrl entry : value) (pair : string * string) : Prop :=
  exists har,
    convert (fst pair) (snd pair) = Ok har
    /\ get entry "method" = Ok (VStr (toUpperCase (snd pair)))
    /\ get entry "url" = Ok (VStr (to_string baseUrl ++ fst pair))
    /\ get entry "har" = Ok har.

(** The entry that [getHeadersArray] pushes where
    [getRequiredHeaderParams] pushes [entry]: the same, except that an
    [Authorization] entry gets the prefixed key when one is supplied. *)
Definition with_bearer (apiKey entry : value) : value :=
  match get entry "name", get entry "type" with
  | Ok name, Ok type =>
      if strict_eq_str name "Authorization" && truthy apiKey
      then VObj [("name", name); ("value", bearer apiKey); ("type", type)]
      else entry
  | _, _ => entry
  end.

(** The two headers every request starts with. *)
Definition default_headers (contentType : value) : list value :=
  [VObj [("name", VStr "accept"); ("value", contentType)];
   VObj [("name", VStr "content-type"); ("value", contentType)]].

(** Two servers, and one operation with a parameter whose reference names
    a key that [components.parameters] does not have. *)
Definition served : value :=
  VObj [("servers",
         VArr [VObj [("url", VStr "https://api.example.com/v1")];
               VObj [("url", VStr "https://staging.example.com")]]);
        ("paths",
         VObj [("/a", VObj [("get", VObj []); ("put", VObj [])]);
               ("/b", VObj [("post", VObj [])])]);
        ("components", VObj [("parameters", VObj [])])].

Definition dangling_param : value :=
  VObj [("$ref", VStr "#/components/parameters/Missing")].

(** One operation whose second parameter is that reference. *)
Definition dangling_api : value :=
  VObj [("paths",
         VObj [("/x",
                VObj [("get",
                       VObj [("parameters",
                              VArr [limit_param; dangling_param])])])]);
        ("components", VObj [("parameters", VObj [])])].

(** * Properties *)

(** ** Loops *)

Lemma bind_Ok {A B : Type} (r : result A) (k : A -> result B) (b : B) :
  bind r k = Ok b -> exists a, r = Ok a /\ k a = Ok b.
Proof.
  destruct r as [a|e]; simpl; intro H; [eauto | discriminate].
Qed.

Lemma bind_ret {A B : Type} (a : A) (k : A -> result B) :
  bind (Ok a) k = k a.
Proof.
  reflexivity.
Qed.

Lemma for_each_app {S X : Type} (body : S -> X -> result S) (xs ys : list X)
    (s : S) :
  for_each body (xs ++ ys)%list s =
  bind (for_each body xs s) (for_each body ys).
Proof.
  revert s; induction xs as [|x xs IH]; intro s; simpl; [reflexivity|].
  destruct (body s x); simpl; auto.
Qed.

(** A loop whose body keeps an invariant keeps it. *)
Lemma for_each_invariant {S X : Type} (P : S -> Prop)
    (body : S -> X -> result S) (xs : list X) :
  (forall s x s', In x xs -> P s -> body s x = Ok s' -> P s') ->
  forall s s', P s -> for_each body xs s = Ok s' -> P s'.
Proof.
  induction xs as [|x xs IH]; intros Hbody s s' Hs Hrun; simpl in Hrun.
  - inversion Hrun; subst; assumption.
  - apply bind_Ok in Hrun as (s1 & H1 & H2).
    apply IH with (s := s1); auto.
    + intros; eapply Hbody; eauto; right; assumption.
    + eapply Hbody; eauto; left; reflexivity.
Qed.

(** A loop one of whose iterations throws whatever the state, throws. *)
Lemma for_each_throws {S X : Type} (body : S -> X -> result S)
    (xs : list X) (x : X) :
  In x xs ->
  (forall s, exists e, body s x = Throw e) ->
  forall s, exists e, for_each body xs s = Throw e.
Proof.
  induction xs as [|y xs IH]; intros Hin Hx s; [destruct Hin|].
  simpl. destruct Hin as [->|Hin].
  - destruct (Hx s) as [e ->]; simpl; eauto.
  - destruct (body s y) as [s1|e]; simpl; eauto.
Qed.

(** A loop whose body only pushes leaves what was there in place. *)
Lemma for_each_extends {X : Type} (body : list value -> X -> result (list value))
    (xs : list X) :
  (forall s x s', body s x = Ok s' -> exists t, s' = (s ++ t)%list) ->
  forall s s', for_each body xs s = Ok s' -> exists t, s' = (s ++ t)%list.
Proof.
  intro Hbody; induction xs as [|x xs IH]; intros s s' Hrun; simpl in Hrun.
  - inversion Hrun; exists []; rewrite app_nil_r; reflexivity.
  - apply bind_Ok in Hrun as (s1 & H1 & H2).
    apply Hbody in H1 as [t1 ->]. apply IH in H2 as [t2 ->].
    exists (t1 ++ t2)%list; rewrite app_assoc; reflexivity.
Qed.

(** ** Splitting a pointer *)

Lemma split_aux_no_separator (sep : ascii) (s cur : string) :
  contains_char sep s = false -> exists only, split_aux sep s cur = [only].
Proof.
  revert cur; induction s as [|c s IH]; intros cur H; simpl in *.
  - eauto.
  - apply orb_false_elim in H as [Hc Hs]. rewrite Hc. apply IH; assumption.
Qed.

Lemma split_aux_nonempty (sep : ascii) (s cur : string) :
  exists first rest, split_aux sep s cur = first :: rest.
Proof.
  revert cur; induction s as [|c s IH]; intro cur; simpl.
  - eauto.
  - destruct (Ascii.eqb c sep); [eauto | apply IH].
Qed.

Lemma split_aux_separator (sep : ascii) (s cur : string) :
  contains_char sep s = true ->
  exists first second rest, split_aux sep s cur = first :: second :: rest.
Proof.
  revert cur; induction s as [|c s IH]; intros cur H; simpl in *.
  - discriminate.
  - destruct (Ascii.eqb c sep) eqn:Hc; simpl in H.
    + destruct (split_aux_nonempty sep s EmptyString) as (a & r & ->); eauto.
    + apply IH; assumption.
Qed.

(** ** Reference Resolver *)

Lemma recursive_walk (rest : list string) (obj : value) :
  rest <> [] -> recursive rest obj = walk rest obj.
Proof.
  revert obj; induction rest as [|p rest IH]; intros obj Hne; [congruence|].
  destruct rest as [|q rest'].
  - simpl. destruct (get obj p); reflexivity.
  - change (recursive (p :: q :: rest') obj)
      with (bind (get obj p) (recursive (q :: rest'))).
    simpl walk. destruct (get obj p) as [next|e]; simpl; [|reflexivity].
    apply IH; discriminate.
Qed.


Lemma walk_app (before after : list string) (obj : value) :
  walk (before ++ after) obj = bind (walk before obj) (walk after).
Proof.
  revert obj; induction before as [|k before IH]; intro obj; simpl;
    [reflexivity|].
  destruct (get obj k); simpl; auto.
Qed.




(** ** Base URL and request URLs *)

Section Assembly.

Variable instantiate : value -> result value.
Variable JSON_stringify : value -> value.
Variable ambient_values : value.

Local Abbreviation createHar' := (createHar instantiate JSON_stringify ambient_values).
Local Abbreviation swaggerToHarList' :=
  (swaggerToHarList instantiate JSON_stringify ambient_values).
Local Abbreviation swaggerToHarList_try' :=
  (swaggerToHarList_try instantiate JSON_stringify ambient_values).

(** The [url] of a request is the string form of the base URL followed by
    the path key. *)
Lemma createHar_url (swagger : value) (path method : string)
    (queryParamValues apiKey har : value) :
  createHar' swagger path method queryParamValues apiKey = Ok har ->
  exists baseUrl,
    getBaseUrl swagger = Ok baseUrl
    /\ get har "url" = Ok (VStr (to_string baseUrl ++ path))
    /\ get har "_swaggerSettings" <> Ok VUndef.
Proof.
  unfold createHar. intro H.
  apply bind_Ok in H as (baseUrl & Hbase & H).
  apply bind_Ok in H as (headers & _ & H).
  apply bind_Ok in H as (queryString & _ & H).
  apply bind_Ok in H as (op & _ & H).
  apply bind_Ok in H as (originalMethod & _ & H).
  apply bind_Ok in H as (pathParams & _ & H).
  apply bind_Ok in H as (requiredHeaderParams & _ & H).
  apply bind_Ok in H as (postData & _ & H).
  exists baseUrl. split; [assumption|].
  destruct (truthy postData); inversion H; subst; simpl;
    split; (reflexivity || discriminate).
Qed.

Lemma getBaseUrl_without_servers (swagger : value) :
  get swagger "servers" = Ok VUndef \/ get swagger "servers" = Ok (VArr []) ->
  getBaseUrl swagger = Ok VUndef.
Proof.
  unfold getBaseUrl. intros [-> | ->]; reflexivity.
Qed.

Lemma swaggerToHarList_try_entries (swagger baseUrl : value)
    (harList : list value) :
  getBaseUrl swagger = Ok baseUrl ->
  swaggerToHarList_try' swagger = Ok harList ->
  Forall (batch_entry swagger baseUrl) harList.
Proof.
  unfold swaggerToHarList_try. intros Hbase H. rewrite Hbase in H.
  simpl in H. apply bind_Ok in H as (paths & Hpaths & H).
  revert H. apply for_each_invariant; [|constructor].
  intros s path s' Hpath Hs Hstep. unfold path_loop_step in Hstep.
  rewrite Hpaths in Hstep. simpl in Hstep.
  apply bind_Ok in Hstep as (item & Hitem & Hstep).
  revert Hstep. apply for_each_invariant; [|assumption].
  clear s s' Hs. intros s method s' _ Hs Hstep. unfold method_step in Hstep.
  apply bind_Ok in Hstep as (har & Hhar & Hstep).
  apply bind_Ok in Hstep as (op & _ & Hstep).
  apply bind_Ok in Hstep as (description & _ & Hstep).
  inversion Hstep; subst. unfold push. apply Forall_app. split; [assumption|].
  constructor; [|constructor].
  apply createHar_url in Hhar as (baseUrl' & Hbase' & Hurl & _).
  rewrite Hbase in Hbase'. inversion Hbase'; subst baseUrl'.
  exists paths, path, har. repeat split; auto.
Qed.

(** C9.  When the document has no [servers] entry, or an empty [servers]
    list, [getBaseUrl] yields [undefined], the [url] of every request
    that [createHar] produces is "undefined" followed by the raw path
    template, and so are the [url] of every batch entry and of the
    request it carries. *)
Theorem no_servers_url_is_undefined_then_path (swagger : value) :
  get swagger "servers" = Ok VUndef \/ get swagger "servers" = Ok (VArr []) ->
  getBaseUrl swagger = Ok VUndef
  /\ (forall path method queryParamValues apiKey har,
        createHar' swagger path method queryParamValues apiKey = Ok har ->
        get har "url" = Ok (VStr ("undefined" ++ path)))
  /\ (forall entries,
        swaggerToHarList' swagger = VArr entries ->
        Forall (fun entry =>
                  exists paths path har,
                    get swagger "paths" = Ok paths
                    /\ In path (own_keys paths)
                    /\ get entry "url" = Ok (VStr ("undefined" ++ path))
                    /\ get entry "har" = Ok har
                    /\ get har "url" = Ok (VStr ("undefined" ++ path)))
               entries).
Proof.
  intro Hservers. pose proof (getBaseUrl_without_servers swagger Hservers) as Hbase.
  split; [assumption|]. split.
  - intros path method q k har H.
    apply createHar_url in H as (baseUrl & Hbase' & Hurl & _).
    rewrite Hbase in Hbase'. inversion Hbase'; subst. exact Hurl.
  - intros entries H. unfold swaggerToHarList in H.
    destruct (swaggerToHarList_try' swagger) as [harList|e] eqn:Htry;
      simpl in H; [|discriminate].
    inversion H; subst.
    exact (swaggerToHarList_try_entries swagger VUndef entries Hbase Htry).
Qed.

End Assembly.

(** [petstore] declares no [servers]: its one batch entry and the request
    inside it have the [url] "undefined/pets". *)
Lemma no_servers_url_is_undefined_then_path_witness :
  getBaseUrl petstore = Ok VUndef
  /\ (exists entry har,
        swaggerToHarList echo same VUndef petstore = VArr [entry]
        /\ get entry "url" = Ok (VStr "undefined/pets")
        /\ get entry "har" = Ok har
        /\ get har "url" = Ok (VStr "undefined/pets")).
Proof.
  destruct (no_servers_url_is_undefined_then_path echo same VUndef petstore
              (or_introl eq_refl)) as (Hbase & _ & Hbatch).
  split; [exact Hbase|].
  destruct (swaggerToHarList echo same VUndef petstore) as [| | | | |entries|]
    eqn:Hrun; try (vm_compute in Hrun; discriminate).
  specialize (Hbatch entries eq_refl).
  assert (Hone : exists entry, entries = [entry]).
  { vm_compute in Hrun. inversion Hrun. eauto. }
  destruct Hone as [entry ->].
  inversion Hbatch as [|? ? (paths & path & har & Hpaths & Hin & Hurl & Hhar & Hurl') _];
    subst.
  inversion Hpaths; subst paths. simpl in Hin. destruct Hin as [<-|[]].
  exists entry, har. auto.
Defined.

(** ** Batch conversion *)

(** C6.  When a step of the batch conversion raises (reading the base URL,
    or [createHar] on any declared path and method, whatever was converted
    before it), [swaggerToHarList] returns [null]: the entries built so far
    are dropped and nothing is thrown. *)
Theorem swaggerToHarList_null_on_error (instantiate : value -> result value)
    (JSON_stringify : value -> value) (ambient_values swagger : value) :
  batch_step_raises instantiate JSON_stringify ambient_values swagger ->
  swaggerToHarList instantiate JSON_stringify ambient_values swagger = VNull.
Proof.
  intro Hraises.
  assert (Htry : exists e,
             swaggerToHarList_try instantiate JSON_stringify ambient_values
                                  swagger = Throw e).
  { unfold swaggerToHarList_try.
    destruct Hraises as [e Hbase | paths item path method e Hpaths Hpath Hitem
                                     Hmethod Hhar].
    - rewrite Hbase. simpl. eauto.
    - destruct (getBaseUrl swagger) as [baseUrl|e0]; simpl; [|eauto].
      rewrite Hpaths. simpl.
      apply for_each_throws with (x := path); [assumption|].
      intro harList. unfold path_loop_step. rewrite Hpaths. simpl.
      rewrite Hitem. simpl.
      apply for_each_throws with (x := method); [assumption|].
      intro harList'. unfold method_step. rewrite Hhar. simpl. eauto. }
  destruct Htry as [e Htry]. unfold swaggerToHarList. rewrite Htry.
  reflexivity.
Qed.

(** In [broken_body] the first operation converts and the second one has a
    [null] request body, on which [getPayload] throws: the batch is
    [null]. *)
Lemma swaggerToHarList_null_on_error_witness :
  (exists har, createHar echo same VUndef broken_body "/ok" "get" VUndef VUndef
               = Ok har)
  /\ swaggerToHarList echo same VUndef broken_body = VNull.
Proof.
  split.
  - eexists. vm_compute. reflexivity.
  - apply swaggerToHarList_null_on_error.
    apply (raises_in_createHar echo same VUndef broken_body
             (VObj [("/ok", VObj [("get", VObj [])]);
                    ("/bad", VObj [("post", VObj [("requestBody", VNull)])])])
             (VObj [("post", VObj [("requestBody", VNull)])])
             "/bad" "post" TypeError).
    + reflexivity.
    + simpl. auto.
    + reflexivity.
    + simpl. auto.
    + vm_compute. reflexivity.
Defined.

(** ** Query strings *)

Lemma query_step_extends (swagger values : value) (s : list value)
    (param0 : value) (s' : list value) :
  query_step swagger values s param0 = Ok s' -> exists t, s' = (s ++ t)%list.
Proof.
  unfold query_step. intro H.
  apply bind_Ok in H as (param & _ & H).
  apply bind_Ok in H as (pin & _ & H).
  destruct (is_undefined pin).
  { inversion H. exists []. rewrite app_nil_r. reflexivity. }
  apply bind_Ok in H as (l & _ & H).
  destruct (String.eqb l "query").
  - apply bind_Ok in H as (type & _ & H).
    apply bind_Ok in H as (example & _ & H).
    apply bind_Ok in H as (name & _ & H).
    apply bind_Ok in H as (value & _ & H).
    inversion H. unfold push. eauto.
  - inversion H. exists []. rewrite app_nil_r. reflexivity.
Qed.

(** What the loop body does with a query parameter whose schema declares
    the example "42". *)
Lemma query_step_example_42 (swagger values : value) (s : list value)
    (param0 param schema name : value) (i : string) :
  resolve_param swagger param0 = Ok param ->
  get param "in" = Ok (VStr i) ->
  toLowerCase i = "query" ->
  get param "schema" = Ok schema ->
  get schema "example" = Ok (VStr "42") ->
  get param "name" = Ok name ->
  query_step swagger values s param0 =
  Ok (push s (VObj [("name", name); ("value", VStr "42")])).
Proof.
  intros Hres Hin Hlow Hschema Hexample Hname.
  unfold query_step. rewrite Hres. simpl. rewrite Hin. simpl.
  rewrite Hlow. simpl.
  assert (Htype : exists type, param_type param (VStr i) = Ok type).
  { unfold param_type. destruct (truthy (VStr i)).
    - rewrite Hschema. simpl.
      destruct schema; simpl in Hexample; try discriminate; simpl; eauto;
        repeat match goal with
               | |- context [if ?b then _ else _] => destruct b
               | |- context [match ?o with Some _ => _ | None => _ end] =>
                   destruct o
               end; eauto.
    - destruct param; simpl in Hin; try discriminate; simpl; eauto;
        repeat match goal with
               | |- context [if ?b then _ else _] => destruct b
               | |- context [match ?o with Some _ => _ | None => _ end] =>
                   destruct o
               end; eauto. }
  destruct Htype as [type ->]. simpl.
  unfold exampleVal. rewrite Hschema. simpl. rewrite Hexample. simpl.
  rewrite Hname. simpl. reflexivity.
Qed.

(** C3.  A query parameter whose schema declares the example "42" is
    emitted with the value "42", whatever the caller-supplied value map
    holds (an entry for its name included) and whatever default it
    declares: with the parameters before it giving [before], the loop goes
    on from [before] plus that entry, which is therefore the entry at
    position [length before] of the array returned. *)
Theorem getQueryStrings_example_42 (swagger : value) (path method : string)
    (values op parameters : value) (pre post : list value)
    (param0 param schema name : value) (i : string) (before : list value) :
  operation swagger path method = Ok op ->
  get op "parameters" = Ok parameters ->
  forin_values parameters = (pre ++ param0 :: post)%list ->
  resolve_param swagger param0 = Ok param ->
  get param "in" = Ok (VStr i) ->
  toLowerCase i = "query" ->
  get param "schema" = Ok schema ->
  get schema "example" = Ok (VStr "42") ->
  get param "name" = Ok name ->
  for_each (query_step swagger (if is_undefined values then VObj [] else values))
           pre [] = Ok before ->
  getQueryStrings swagger path method values =
    for_each (query_step swagger (if is_undefined values then VObj [] else values))
             post
             (push before (VObj [("name", name); ("value", VStr "42")]))
  /\ (forall queryStrings,
        getQueryStrings swagger path method values = Ok queryStrings ->
        nth_error queryStrings (List.length before) =
        Some (VObj [("name", name); ("value", VStr "42")])).
Proof.
  intros Hop Hparams Hlist Hres Hin Hlow Hschema Hexample Hname Hpre.
  assert (Hrun : getQueryStrings swagger path method values =
                 for_each (query_step swagger
                             (if is_undefined values then VObj [] else values))
                   post
                   (push before (VObj [("name", name); ("value", VStr "42")]))).
  { unfold getQueryStrings. rewrite Hop. simpl. rewrite Hparams. simpl.
    assert (Hdef : is_undefined parameters = false).
    { destruct parameters; try reflexivity. simpl in Hlist.
      destruct pre; discriminate. }
    rewrite Hdef. simpl. rewrite Hlist, for_each_app, Hpre. simpl.
    rewrite (query_step_example_42 _ _ _ _ _ _ _ _ Hres Hin Hlow Hschema
               Hexample Hname).
    reflexivity. }
  split; [exact Hrun|].
  intros queryStrings Hq. rewrite Hrun in Hq.
  apply for_each_extends in Hq; [|intros; eapply query_step_extends; eauto].
  destruct Hq as [t ->]. unfold push. rewrite <- app_assoc. simpl.
  rewrite nth_error_app2 by lia. rewrite Nat.sub_diag. reflexivity.
Qed.

(** In [petstore], [tag] declares the example "42" and the default "d";
    with a value map that has an entry for [tag], its value is still
    "42". *)
Lemma getQueryStrings_example_42_witness :
  exists first,
    getQueryStrings petstore "/pets" "get" (VObj [("tag", VStr "chosen")])
    = Ok [first; VObj [("name", VStr "tag"); ("value", VStr "42")]].
Proof.
  destruct (getQueryStrings_example_42 petstore "/pets" "get"
              (VObj [("tag", VStr "chosen")])
              (VObj [("description", VStr "List pets");
                     ("parameters",
                      VArr [limit_param; tag_param; authorization_param;
                            trace_param; petId_param]);
                     ("requestBody",
                      VObj [("content",
                             VObj [("application/json",
                                    VObj [("schema", pet_body_schema)])])])])
              (VArr [limit_param; tag_param; authorization_param;
                     trace_param; petId_param])
              [limit_param] [authorization_param; trace_param; petId_param]
              tag_param tag_param
              (VObj [("type", VStr "string"); ("example", VStr "42")])
              (VStr "tag") "query"
              [VObj [("name", VStr "limit"); ("value", VStr "undefined")]]
              eq_refl eq_refl eq_refl eq_refl eq_refl eq_refl eq_refl eq_refl
              eq_refl eq_refl) as [Hrun _].
  eexists. rewrite Hrun. vm_compute. reflexivity.
Defined.

(** ** Required headers *)

Section Headers.

Variable auth : value -> value.
Variable apiKey : value.

(** On a literal descriptor or a reference the loop body does not throw;
    it pushes at most one entry, and for a required [Authorization] header
    with an API key that entry carries [auth apiKey]. *)
Lemma header_step_well_formed (headers : list value) (param : value) :
  is_descriptor param || is_reference param = true ->
  exists pushed,
    header_step auth apiKey headers param = Ok (headers ++ pushed)%list
    /\ (is_required_header param = true ->
        get param "name" = Ok (VStr "Authorization") ->
        truthy apiKey = true ->
        pushed = [VObj [("name", VStr "Authorization");
                        ("value", auth apiKey);
                        ("type", declared_type param)]]).
Proof.
  intro Hwf. destruct param as [| | | | | |fs]; try discriminate Hwf.
  unfold header_step, is_required_header, declared_type. simpl in *.
  destruct (lookup "in" fs) as [| | | |i| |] eqn:Hin; simpl in *;
    try (rewrite andb_false_r in Hwf; simpl in Hwf);
    try (rewrite andb_false_r in Hwf; discriminate Hwf);
    try discriminate Hwf.
  - (* a reference: no [in] *)
    exists []. rewrite app_nil_r. split; [reflexivity | discriminate].
  - (* a descriptor *)
    rewrite orb_false_r in Hwf.
    apply andb_prop in Hwf as [Hname Hschema].
    rewrite andb_true_r in Hname.
    destruct (lookup "name" fs) as [| | | |n| |] eqn:Hn; try discriminate Hname.
    destruct (lookup "schema" fs) as [| | | | | |schema] eqn:Hs;
      try discriminate Hschema.
    destruct (String.eqb (toLowerCase i) "header") eqn:Hheader; simpl.
    2:{ exists []. rewrite app_nil_r. split; [reflexivity | discriminate]. }
    destruct (truthy (lookup "required" fs)) eqn:Hreq; simpl.
    2:{ exists []. rewrite app_nil_r. split; [reflexivity | discriminate]. }
    destruct (String.eqb n "Authorization" && truthy apiKey) eqn:Hauth; simpl.
    + apply andb_prop in Hauth as [Hn' _]. apply String.eqb_eq in Hn'. subst n.
      eexists. split; [reflexivity|]. intros _ _ _. reflexivity.
    + unfold header_value. simpl.
      destruct (truthy (lookup "example" fs)); simpl; rewrite ?Hn; simpl;
        (eexists; split; [reflexivity|]);
        intros _ Hn' Hkey; inversion Hn'; subst n; rewrite Hkey in Hauth;
        discriminate Hauth.
Qed.

Lemma header_loop_well_formed (params : list value) :
  Forall (fun p => is_descriptor p || is_reference p = true) params ->
  forall headers,
  exists pushed,
    for_each (header_step auth apiKey) params headers
    = Ok (headers ++ pushed)%list
    /\ (forall param,
          In param params ->
          is_required_header param = true ->
          get param "name" = Ok (VStr "Authorization") ->
          truthy apiKey = true ->
          In (VObj [("name", VStr "Authorization"); ("value", auth apiKey);
                    ("type", declared_type param)]) pushed).
Proof.
  induction 1 as [|p params Hp _ IH]; intro headers; simpl.
  - exists []. rewrite app_nil_r. split; [reflexivity | intros ? []].
  - destruct (header_step_well_formed headers p Hp) as (t1 & -> & Hentry).
    simpl. destruct (IH (headers ++ t1)%list) as (t2 & -> & Hrest).
    exists (t1 ++ t2)%list. rewrite app_assoc. split; [reflexivity|].
    intros param [<-|Hin] Hreq Hname Hkey; apply in_or_app.
    + left. rewrite (Hentry Hreq Hname Hkey). left. reflexivity.
    + right. auto.
Qed.

End Headers.

Lemma getHeadersArray_content_type (swagger : value) (path method : string)
    (apiKey pathObj parameters : value) :
  operation swagger path method = Ok pathObj ->
  get pathObj "parameters" = Ok parameters ->
  exists contentType,
    getHeadersArray swagger path method apiKey =
    if negb (is_undefined parameters) then
      for_each (header_step bearer apiKey) (forin_values parameters)
        [VObj [("name", VStr "accept"); ("value", contentType)];
         VObj [("name", VStr "content-type"); ("value", contentType)]]
    else Ok [VObj [("name", VStr "accept"); ("value", contentType)];
             VObj [("name", VStr "content-type"); ("value", contentType)]].
Proof.
  intros Hop Hparams. unfold getHeadersArray. rewrite Hop. simpl.
  assert (Hct : exists contentType,
      (if truthy pathObj
       then requestBody <- get pathObj "requestBody" ;;
            (if truthy requestBody
             then content <- get requestBody "content" ;;
                  (if truthy content
                   then getFirstContentTypeFromContent content
                   else Ok (VStr "application/json"))
             else Ok (VStr "application/json"))
       else Ok (VStr "application/json")) = Ok contentType).
  { destruct (truthy pathObj) eqn:Ht; [|eauto].
    destruct (get pathObj "requestBody") as [requestBody|e] eqn:Hrb.
    2:{ destruct pathObj; simpl in *; discriminate. }
    simpl. destruct (truthy requestBody) eqn:Ht'; [|eauto].
    destruct (get requestBody "content") as [content|e] eqn:Hc.
    2:{ destruct requestBody; simpl in *; discriminate. }
    simpl. destruct (truthy content) eqn:Ht''; [|eauto].
    unfold getFirstContentTypeFromContent.
    destruct content; simpl in *; try discriminate; eauto. }
  destruct Hct as [contentType ->]. simpl. rewrite Hparams. simpl.
  exists contentType. reflexivity.
Qed.

(** X18.  An operation whose parameter entries are all literal descriptors
    (a string [name], a string [in], a [schema] object) or references, one
    of them a literal required header descriptor named exactly
    "Authorization", converted with the API key "KEY123":
    [getHeadersArray] returns an array that contains the entry with value
    "Bearer KEY123", and [getRequiredHeaderParams] an array that contains
    the entry with the value "KEY123", without the prefix. *)
Theorem authorization_header_bearer_and_raw_key (swagger : value)
    (path method : string) (pathObj parameters param : value) :
  operation swagger path method = Ok pathObj ->
  get pathObj "parameters" = Ok parameters ->
  Forall (fun p => is_descriptor p || is_reference p = true)
         (forin_values parameters) ->
  In param (forin_values parameters) ->
  is_required_header param = true ->
  get param "name" = Ok (VStr "Authorization") ->
  exists headers requiredHeaderParams,
    getHeadersArray swagger path method (VStr "KEY123") = Ok headers
    /\ getRequiredHeaderParams swagger path method (VStr "KEY123")
       = Ok requiredHeaderParams
    /\ In (VObj [("name", VStr "Authorization");
                 ("value", VStr "Bearer KEY123");
                 ("type", declared_type param)]) headers
    /\ In (VObj [("name", VStr "Authorization");
                 ("value", VStr "KEY123");
                 ("type", declared_type param)]) requiredHeaderParams.
Proof.
  intros Hop Hparams Hwf Hin Hreq Hname.
  assert (Hdef : is_undefined parameters = false).
  { destruct parameters; try reflexivity. destruct Hin. }
  destruct (getHeadersArray_content_type swagger path method (VStr "KEY123")
              pathObj parameters Hop Hparams) as [contentType Hheaders].
  rewrite Hdef in Hheaders. simpl in Hheaders.
  destruct (header_loop_well_formed bearer (VStr "KEY123") _ Hwf
              [VObj [("name", VStr "accept"); ("value", contentType)];
               VObj [("name", VStr "content-type"); ("value", contentType)]])
    as (t1 & H1 & Hentry1).
  destruct (header_loop_well_formed (fun k => k) (VStr "KEY123") _ Hwf [])
    as (t2 & H2 & Hentry2).
  eexists. eexists. split; [rewrite Hheaders; exact H1|]. split.
  - unfold getRequiredHeaderParams. rewrite Hop. simpl. rewrite Hparams.
    simpl. rewrite Hdef. simpl. exact H2.
  - split.
    + apply in_or_app. right. apply (Hentry1 param Hin Hreq Hname eq_refl).
    + apply (Hentry2 param Hin Hreq Hname eq_refl).
Qed.

(** [GET /pets] of [petstore] declares the required header
    [Authorization]. *)
Lemma authorization_header_bearer_and_raw_key_witness :
  exists headers requiredHeaderParams,
    getHeadersArray petstore "/pets" "get" (VStr "KEY123") = Ok headers
    /\ getRequiredHeaderParams petstore "/pets" "get" (VStr "KEY123")
       = Ok requiredHeaderParams
    /\ In (VObj [("name", VStr "Authorization");
                 ("value", VStr "Bearer KEY123");
                 ("type", VStr "string")]) headers
    /\ In (VObj [("name", VStr "Authorization");
                 ("value", VStr "KEY123");
                 ("type", VStr "string")]) requiredHeaderParams.
Proof.
  apply (authorization_header_bearer_and_raw_key petstore "/pets" "get"
           (VObj [("description", VStr "List pets");
                  ("parameters",
                   VArr [limit_param; tag_param; authorization_param;
                         trace_param; petId_param]);
                  ("requestBody",
                   VObj [("content",
                          VObj [("application/json",
                                 VObj [("schema", pet_body_schema)])])])])
           (VArr [limit_param; tag_param; authorization_param; trace_param;
                  petId_param])
           authorization_param).
  - reflexivity.
  - reflexivity.
  - repeat constructor.
  - simpl. auto.
  - reflexivity.
  - reflexivity.
Defined.

(** ** Value synthesis in the three routes *)





(** ** Where the code departs from what it documents *)

(** C1.  [getPayload] is documented to resolve the references within the
    payload definition, and [getResolvedSchema] exists for that, but
    [getPayload] does not call it: whatever the instantiator and the
    serializer, on [GET /pets] of [petstore] the instantiator is applied to
    the content schema as the document has it, with its local [$ref] to
    [#/definitions/Pet] still in place. *)
Theorem getPayload_passes_schema_unresolved
    (instantiate : value -> result value) (JSON_stringify : value -> value) :
  getPayload instantiate JSON_stringify petstore "/pets" "get" =
    (example <- instantiate pet_body_schema ;;
     Ok (VObj [("mimeType", VStr "application/json");
               ("text", JSON_stringify example)]))
  /\ has_local_ref pet_body_schema = true
  /\ getPayload echo same petstore "/pets" "get" =
     Ok (VObj [("mimeType", VStr "application/json");
               ("text",
                VObj [("type", VStr "object");
                      ("properties",
                       VObj [("pet",
                              VObj [("$ref",
                                     VStr "#/definitions/Pet")])])])]).
Proof.
  repeat split; reflexivity.
Qed.

(** The schema that reaches the instantiator is always the one stored in
    the document under the first content type. *)
Lemma getPayload_instantiates_document_schema
    (instantiate : value -> result value) (JSON_stringify : value -> value)
    (swagger : value) (path method : string) (payload : value) :
  getPayload instantiate JSON_stringify swagger path method = Ok payload ->
  payload = VNull
  \/ exists contentType schema example,
       payload_schema swagger path method contentType = Ok schema
       /\ instantiate schema = Ok example
       /\ payload = VObj [("mimeType", contentType);
                          ("text", JSON_stringify example)].
Proof.
  unfold getPayload. intro H.
  apply bind_Ok in H as (op & _ & H).
  apply bind_Ok in H as (requestBody & _ & H).
  destruct (negb (is_undefined requestBody)); [|inversion H; auto].
  apply bind_Ok in H as (content & _ & H).
  destruct (negb (is_undefined content)); [|inversion H; auto].
  apply bind_Ok in H as (contentType & _ & H).
  destruct (negb (is_undefined contentType)); [|inversion H; auto].
  apply bind_Ok in H as (schema & Hschema & H).
  apply bind_Ok in H as (example & Hexample & H).
  inversion H. right. exists contentType, schema, example. auto.
Qed.

(** A query parameter whose schema declares no example: [exampleVal] is
    the string form of [undefined], which is truthy, so that is the value
    emitted, whatever the value map and the default. *)
Lemma query_step_without_example (swagger values : value) (acc : list value)
    (fs schema : list (string * value)) (location : string) :
  is_local_ref (lookup "$ref" fs) = false ->
  lookup "in" fs = VStr location ->
  toLowerCase location = "query" ->
  lookup "schema" fs = VObj schema ->
  lookup "example" schema = VUndef ->
  query_step swagger values acc (VObj fs) =
  Ok (push acc (VObj [("name", lookup "name" fs);
                      ("value", VStr "undefined")])).
Proof.
  intros Href Hin Hloc Hschema Hexample.
  unfold query_step, resolve_param. simpl.
  assert (Hres : match lookup "$ref" fs with
                 | VStr s => if negb (test_http s)
                             then resolveRef swagger s else Ok (VObj fs)
                 | _ => Ok (VObj fs)
                 end = Ok (VObj fs)).
  { unfold is_local_ref in Href. destruct (lookup "$ref" fs); try reflexivity.
    rewrite Href. reflexivity. }
  rewrite Hres. simpl. rewrite Hin. simpl. rewrite Hloc. simpl.
  unfold param_type, exampleVal. simpl. rewrite Hschema. simpl.
  rewrite Hexample. simpl.
  destruct (negb (String.eqb location "")); reflexivity.
Qed.

(** C2.  The placeholder is not reached: [limit] in [petstore] is a query
    parameter with no example, no value-map entry, no default and the
    schema type "integer", and [getQueryStrings] emits the value
    "undefined" for it, not "SOME_INTEGER_VALUE". *)
Theorem getQueryStrings_integer_placeholder_not_reached :
  getQueryStrings petstore "/pets" "get" VUndef =
    Ok [VObj [("name", VStr "limit"); ("value", VStr "undefined")];
        VObj [("name", VStr "tag"); ("value", VStr "42")]]
  /\ query_step petstore (VObj []) [] limit_param =
     Ok [VObj [("name", VStr "limit"); ("value", VStr "undefined")]]
  /\ placeholder (VStr "integer") = Ok (VStr "SOME_INTEGER_VALUE").
Proof.
  repeat split; reflexivity.
Qed.

(** C8.  The header routes do not resolve references.  In [by_reference]
    both parameters of [GET /items] are local references; the query route
    resolves the first and emits [page], while [getHeadersArray] and
    [getRequiredHeaderParams] read [in] on the reference itself and skip
    the second, which resolves to the required header [X-Api-Key]. *)
Theorem header_routes_do_not_resolve_references :
  getQueryStrings by_reference "/items" "get" VUndef =
    Ok [VObj [("name", VStr "page"); ("value", VStr "1")]]
  /\ (exists key,
        resolveRef by_reference "#/components/parameters/Key" = Ok key
        /\ is_required_header key = true
        /\ get key "name" = Ok (VStr "X-Api-Key"))
  /\ getHeadersArray by_reference "/items" "get" VUndef =
     Ok [VObj [("name", VStr "accept"); ("value", VStr "application/json")];
         VObj [("name", VStr "content-type");
               ("value", VStr "application/json")]]
  /\ getRequiredHeaderParams by_reference "/items" "get" VUndef = Ok [].
Proof.
  split; [reflexivity|]. split; [|split; reflexivity].
  eexists. split; [reflexivity|]. split; reflexivity.
Qed.

(** C7.  An operation that declares its required [Authorization] header by
    reference gets no such header.  [GET /secure] of
    [authorization_by_reference] has the one parameter
    [#/components/parameters/Auth], which resolves to the required header
    descriptor named "Authorization"; with the API key "KEY123",
    [getHeadersArray] returns the two default headers only, with no entry
    of value "Bearer KEY123", and [getRequiredHeaderParams] returns the
    empty array, with no entry of value "KEY123".  The two loops read [in]
    on the reference itself, as in C8. *)
Theorem authorization_by_reference_gets_no_header :
  (exists pathObj parameters,
     operation authorization_by_reference "/secure" "get" = Ok pathObj
     /\ get pathObj "parameters" = Ok parameters
     /\ forin_values parameters
        = [VObj [("$ref", VStr "#/components/parameters/Auth")]])
  /\ resolveRef authorization_by_reference "#/components/parameters/Auth"
     = Ok authorization_param
  /\ is_required_header authorization_param = true
  /\ get authorization_param "name" = Ok (VStr "Authorization")
  /\ getHeadersArray authorization_by_reference "/secure" "get" (VStr "KEY123")
     = Ok (default_headers (VStr "application/json"))
  /\ getRequiredHeaderParams authorization_by_reference "/secure" "get"
       (VStr "KEY123") = Ok [].
Proof.
  split; [|repeat split; reflexivity].
  eexists. eexists. repeat split; reflexivity.
Qed.

(** The loop body of the header routes never replaces a reference: an
    entry without [in] is passed over, whatever it refers to. *)
Lemma header_step_skips_reference (auth : value -> value) (apiKey : value)
    (headers : list value) (param : value) :
  is_reference param = true ->
  header_step auth apiKey headers param = Ok headers.
Proof.
  destruct param as [| | | | | |fs]; try discriminate. simpl.
  intro H. apply andb_prop in H as [_ Hin].
  unfold header_step. simpl.
  destruct (lookup "in" fs); try discriminate Hin. reflexivity.
Qed.

(** ** Schema Resolver *)

Import Store.

Lemma assoc_set_same (k : string) (v : sval) (fs : list (string * sval)) :
  assoc k (assoc_set k v fs) = v.
Proof.
  induction fs as [|[k' v'] fs IH]; simpl.
  - rewrite String.eqb_refl. reflexivity.
  - destruct (String.eqb k' k) eqn:E; simpl; rewrite E; auto.
Qed.

Lemma assoc_set_other (k k' : string) (v : sval) (fs : list (string * sval)) :
  k' <> k -> assoc k' (assoc_set k v fs) = assoc k' fs.
Proof.
  intro Hne. induction fs as [|[k0 v0] fs IH]; simpl.
  - destruct (String.eqb_spec k k'); [congruence | reflexivity].
  - destruct (String.eqb_spec k0 k); simpl.
    + subst. destruct (String.eqb_spec k k'); [congruence | reflexivity].
    + destruct (String.eqb k0 k'); auto.
Qed.

Lemma assoc_defined_key (k : string) (fs : list (string * sval)) :
  assoc k fs <> SUndef -> In k (map fst fs).
Proof.
  induction fs as [|[k0 v0] fs IH]; simpl; [congruence|].
  destruct (String.eqb_spec k0 k); auto.
Qed.

(** Reading after an assignment: the slot is untouched, or it is the one
    assigned, or it is the length of an array. *)
Lemma sget_sset_cases (st : store) (X : loc) (key : string) (v : sval)
    (l : loc) (k : string) :
  sget (sset st X key v) (SRef l) k = sget st (SRef l) k
  \/ (l = X /\ k = key /\ sget (sset st X key v) (SRef l) k = Ok v)
  \/ (exists n m,
        sget (sset st X key v) (SRef l) k = Ok (SNum n)
        /\ sget st (SRef l) k = Ok (SNum m)).
Proof.
  unfold sget, sset. destruct (Nat.eqb l X) eqn:E.
  - apply Nat.eqb_eq in E. subst l. simpl.
    destruct (is_array (st X) && String.eqb k "length").
    + right. right. eauto.
    + destruct (String.eqb_spec k key).
      * subst. right. left. rewrite assoc_set_same. auto.
      * left. rewrite assoc_set_other; auto.
  - left. reflexivity.
Qed.

(** An object none of whose fields is a string has no string property. *)
Lemma sget_no_string_field (st : store) (l : loc) :
  Forall (fun kv => forall text, snd kv <> SStr text) (fields (st l)) ->
  forall key text, sget st (SRef l) key <> Ok (SStr text).
Proof.
  intros Hall key text. unfold sget.
  destruct (is_array (st l) && String.eqb key "length"); [discriminate|].
  induction Hall as [|[k0 v0] fs Hv _ IH]; simpl; [discriminate|].
  destruct (String.eqb k0 key); [|exact IH].
  intro H. inversion H. eapply Hv; eauto.
Qed.

Lemma nth_map_SStr_not_ref (i : nat) (l : list string) (q : loc) :
  nth i (map SStr l) SUndef <> SRef q.
Proof.
  revert i; induction l as [|x l IH]; intros [|i]; simpl; try discriminate.
  apply IH.
Qed.

(** Only an object has a property that is an object. *)
Lemma sget_ref_base (st : store) (v : sval) (k : string) (q : loc) :
  sget st v k = Ok (SRef q) -> exists l, v = SRef l.
Proof.
  destruct v; simpl; try discriminate; eauto.
  destruct (String.eqb k "length"); [discriminate|].
  destruct (index_of_key k); [|discriminate].
  intro H. inversion H as [H']. apply nth_map_SStr_not_ref in H'. destruct H'.
Qed.

(** Only an object has a string under the key [$ref]. *)
Lemma sget_pointer_base (st : store) (v : sval) (pointer : string) :
  sget st v "$ref" = Ok (SStr pointer) -> exists l, v = SRef l.
Proof.
  destruct v; simpl; try discriminate; eauto.
Qed.

Lemma cbind_Ok {A B : Type} (c : comp A) (k : A -> comp B) (b : B) :
  cbind c k = Some (Ok b) -> exists a, c = Some (Ok a) /\ k a = Some (Ok b).
Proof.
  destruct c as [[a|e]|]; simpl; intro H; [eauto | discriminate | discriminate].
Qed.

Lemma cbind_lift {A B : Type} (a : A) (k : A -> comp B) :
  cbind (lift (Ok a)) k = k a.
Proof.
  reflexivity.
Qed.

Lemma lift_Ok {A : Type} (r : result A) (a : A) :
  lift r = Some (Ok a) -> r = Ok a.
Proof.
  unfold lift. intro H. inversion H. reflexivity.
Qed.

Lemma loop_app {S X : Type} (body : S -> X -> comp S) (xs ys : list X) (s : S) :
  loop body (xs ++ ys)%list s = cbind (loop body xs s) (loop body ys).
Proof.
  revert s; induction xs as [|x xs IH]; intro s; simpl; [reflexivity|].
  destruct (body s x) as [[s1|e]|]; simpl; auto.
Qed.

Lemma loop_invariant {S X : Type} (P : S -> Prop) (body : S -> X -> comp S)
    (xs : list X) :
  (forall s x s', P s -> body s x = Some (Ok s') -> P s') ->
  forall s s', P s -> loop body xs s = Some (Ok s') -> P s'.
Proof.
  intro Hbody. induction xs as [|x xs IH]; intros s s' Hs Hrun; simpl in Hrun.
  - inversion Hrun; subst; assumption.
  - apply cbind_Ok in Hrun as (s1 & H1 & H2). eauto.
Qed.

Section Aliasing.

(** The document [sw], its definitions [D] and the node [pet] stored there
    under "Pet"; the schema [s], its properties map [P] and the reference
    node [r] found there under [k]. *)
Variables sw D pet s P r : loc.
Variable k : string.

Lemma alias_invariant_sset (resolved : bool) (st : store) (X : loc)
    (key : string) (v : sval) :
  alias_invariant sw D pet s P r k resolved st ->
  replaces_reference D st X key v ->
  alias_invariant sw D pet s P r k resolved (sset st X key v).
Proof.
  intros [Hdefs Hobjs Hpet Hplain Hprops Hpplain Hptr Hslot]
         (q & pointer & Hq & Hqref & Hv).
  assert (Hv_plain : forall text, v <> SStr text).
  { intros text ->. exact (Hobjs _ _ Hv). }
  constructor.
  - destruct (sget_sset_cases st X key v sw "definitions")
      as [-> | [(-> & <- & _) | (n & m & _ & Hm)]]; [assumption| |congruence].
    rewrite Hdefs in Hq. inversion Hq; subst q.
    destruct (Hobjs _ _ Hqref).
  - intros key' text.
    destruct (sget_sset_cases st X key v D key')
      as [-> | [(_ & _ & ->) | (n & m & -> & _)]];
      [apply Hobjs | intro H; inversion H; eapply Hv_plain; eauto
      | discriminate].
  - destruct (sget_sset_cases st X key v D "Pet")
      as [-> | [(-> & <- & _) | (n & m & _ & Hm)]]; [assumption| |congruence].
    rewrite Hpet in Hq. inversion Hq; subst q.
    destruct (Hplain _ Hqref).
  - intro text.
    destruct (sget_sset_cases st X key v pet "$ref")
      as [-> | [(_ & _ & ->) | (n & m & -> & _)]];
      [apply Hplain | intro H; inversion H; eapply Hv_plain; eauto
      | discriminate].
  - destruct (sget_sset_cases st X key v s "properties")
      as [-> | [(-> & <- & _) | (n & m & _ & Hm)]]; [assumption| |congruence].
    rewrite Hprops in Hq. inversion Hq; subst q.
    destruct (Hpplain _ Hqref).
  - intro text.
    destruct (sget_sset_cases st X key v P "$ref")
      as [-> | [(_ & _ & ->) | (n & m & -> & _)]];
      [apply Hpplain | intro H; inversion H; eapply Hv_plain; eauto
      | discriminate].
  - destruct (sget_sset_cases st X key v r "$ref")
      as [-> | [(-> & <- & _) | (n & m & _ & Hm)]]; [assumption| |congruence].
    rewrite Hptr in Hq. discriminate Hq.
  - destruct (sget_sset_cases st X key v P k)
      as [-> | [(-> & <- & Hnew) | (n & m & _ & Hm)]].
    + assumption.
    + destruct Hslot as [Hdone | [Hres Hpending]].
      * rewrite Hdone in Hq. inversion Hq; subst q.
        destruct (Hplain _ Hqref).
      * rewrite Hpending in Hq. inversion Hq; subst q.
        rewrite Hptr in Hqref. inversion Hqref; subst pointer.
        change (last_segment "#/definitions/Pet") with "Pet" in Hv.
        rewrite Hpet in Hv. inversion Hv; subst v.
        left. exact Hnew.
    + destruct Hslot as [Hdone | [_ Hpending]]; congruence.
Qed.

Lemma definition_of_invariant (resolved : bool) (st : store)
    (pointer : string) (target : sval) :
  alias_invariant sw D pet s P r k resolved st ->
  definition_of (SRef sw) st pointer = Ok target ->
  sget st (SRef D) (last_segment pointer) = Ok target.
Proof.
  intros Hinv H. unfold definition_of in H.
  rewrite (inv_definitions _ _ _ _ _ _ _ _ _ Hinv) in H. exact H.
Qed.

Section Steps.

Variable resolved : bool.
Variable self : store -> sval -> comp store.
Hypothesis self_invariant :
  forall st x st',
    alias_invariant sw D pet s P r k resolved st -> self st x = Some (Ok st') ->
    alias_invariant sw D pet s P r k resolved st'.

Lemma prop_step_invariant (schema : sval) (st : store) (propKey : string)
    (st' : store) :
  alias_invariant sw D pet s P r k resolved st ->
  prop_step self (SRef sw) schema st propKey = Some (Ok st') ->
  alias_invariant sw D pet s P r k resolved st'.
Proof.
  intros Hinv H. unfold prop_step in H.
  apply cbind_Ok in H as (st1 & Hassign & H).
  apply cbind_Ok in H as (properties' & _ & H).
  apply cbind_Ok in H as (prop' & _ & H).
  apply self_invariant with (st := st1) (x := prop'); [|exact H].
  apply lift_Ok in Hassign.
  apply bind_Ok in Hassign as (properties & Hprops & Hassign).
  apply bind_Ok in Hassign as (prop & Hprop & Hassign).
  apply bind_Ok in Hassign as (pointer & Hpointer & Hassign).
  destruct pointer as [| | | |pointer|]; try (inversion Hassign; subst; exact Hinv).
  destruct (negb (test_http pointer)); [|inversion Hassign; subst; exact Hinv].
  apply bind_Ok in Hassign as (target & Htarget & Hassign).
  destruct (sget_pointer_base _ _ _ Hpointer) as [q ->].
  destruct (sget_ref_base _ _ _ _ Hprop) as [X ->].
  simpl in Hassign. inversion Hassign; subst st1.
  apply alias_invariant_sset; [exact Hinv|].
  exists q, pointer. repeat split; auto.
  eapply definition_of_invariant; eauto.
Qed.

Lemma item_step_invariant (fuel : nat) (schema : sval) (st : store)
    (itemKey : string) (st' : store) :
  alias_invariant sw D pet s P r k resolved st ->
  item_step self fuel (SRef sw) schema st itemKey = Some (Ok st') ->
  alias_invariant sw D pet s P r k resolved st'.
Proof.
  intros Hinv H. unfold item_step in H.
  apply cbind_Ok in H as (st1 & Hassign & H).
  apply cbind_Ok in H as (items' & _ & H).
  apply self_invariant with (st := st1) (x := items'); [|exact H].
  destruct (String.eqb_spec itemKey "$ref") as [->|_];
    [|inversion Hassign; subst; exact Hinv].
  apply cbind_Ok in Hassign as (items & Hitems & Hassign).
  apply cbind_Ok in Hassign as (pointer & Hpointer & Hassign).
  apply lift_Ok in Hitems. apply lift_Ok in Hpointer.
  destruct (sto_string fuel st pointer) as [text|]; [|discriminate Hassign].
  destruct (negb (test_http text)); [|inversion Hassign; subst; exact Hinv].
  destruct pointer as [| | | |pointer|]; try discriminate Hassign.
  apply lift_Ok in Hassign.
  apply bind_Ok in Hassign as (target & Htarget & Hassign).
  destruct (sget_pointer_base _ _ _ Hpointer) as [q ->].
  destruct schema as [| | | | |X]; simpl in Hassign;
    try discriminate Hassign; try (inversion Hassign; subst; exact Hinv).
  inversion Hassign; subst st1.
  apply alias_invariant_sset; [exact Hinv|].
  exists q, pointer. repeat split; auto.
  eapply definition_of_invariant; eauto.
Qed.

End Steps.

Lemma getResolvedSchema_unfold (fuel : nat) (st : store) (swagger schema : sval) :
  getResolvedSchema (S fuel) st swagger schema =
  (type <~ lift (sget st schema "type") ;;
   if s_strict_eq_str type "object" then
     properties <~ lift (sget st schema "properties") ;;
     if negb (s_is_undefined properties) then
       loop (prop_step (fun st' x => getResolvedSchema fuel st' swagger x)
                       swagger schema)
            (forin_keys st properties) st
     else ret st
   else if s_strict_eq_str type "array" then
     items <~ lift (sget st schema "items") ;;
     if negb (s_is_undefined items) then
       loop (item_step (fun st' x => getResolvedSchema fuel st' swagger x)
                       fuel swagger schema)
            (forin_keys st items) st
     else ret st
   else ret st).
Proof.
  reflexivity.
Qed.

(** Every call, nested ones included, keeps the invariant. *)
Lemma getResolvedSchema_invariant (resolved : bool) (fuel : nat) :
  forall (st : store) (x : sval) (st' : store),
    alias_invariant sw D pet s P r k resolved st ->
    getResolvedSchema fuel st (SRef sw) x = Some (Ok st') ->
    alias_invariant sw D pet s P r k resolved st'.
Proof.
  induction fuel as [|fuel IH]; intros st x st' Hinv H; [discriminate H|].
  rewrite getResolvedSchema_unfold in H.
  apply cbind_Ok in H as (type & _ & H).
  destruct (s_strict_eq_str type "object").
  - apply cbind_Ok in H as (properties & _ & H).
    destruct (negb (s_is_undefined properties));
      [|inversion H; subst; exact Hinv].
    revert H. apply loop_invariant; [|exact Hinv].
    intros s0 key s1 Hs0 Hstep.
    apply (prop_step_invariant resolved
             (fun st0 x0 => getResolvedSchema fuel st0 (SRef sw) x0))
      with (schema := x) (st := s0) (propKey := key);
      [intros st0 x0 st1 H0 H1; exact (IH st0 x0 st1 H0 H1)
      | assumption | assumption].
  - destruct (s_strict_eq_str type "array");
      [|inversion H; subst; exact Hinv].
    apply cbind_Ok in H as (items & _ & H).
    destruct (negb (s_is_undefined items));
      [|inversion H; subst; exact Hinv].
    revert H. apply loop_invariant; [|exact Hinv].
    intros s0 key s1 Hs0 Hstep.
    apply (item_step_invariant resolved
             (fun st0 x0 => getResolvedSchema fuel st0 (SRef sw) x0))
      with (fuel := fuel) (schema := x) (st := s0) (itemKey := key);
      [intros st0 x0 st1 H0 H1; exact (IH st0 x0 st1 H0 H1)
      | assumption | assumption].
Qed.

Lemma alias_invariant_resolved (st : store) :
  alias_invariant sw D pet s P r k false st ->
  sget st (SRef P) k = Ok (SRef pet) ->
  alias_invariant sw D pet s P r k true st.
Proof.
  intros [] Hslot. constructor; auto.
Qed.

(** The iteration for the key [k] leaves [pet] in the slot. *)
Lemma prop_step_resolves_slot (fuel : nat) (st st' : store) :
  alias_invariant sw D pet s P r k false st ->
  prop_step (fun st0 x => getResolvedSchema fuel st0 (SRef sw) x)
            (SRef sw) (SRef s) st k = Some (Ok st') ->
  alias_invariant sw D pet s P r k true st'.
Proof.
  intros Hinv H. unfold prop_step in H.
  apply cbind_Ok in H as (st1 & Hassign & H).
  apply cbind_Ok in H as (properties' & _ & H).
  apply cbind_Ok in H as (prop' & _ & H).
  apply getResolvedSchema_invariant with (resolved := true) in H; [exact H|].
  clear H. apply lift_Ok in Hassign.
  rewrite (inv_properties _ _ _ _ _ _ _ _ _ Hinv) in Hassign. rewrite bind_ret in Hassign; cbv beta in Hassign.
  destruct (inv_slot _ _ _ _ _ _ _ _ _ Hinv) as [Hdone | [_ Hpending]].
  - rewrite Hdone in Hassign. rewrite bind_ret in Hassign; cbv beta in Hassign.
    destruct (sget st (SRef pet) "$ref") as [pointer|e] eqn:Hpointer;
      [|discriminate Hassign].
    rewrite bind_ret in Hassign; cbv beta in Hassign.
    destruct pointer as [| | | |pointer|];
      try (inversion Hassign; subst; apply alias_invariant_resolved; assumption).
    destruct (inv_pet_plain _ _ _ _ _ _ _ _ _ Hinv _ Hpointer).
  - rewrite Hpending in Hassign. rewrite bind_ret in Hassign; cbv beta in Hassign.
    rewrite (inv_pointer _ _ _ _ _ _ _ _ _ Hinv) in Hassign. rewrite bind_ret in Hassign; cbv beta in Hassign.
    change (negb (test_http "#/definitions/Pet")) with true in Hassign.
    cbv iota in Hassign.
    unfold definition_of in Hassign.
    rewrite (inv_definitions _ _ _ _ _ _ _ _ _ Hinv) in Hassign. rewrite bind_ret in Hassign; cbv beta in Hassign.
    change (last_segment "#/definitions/Pet") with "Pet" in Hassign.
    rewrite (inv_pet _ _ _ _ _ _ _ _ _ Hinv) in Hassign.
    rewrite bind_ret in Hassign; cbv beta in Hassign. simpl sassign in Hassign.
    inversion Hassign; subst st1.
    apply alias_invariant_resolved.
    + apply alias_invariant_sset; [exact Hinv|].
      exists r, "#/definitions/Pet". repeat split.
      * exact Hpending.
      * exact (inv_pointer _ _ _ _ _ _ _ _ _ Hinv).
      * exact (inv_pet _ _ _ _ _ _ _ _ _ Hinv).
    + destruct (sget_sset_cases st P k (SRef pet) P k)
        as [Hsame | [(_ & _ & Hnew) | (n & m & _ & Hm)]].
      * pose proof Hpending as Hp. unfold sget in Hp, Hsame |- *.
        unfold sset in Hsame |- *. rewrite Nat.eqb_refl in Hsame |- *.
        simpl in Hsame |- *.
        destruct (is_array (st P) && String.eqb k "length");
          [discriminate Hp|].
        rewrite assoc_set_same. reflexivity.
      * exact Hnew.
      * congruence.
Qed.

(** The property is the definition node itself: when [definitions.Pet] is
    not a reference, none of the definitions is a string, and the
    properties map is not a reference, the slot [P[k]] and the definitions
    entry hold the same location once the call has returned. *)
Lemma property_slot_is_definition (fuel : nat)
    (st st' : store) :
  sget st (SRef sw) "definitions" = Ok (SRef D) ->
  (forall key text, sget st (SRef D) key <> Ok (SStr text)) ->
  sget st (SRef D) "Pet" = Ok (SRef pet) ->
  (forall text, sget st (SRef pet) "$ref" <> Ok (SStr text)) ->
  sget st (SRef s) "type" = Ok (SStr "object") ->
  sget st (SRef s) "properties" = Ok (SRef P) ->
  (forall text, sget st (SRef P) "$ref" <> Ok (SStr text)) ->
  sget st (SRef P) k = Ok (SRef r) ->
  sget st (SRef r) "$ref" = Ok (SStr "#/definitions/Pet") ->
  getResolvedSchema fuel st (SRef sw) (SRef s) = Some (Ok st') ->
  sget st' (SRef s) "properties" = Ok (SRef P)
  /\ sget st' (SRef P) k = Ok (SRef pet)
  /\ sget st' (SRef sw) "definitions" = Ok (SRef D)
  /\ sget st' (SRef D) "Pet" = Ok (SRef pet)
  /\ (forall text, sget st' (SRef pet) "$ref" <> Ok (SStr text))
  /\ (forall depth,
        snapshot depth st' (SRef pet) =
        match sget st' (SRef P) k with
        | Ok property => snapshot depth st' property
        | Throw _ => VUndef
        end).
Proof.
  intros Hdefs Hobjs Hpet Hplain Htype Hprops Hpplain Hslot Hptr Hrun.
  assert (Hinv : alias_invariant sw D pet s P r k false st).
  { constructor; auto. }
  assert (Hfinal : alias_invariant sw D pet s P r k true st').
  { destruct fuel as [|fuel]; [discriminate Hrun|].
    rewrite getResolvedSchema_unfold in Hrun.
    rewrite Htype, cbind_lift in Hrun. cbv beta in Hrun.
    change (s_strict_eq_str (SStr "object") "object") with true in Hrun.
    cbv iota in Hrun. rewrite Hprops, cbind_lift in Hrun. cbv beta in Hrun.
    change (negb (s_is_undefined (SRef P))) with true in Hrun.
    cbv iota in Hrun.
    change (forin_keys st (SRef P)) with (map fst (fields (st P))) in Hrun.
    assert (Hkey : In k (map fst (fields (st P)))).
    { apply assoc_defined_key. unfold sget in Hslot.
      destruct (is_array (st P) && String.eqb k "length");
        [discriminate Hslot|].
      inversion Hslot as [Heq]. rewrite Heq. discriminate. }
    apply in_split in Hkey as (pre & post & Hkeys). rewrite Hkeys in Hrun.
    rewrite loop_app in Hrun.
    apply cbind_Ok in Hrun as (st1 & Hpre & Hrun).
    simpl in Hrun. apply cbind_Ok in Hrun as (st2 & Hstep & Hpost).
    assert (H1 : alias_invariant sw D pet s P r k false st1).
    { revert Hpre. apply loop_invariant; [|exact Hinv].
      intros s0 key s1 Hs0 Hs.
      apply (prop_step_invariant false
               (fun st0 x0 => getResolvedSchema fuel st0 (SRef sw) x0))
        with (schema := SRef s) (st := s0) (propKey := key);
        [intros st0 x0 st3 Ha Hb;
         exact (getResolvedSchema_invariant false fuel st0 x0 st3 Ha Hb)
        | assumption | assumption]. }
    assert (H2 : alias_invariant sw D pet s P r k true st2).
    { eapply prop_step_resolves_slot; eauto. }
    revert Hpost. apply loop_invariant; [|exact H2].
    intros s0 key s1 Hs0 Hs.
    apply (prop_step_invariant true
             (fun st0 x0 => getResolvedSchema fuel st0 (SRef sw) x0))
      with (schema := SRef s) (st := s0) (propKey := key);
      [intros st0 x0 st3 Ha Hb;
       exact (getResolvedSchema_invariant true fuel st0 x0 st3 Ha Hb)
      | assumption | assumption]. }
  destruct Hfinal as [Hd Ho Hp Hpl Hpr Hppl Hpt [Hs | [Hs _]]];
    [|discriminate Hs].
  repeat split; auto.
  intro depth. rewrite Hs. reflexivity.
Qed.

End Aliasing.

(** C5, as stated, fails on [allOf_document]: [getResolvedSchema] returns,
    the property [pet] is the node [definitions.Pet], and below it the
    local reference to [#/definitions/Animal] is still there, [allOf]
    being neither [properties] nor [items]. *)
Lemma getResolvedSchema_leaves_reference_under_allOf :
  getResolvedSchema 3 allOf_store allOf_root (SRef 7) = Some (Ok allOf_resolved)
  /\ snapshot 5 allOf_resolved (SRef 7) =
     VObj [("type", VStr "object");
           ("properties",
            VObj [("pet",
                   VObj [("allOf",
                          VArr [VObj [("$ref",
                                       VStr "#/definitions/Animal")]])])])]
  /\ ~ property_fully_resolved allOf_resolved allOf_root (SRef 7) "pet" "Pet".
Proof.
  split; [vm_compute; reflexivity|]. split; [vm_compute; reflexivity|].
  intros (definitions & target & properties & property
          & _ & _ & Hprops & Hprop & _ & Hnone).
  vm_compute in Hprops. inversion Hprops; subst properties.
  vm_compute in Hprop. inversion Hprop; subst property.
  specialize (Hnone 4%nat). vm_compute in Hnone. discriminate Hnone.
Qed.

(** ** What every assignment keeps *)

Lemma assoc_set_keys (k : string) (v : sval) (fs : list (string * sval)) :
  assoc k fs <> SUndef -> map fst (assoc_set k v fs) = map fst fs.
Proof.
  induction fs as [|[k0 v0] fs IH]; simpl; [congruence|].
  destruct (String.eqb k0 k); simpl; [reflexivity|].
  intro H. rewrite IH; auto.
Qed.

(** Reading after an assignment to a slot that held an object. *)
Lemma sget_sset_replace (st : store) (X : loc) (key : string) (v : sval)
    (q l : loc) (k : string) :
  sget st (SRef X) key = Ok (SRef q) ->
  sget (sset st X key v) (SRef l) k =
  if Nat.eqb l X && String.eqb k key then Ok v else sget st (SRef l) k.
Proof.
  intro Hq. unfold sget, sset in *.
  destruct (Nat.eqb l X) eqn:E; [|reflexivity].
  apply Nat.eqb_eq in E. subst l. simpl.
  destruct (is_array (st X) && String.eqb key "length") eqn:Hlen;
    [discriminate Hq|].
  assert (Hpresent : assoc key (fields (st X)) <> SUndef).
  { inversion Hq as [Heq]. rewrite Heq. discriminate. }
  destruct (String.eqb_spec k key) as [->|Hne].
  - rewrite Hlen, assoc_set_same. reflexivity.
  - destruct (is_array (st X) && String.eqb k "length").
    + rewrite <- (length_map fst (assoc_set key v (fields (st X)))).
      rewrite assoc_set_keys by exact Hpresent.
      rewrite length_map. reflexivity.
    + rewrite assoc_set_other by exact Hne. reflexivity.
Qed.

Lemma sto_string_of_string (fuel : nat) (st : store) (text : string) :
  sto_string fuel st (SStr text) = Some text.
Proof.
  destruct fuel; reflexivity.
Qed.

Section Preservation.

Variable swagger : sval.

(** A property of the store that every assignment of the resolver
    keeps. *)
Variable I : store -> Prop.
Hypothesis I_assignment :
  forall st X key v,
    I st -> replaces_local_reference swagger st X key v ->
    I (sset st X key v).

Section OneStep.

Variable self : store -> sval -> comp store.
Hypothesis I_self :
  forall st x st', I st -> self st x = Some (Ok st') -> I st'.

Lemma prop_assignment_preserves (schema : sval) (st st1 : store)
    (propKey : string) :
  I st ->
  (properties <- sget st schema "properties" ;;
   prop <- sget st properties propKey ;;
   r <- sget st prop "$ref" ;;
   match r with
   | SStr pointer =>
       if negb (test_http pointer) then
         target <- definition_of swagger st pointer ;;
         sassign st properties propKey target
       else Ok st
   | _ => Ok st
   end) = Ok st1 ->
  I st1.
Proof.
  intros HI H.
  apply bind_Ok in H as (properties & Hprops & H).
  apply bind_Ok in H as (prop & Hprop & H).
  apply bind_Ok in H as (pointer & Hpointer & H).
  destruct pointer as [| | | |pointer|]; try (inversion H; subst; exact HI).
  destruct (negb (test_http pointer)) eqn:Hlocal;
    [|inversion H; subst; exact HI].
  apply bind_Ok in H as (target & Htarget & H).
  destruct (sget_pointer_base _ _ _ Hpointer) as [q ->].
  destruct (sget_ref_base _ _ _ _ Hprop) as [X ->].
  simpl in H. inversion H; subst st1.
  apply I_assignment; [exact HI|].
  exists q, pointer. repeat split; auto.
  apply negb_true_iff. exact Hlocal.
Qed.

Lemma prop_step_preserves (schema : sval) (st : store) (propKey : string)
    (st' : store) :
  I st ->
  prop_step self swagger schema st propKey = Some (Ok st') ->
  I st'.
Proof.
  intros HI H. unfold prop_step in H.
  apply cbind_Ok in H as (st1 & Hassign & H).
  apply cbind_Ok in H as (properties' & _ & H).
  apply cbind_Ok in H as (prop' & _ & H).
  apply I_self with (st := st1) (x := prop'); [|exact H].
  apply lift_Ok in Hassign.
  eapply prop_assignment_preserves; eauto.
Qed.

Lemma item_assignment_preserves (fuel : nat) (schema : sval)
    (st st1 : store) (itemKey : string) :
  I st ->
  (if String.eqb itemKey "$ref" then
     items <~ lift (sget st schema "items") ;;
     r <~ lift (sget st items itemKey) ;;
     match sto_string fuel st r with
     | None => None
     | Some text =>
         if negb (test_http text) then
           match r with
           | SStr pointer =>
               lift (target <- definition_of swagger st pointer ;;
                     sassign st schema "items" target)
           | _ => lift (Throw TypeError)
           end
         else ret st
     end
   else ret st) = Some (Ok st1) ->
  I st1.
Proof.
  intros HI H.
  destruct (String.eqb_spec itemKey "$ref") as [->|_];
    [|inversion H; subst; exact HI].
  apply cbind_Ok in H as (items & Hitems & H).
  apply cbind_Ok in H as (pointer & Hpointer & H).
  apply lift_Ok in Hitems. apply lift_Ok in Hpointer.
  destruct (sto_string fuel st pointer) as [text|] eqn:Htext;
    [|discriminate H].
  destruct (negb (test_http text)) eqn:Hlocal;
    [|inversion H; subst; exact HI].
  destruct pointer as [| | | |pointer|]; try discriminate H.
  rewrite sto_string_of_string in Htext. inversion Htext; subst text.
  apply lift_Ok in H.
  apply bind_Ok in H as (target & Htarget & H).
  destruct (sget_pointer_base _ _ _ Hpointer) as [q ->].
  destruct schema as [| | | | |X]; simpl in H;
    try discriminate H; try (inversion H; subst; exact HI).
  inversion H; subst st1.
  apply I_assignment; [exact HI|].
  exists q, pointer. repeat split; auto.
  apply negb_true_iff. exact Hlocal.
Qed.

Lemma item_step_preserves (fuel : nat) (schema : sval) (st : store)
    (itemKey : string) (st' : store) :
  I st ->
  item_step self fuel swagger schema st itemKey = Some (Ok st') ->
  I st'.
Proof.
  intros HI H. unfold item_step in H.
  apply cbind_Ok in H as (st1 & Hassign & H).
  apply cbind_Ok in H as (items' & _ & H).
  apply I_self with (st := st1) (x := items'); [|exact H].
  eapply item_assignment_preserves; eauto.
Qed.

End OneStep.

(** Whatever every assignment keeps, every call keeps. *)
Lemma getResolvedSchema_preserves (fuel : nat) :
  forall (st : store) (x : sval) (st' : store),
    I st ->
    getResolvedSchema fuel st swagger x = Some (Ok st') ->
    I st'.
Proof.
  induction fuel as [|fuel IH]; intros st x st' HI H; [discriminate H|].
  rewrite getResolvedSchema_unfold in H.
  apply cbind_Ok in H as (type & _ & H).
  destruct (s_strict_eq_str type "object").
  - apply cbind_Ok in H as (properties & _ & H).
    destruct (negb (s_is_undefined properties));
      [|inversion H; subst; exact HI].
    revert H. apply loop_invariant; [|exact HI].
    intros s0 key s1 Hs0 Hstep.
    apply (prop_step_preserves
             (fun st0 x0 => getResolvedSchema fuel st0 swagger x0))
      with (schema := x) (st := s0) (propKey := key);
      [intros st0 x0 st1 Ha Hb; exact (IH st0 x0 st1 Ha Hb)
      | assumption | assumption].
  - destruct (s_strict_eq_str type "array");
      [|inversion H; subst; exact HI].
    apply cbind_Ok in H as (items & _ & H).
    destruct (negb (s_is_undefined items));
      [|inversion H; subst; exact HI].
    revert H. apply loop_invariant; [|exact HI].
    intros s0 key s1 Hs0 Hstep.
    apply (item_step_preserves
             (fun st0 x0 => getResolvedSchema fuel st0 swagger x0))
      with (fuel := fuel) (schema := x) (st := s0) (itemKey := key);
      [intros st0 x0 st1 Ha Hb; exact (IH st0 x0 st1 Ha Hb)
      | assumption | assumption].
Qed.

End Preservation.

(** ** The typed subtree *)

Lemma loop_prefix_invariant {S X : Type} (Inv : list X -> S -> Prop)
    (body : S -> X -> comp S) :
  (forall pre x s s',
      Inv pre s -> body s x = Some (Ok s') -> Inv (pre ++ [x])%list s') ->
  forall xs pre s s',
    Inv pre s -> loop body xs s = Some (Ok s') -> Inv (pre ++ xs)%list s'.
Proof.
  intro Hbody. induction xs as [|x xs IH]; intros pre s s' Hs Hrun;
    simpl in Hrun.
  - inversion Hrun; subst. rewrite app_nil_r. exact Hs.
  - apply cbind_Ok in Hrun as (s1 & H1 & H2).
    specialize (IH (pre ++ [x])%list s1 s' (Hbody _ _ _ _ Hs H1) H2).
    rewrite <- app_assoc in IH. exact IH.
Qed.

Lemma loop_suffix_invariant {S X : Type} (Inv : list X -> S -> Prop)
    (body : S -> X -> comp S) :
  (forall x rest s s',
      Inv (x :: rest) s -> body s x = Some (Ok s') -> Inv rest s') ->
  forall xs s s',
    Inv xs s -> loop body xs s = Some (Ok s') -> Inv [] s'.
Proof.
  intro Hbody. induction xs as [|x xs IH]; intros s s' Hs Hrun;
    simpl in Hrun.
  - inversion Hrun; subst. exact Hs.
  - apply cbind_Ok in Hrun as (s1 & H1 & H2).
    exact (IH s1 s' (Hbody _ _ _ _ Hs H1) H2).
Qed.

(** Only an object has a string under the key [type]. *)
Lemma sget_type_base (st : store) (v : sval) (text : string) :
  sget st v "type" = Ok (SStr text) -> exists l, v = SRef l.
Proof.
  destruct v; simpl; try discriminate; eauto.
Qed.

Lemma not_local_primitive (st : store) (v : sval) :
  (forall l, v <> SRef l) -> not_local_reference st v.
Proof.
  intros Hv pointer H.
  destruct (sget_pointer_base _ _ _ H) as [l ->]. destruct (Hv l eq_refl).
Qed.

(** A value carries a local reference or it does not. *)
Lemma local_or_not (st : store) (v : sval) :
  not_local_reference st v
  \/ exists pointer,
       sget st v "$ref" = Ok (SStr pointer) /\ test_http pointer = false.
Proof.
  destruct (sget st v "$ref") as [[| | | |pointer|]|e] eqn:H;
    try (left; intros p Hp; rewrite H in Hp; discriminate Hp).
  destruct (test_http pointer) eqn:Hhttp.
  - left. intros p Hp. rewrite H in Hp. inversion Hp; subst. exact Hhttp.
  - right. exists pointer. auto.
Qed.

(** Reading any slot after an assignment to a slot that held an object:
    the slot read is untouched, or it is the one assigned. *)
Lemma write_cases (st : store) (X : loc) (key : string) (v : sval) (q : loc)
    (y : sval) (k : string) :
  sget st (SRef X) key = Ok (SRef q) ->
  sget (sset st X key v) y k = sget st y k
  \/ (y = SRef X /\ k = key /\ sget st y k = Ok (SRef q)
      /\ sget (sset st X key v) y k = Ok v).
Proof.
  intro Hq. destruct y as [| | | | |l]; try (left; reflexivity).
  rewrite (sget_sset_replace _ _ _ _ _ l k Hq).
  destruct (Nat.eqb l X && String.eqb k key) eqn:E; [|left; reflexivity].
  apply andb_prop in E as [E1 E2].
  apply Nat.eqb_eq in E1. apply String.eqb_eq in E2. subst l k.
  right. auto.
Qed.

Lemma sget_sset_written (st : store) (X : loc) (key : string) (v : sval)
    (q : loc) :
  sget st (SRef X) key = Ok (SRef q) ->
  sget (sset st X key v) (SRef X) key = Ok v.
Proof.
  intro Hq. rewrite (sget_sset_replace _ _ _ _ _ X key Hq).
  rewrite Nat.eqb_refl, String.eqb_refl. reflexivity.
Qed.

(** The keys of a node without keys hold no string. *)
Lemma no_keys_no_string (st : store) (z : sval) (k text : string) :
  forin_keys st z = [] -> sget st z k <> Ok (SStr text).
Proof.
  destruct z as [| | | |s|l]; simpl; try discriminate.
  - destruct s as [|c s]; [|discriminate]. intros _.
    destruct (String.eqb k "length"); [discriminate|].
    destruct (index_of_key k) as [[|i]|]; discriminate.
  - intro Hkeys. apply map_eq_nil in Hkeys. rewrite Hkeys.
    destruct (is_array (st l) && String.eqb k "length"); discriminate.
Qed.

Lemma typed_reach_trans (st : store) (x y z : sval) :
  typed_reach st x y -> typed_reach st y z -> typed_reach st x z.
Proof.
  intros Hxy Hyz. induction Hyz as [|u c _ IH Hc]; [exact Hxy|].
  exact (reach_child st x u c IH Hc).
Qed.

(** A path starts where it ends, or with a step from its origin. *)
Lemma typed_reach_front (st : store) (x u : sval) :
  typed_reach st x u ->
  u = x \/ exists c, typed_child st x c /\ typed_reach st c u.
Proof.
  induction 1 as [|u c _ IH Hc]; [left; reflexivity|].
  right. destruct IH as [-> | (c0 & Hc0 & Hreach)].
  - exists c. split; [exact Hc | apply reach_here].
  - exists c0. split; [exact Hc0|]. exact (reach_child st c0 u c Hreach Hc).
Qed.

(** What is true of every child is true below. *)
Lemma resolved_from_children (st : store) (x : sval) :
  (forall c, typed_child st x c ->
             not_local_reference st c /\ resolved_below st c) ->
  resolved_below st x.
Proof.
  intros H u c Hreach Hchild.
  destruct (typed_reach_front st x u Hreach) as [-> | (c0 & Hc0 & Hrest)].
  - exact (proj1 (H c Hchild)).
  - exact (proj2 (H c0 Hc0) u c Hrest Hchild).
Qed.

Lemma resolved_without_type (st : store) (x : sval) :
  (forall text, sget st x "type" <> Ok (SStr text)) -> resolved_below st x.
Proof.
  intro H. apply resolved_from_children.
  intros c [P k Ht _ _ _ | Ht _]; destruct (H _ Ht).
Qed.

Section TypedSubtree.

Variables sw D : loc.

Lemma write_target (st : store) (X : loc) (key : string) (v : sval) :
  well_formed sw D st ->
  replaces_local_reference (SRef sw) st X key v ->
  exists q pointer,
    sget st (SRef X) key = Ok (SRef q)
    /\ sget st (SRef q) "$ref" = Ok (SStr pointer)
    /\ test_http pointer = false
    /\ (forall text, v <> SStr text)
    /\ not_local_reference st v.
Proof.
  intros [Hdefs Hentries _] (q & pointer & Hq & Hptr & Hlocal & Hdef).
  unfold definition_of in Hdef. rewrite Hdefs, bind_ret in Hdef.
  destruct (Hentries _ _ Hdef) as [Hs Hn].
  exists q, pointer. auto.
Qed.

(** A slot that holds no local reference is not assigned to. *)
Lemma slot_kept (st : store) (X : loc) (key : string) (v y : sval)
    (k : string) (c : sval) :
  well_formed sw D st ->
  replaces_local_reference (SRef sw) st X key v ->
  sget st y k = Ok c ->
  not_local_reference st c ->
  sget (sset st X key v) y k = Ok c.
Proof.
  intros Hwf Hw Hc Hn.
  destruct (write_target _ _ _ _ Hwf Hw)
    as (q & pointer & Hq & Hptr & Hlocal & _ & _).
  destruct (write_cases st X key v q y k Hq) as [-> | (_ & _ & Hold & _)];
    [exact Hc|].
  rewrite Hold in Hc. inversion Hc; subst c.
  rewrite (Hn _ Hptr) in Hlocal. discriminate Hlocal.
Qed.

(** What a slot holds after an assignment it held before, unless it held
    a local reference and now holds the value assigned. *)
Lemma slot_back (st : store) (X : loc) (key : string) (v y : sval)
    (k : string) (c : sval) :
  well_formed sw D st ->
  replaces_local_reference (SRef sw) st X key v ->
  sget (sset st X key v) y k = Ok c ->
  sget st y k = Ok c
  \/ (c = v
      /\ exists q pointer,
           sget st y k = Ok (SRef q)
           /\ sget st (SRef q) "$ref" = Ok (SStr pointer)
           /\ test_http pointer = false).
Proof.
  intros Hwf Hw Hc.
  destruct (write_target _ _ _ _ Hwf Hw)
    as (q & pointer & Hq & Hptr & Hlocal & _ & _).
  destruct (write_cases st X key v q y k Hq)
    as [Hsame | (_ & _ & Hold & Hnew)].
  - left. rewrite <- Hsame. exact Hc.
  - right. rewrite Hnew in Hc. inversion Hc; subst c.
    split; [reflexivity|]. exists q, pointer. auto.
Qed.

Lemma string_slot_back (st : store) (X : loc) (key : string) (v y : sval)
    (k text : string) :
  well_formed sw D st ->
  replaces_local_reference (SRef sw) st X key v ->
  sget (sset st X key v) y k = Ok (SStr text) ->
  sget st y k = Ok (SStr text).
Proof.
  intros Hwf Hw Hc.
  destruct (slot_back _ _ _ _ _ _ _ Hwf Hw Hc) as [H | [Hv _]]; [exact H|].
  destruct (write_target _ _ _ _ Hwf Hw) as (_ & _ & _ & _ & _ & Hs & _).
  symmetry in Hv. destruct (Hs _ Hv).
Qed.

Lemma not_local_kept (st : store) (X : loc) (key : string) (v c : sval) :
  well_formed sw D st ->
  replaces_local_reference (SRef sw) st X key v ->
  not_local_reference st c ->
  not_local_reference (sset st X key v) c.
Proof.
  intros Hwf Hw Hn pointer H.
  apply Hn. eapply string_slot_back; eauto.
Qed.

Lemma keys_kept (st : store) (X : loc) (key : string) (v y : sval) :
  replaces_local_reference (SRef sw) st X key v ->
  forin_keys (sset st X key v) y = forin_keys st y.
Proof.
  intros (q & _ & Hq & _). destruct y as [| | | | |l]; try reflexivity.
  unfold forin_keys, sset. destruct (Nat.eqb l X) eqn:E; [|reflexivity].
  apply Nat.eqb_eq in E. subst l. simpl.
  apply assoc_set_keys. unfold sget in Hq.
  destruct (is_array (st X) && String.eqb key "length"); [discriminate Hq|].
  inversion Hq as [Heq]. rewrite Heq. discriminate.
Qed.

Lemma well_formed_kept (st : store) (X : loc) (key : string) (v : sval) :
  well_formed sw D st ->
  replaces_local_reference (SRef sw) st X key v ->
  well_formed sw D (sset st X key v).
Proof.
  intros Hwf Hw. pose proof Hwf as [Hdefs Hentries Hprops].
  constructor.
  - apply (slot_kept _ _ _ _ _ _ _ Hwf Hw Hdefs).
    intros pointer H. destruct (Hentries _ _ H) as [Hs _].
    destruct (Hs _ eq_refl).
  - intros key' v' H.
    destruct (slot_back _ _ _ _ _ _ _ Hwf Hw H)
      as [Hold | (_ & q & pointer & Hold & Hptr & Hlocal)].
    + destruct (Hentries _ _ Hold) as [Hs Hn].
      split; [exact Hs|]. apply not_local_kept; assumption.
    + destruct (Hentries _ _ Hold) as [_ Hn].
      rewrite (Hn _ Hptr) in Hlocal. discriminate Hlocal.
  - intros l P Ht Hp.
    apply (string_slot_back _ _ _ _ _ _ _ Hwf Hw) in Ht.
    destruct (slot_back _ _ _ _ _ _ _ Hwf Hw Hp)
      as [Hold | (_ & q & pointer & Hold & Hptr & Hlocal)].
    + apply not_local_kept; [assumption | assumption|].
      exact (Hprops _ _ Ht Hold).
    + rewrite (Hprops _ _ Ht Hold _ Hptr) in Hlocal. discriminate Hlocal.
Qed.

(** A step that exists after an assignment existed before it, from a node
    whose children carried no local reference. *)
Lemma typed_child_back (st : store) (X : loc) (key : string) (v u c : sval) :
  well_formed sw D st ->
  replaces_local_reference (SRef sw) st X key v ->
  (forall c0, typed_child st u c0 -> not_local_reference st c0) ->
  typed_child (sset st X key v) u c ->
  typed_child st u c.
Proof.
  intros Hwf Hw Hres [P k Ht Hp Hk Hs | Ht Hi].
  - apply (string_slot_back _ _ _ _ _ _ _ Hwf Hw) in Ht.
    destruct (sget_type_base _ _ _ Ht) as [l ->].
    rewrite (keys_kept _ _ _ _ _ Hw) in Hk.
    assert (Hp' : sget st (SRef l) "properties" = Ok (SRef P)).
    { destruct (slot_back _ _ _ _ _ _ _ Hwf Hw Hp)
        as [Hold | (_ & q & pointer & Hold & Hptr & Hlocal)]; [exact Hold|].
      rewrite (wf_properties _ _ _ Hwf _ _ Ht Hold _ Hptr) in Hlocal.
      discriminate Hlocal. }
    destruct (slot_back _ _ _ _ _ _ _ Hwf Hw Hs)
      as [Hold | (_ & q & pointer & Hold & Hptr & Hlocal)].
    + exact (child_property st (SRef l) c P k Ht Hp' Hk Hold).
    + pose proof (Hres _ (child_property st (SRef l) (SRef q) P k
                            Ht Hp' Hk Hold) _ Hptr) as Hhttp.
      rewrite Hhttp in Hlocal. discriminate Hlocal.
  - apply (string_slot_back _ _ _ _ _ _ _ Hwf Hw) in Ht.
    destruct (slot_back _ _ _ _ _ _ _ Hwf Hw Hi)
      as [Hold | (_ & q & pointer & Hold & Hptr & Hlocal)].
    + exact (child_items st u c Ht Hold).
    + pose proof (Hres _ (child_items st u (SRef q) Ht Hold) _ Hptr) as Hhttp.
      rewrite Hhttp in Hlocal. discriminate Hlocal.
Qed.

Lemma typed_reach_back (st : store) (X : loc) (key : string) (v x u : sval) :
  well_formed sw D st ->
  replaces_local_reference (SRef sw) st X key v ->
  resolved_below st x ->
  typed_reach (sset st X key v) x u ->
  typed_reach st x u.
Proof.
  intros Hwf Hw Hres Hreach. induction Hreach as [|u c _ IH Hc].
  - apply reach_here.
  - apply (reach_child st x u c IH).
    apply (typed_child_back _ _ _ _ _ _ Hwf Hw); [|exact Hc].
    intros c0 Hc0. exact (Hres u c0 IH Hc0).
Qed.

(** What is resolved stays resolved. *)
Lemma stable_resolved (x : sval) :
  stable sw D (fun st => resolved_below st x).
Proof.
  intros st X key v Hwf Hres Hw u c Hreach Hchild.
  pose proof (typed_reach_back _ _ _ _ _ _ Hwf Hw Hres Hreach) as Hu.
  apply not_local_kept; [assumption | assumption|].
  apply (Hres u c Hu).
  apply (typed_child_back _ _ _ _ _ _ Hwf Hw); [|exact Hchild].
  intros c0 Hc0. exact (Hres u c0 Hu Hc0).
Qed.

Lemma stable_slot (y : sval) (k : string) (c : sval) :
  stable sw D (fun st => sget st y k = Ok c /\ not_local_reference st c).
Proof.
  intros st X key v Hwf [Hc Hn] Hw. split.
  - eapply slot_kept; eauto.
  - apply not_local_kept; assumption.
Qed.

Lemma stable_keys (y : sval) (keys : list string) :
  stable sw D (fun st => forin_keys st y = keys).
Proof.
  intros st X key v _ H Hw. rewrite (keys_kept _ _ _ _ _ Hw). exact H.
Qed.

Lemma stable_properties_state (P : loc) (done : list string) :
  stable sw D (fun st => properties_state st P done).
Proof.
  intros st X key v Hwf H Hw k Hin.
  destruct (H k Hin) as (c & Hc & Hn & Hres). exists c. split; [|split].
  - eapply slot_kept; eauto.
  - apply not_local_kept; assumption.
  - exact (stable_resolved c st X key v Hwf Hres Hw).
Qed.

Lemma stable_and (Q1 Q2 : store -> Prop) :
  stable sw D Q1 -> stable sw D Q2 -> stable sw D (fun st => Q1 st /\ Q2 st).
Proof.
  intros H1 H2 st X key v Hwf [Ha Hb] Hw. split; eauto.
Qed.

(** What the assignments keep, the calls keep. *)
Lemma call_keeps (Q : store -> Prop) (fuel : nat) (st : store) (x : sval)
    (st' : store) :
  stable sw D Q ->
  well_formed sw D st -> Q st ->
  getResolvedSchema fuel st (SRef sw) x = Some (Ok st') ->
  well_formed sw D st' /\ Q st'.
Proof.
  intros HQ Hwf Hq Hrun.
  apply (getResolvedSchema_preserves (SRef sw)
           (fun st1 => well_formed sw D st1 /\ Q st1)) with (2 := conj Hwf Hq)
    in Hrun; [exact Hrun|].
  intros st1 X key v [H1 H2] Hw. split.
  - apply well_formed_kept; assumption.
  - exact (HQ st1 X key v H1 H2 Hw).
Qed.

(** A node typed "object" whose [properties] is not an object has nothing
    below it, before the call and after. *)
Lemma primitive_properties_resolved (fuel : nat) (st : store) (l : loc)
    (st' : store) (props : sval) :
  well_formed sw D st ->
  sget st (SRef l) "type" = Ok (SStr "object") ->
  sget st (SRef l) "properties" = Ok props ->
  (forall P, props <> SRef P) ->
  getResolvedSchema fuel st (SRef sw) (SRef l) = Some (Ok st') ->
  resolved_below st' (SRef l).
Proof.
  intros Hwf Htype Hprops Hprim Hcall.
  destruct (call_keeps
              (fun s => (sget s (SRef l) "type" = Ok (SStr "object")
                         /\ not_local_reference s (SStr "object"))
                        /\ (sget s (SRef l) "properties" = Ok props
                            /\ not_local_reference s props))
              fuel st (SRef l) st')
    as (_ & [Ht' _] & [Hp' _]); auto.
  { apply stable_and; apply stable_slot. }
  { split; (split; [assumption|]); apply not_local_primitive;
      [discriminate | exact Hprim]. }
  apply resolved_from_children.
  intros c [P k _ Hp _ _ | Ht _]; [|congruence].
  rewrite Hp' in Hp. inversion Hp as [Heq]. destruct (Hprim P Heq).
Qed.

Section Step.

Variable fuel : nat.

(** The nested calls leave what they are called on resolved. *)
Hypothesis nested_calls :
  forall st x st',
    well_formed sw D st ->
    getResolvedSchema fuel st (SRef sw) x = Some (Ok st') ->
    resolved_below st' x.

(** The assignment of the properties loop: none, and the property carries
    no local reference, or the one that replaces it. *)
Lemma prop_assignment_cases (x : sval) (P : loc) (st st1 : store)
    (k : string) :
  sget st x "properties" = Ok (SRef P) ->
  (properties <- sget st x "properties" ;;
   prop <- sget st properties k ;;
   r <- sget st prop "$ref" ;;
   match r with
   | SStr pointer =>
       if negb (test_http pointer) then
         target <- definition_of (SRef sw) st pointer ;;
         sassign st properties k target
       else Ok st
   | _ => Ok st
   end) = Ok st1 ->
  (st1 = st
   /\ exists c, sget st (SRef P) k = Ok c /\ not_local_reference st c)
  \/ (exists v,
        replaces_local_reference (SRef sw) st P k v /\ st1 = sset st P k v).
Proof.
  intros Hprops H. rewrite Hprops, bind_ret in H. cbv beta in H.
  apply bind_Ok in H as (c & Hc & H).
  apply bind_Ok in H as (r & Hr & H).
  destruct r as [| | | |pointer|];
    try (inversion H; subst; left; split; [reflexivity|];
         exists c; split; [exact Hc|];
         intros p Hp; rewrite Hr in Hp; discriminate Hp).
  destruct (test_http pointer) eqn:Hhttp; cbn [negb] in H; cbv iota in H.
  - inversion H; subst. left. split; [reflexivity|].
    exists c. split; [exact Hc|].
    intros p Hp. rewrite Hr in Hp. inversion Hp; subst. exact Hhttp.
  - apply bind_Ok in H as (target & Htarget & H).
    destruct (sget_pointer_base _ _ _ Hr) as [q ->].
    cbn [sassign] in H. inversion H; subst st1.
    right. exists target. split; [|reflexivity].
    exists q, pointer. auto.
Qed.

(** One iteration of the properties loop leaves the property it visits
    without a local reference, and resolved below. *)
Lemma prop_step_resolves (Q : store -> Prop) (l P : loc) (st st' : store)
    (k : string) :
  stable sw D Q ->
  well_formed sw D st -> Q st ->
  sget st (SRef l) "type" = Ok (SStr "object") ->
  sget st (SRef l) "properties" = Ok (SRef P) ->
  prop_step (fun st0 x0 => getResolvedSchema fuel st0 (SRef sw) x0)
            (SRef sw) (SRef l) st k = Some (Ok st') ->
  well_formed sw D st' /\ Q st'
  /\ sget st' (SRef l) "type" = Ok (SStr "object")
  /\ sget st' (SRef l) "properties" = Ok (SRef P)
  /\ properties_state st' P [k].
Proof.
  intros HQ Hwf Hq Htype Hprops H. unfold prop_step in H.
  apply cbind_Ok in H as (st1 & Hassign & H). apply lift_Ok in Hassign.
  pose proof (wf_properties _ _ _ Hwf _ _ Htype Hprops) as HP.
  assert (Htext : not_local_reference st (SStr "object")).
  { apply not_local_primitive. discriminate. }
  assert (Hmid : well_formed sw D st1 /\ Q st1
                 /\ (sget st1 (SRef l) "type" = Ok (SStr "object")
                     /\ not_local_reference st1 (SStr "object"))
                 /\ (sget st1 (SRef l) "properties" = Ok (SRef P)
                     /\ not_local_reference st1 (SRef P))
                 /\ exists c, sget st1 (SRef P) k = Ok c
                              /\ not_local_reference st1 c).
  { destruct (prop_assignment_cases _ _ _ _ _ Hprops Hassign)
      as [(-> & c & Hc & Hn) | (v & Hw & ->)].
    - split; [exact Hwf|]. split; [exact Hq|]. split; [auto|].
      split; [auto|]. exists c. auto.
    - destruct (write_target _ _ _ _ Hwf Hw)
        as (q & pointer & Hslot & _ & _ & _ & Hv).
      split; [apply well_formed_kept; assumption|].
      split; [exact (HQ st P k v Hwf Hq Hw)|].
      split; [exact (stable_slot _ _ _ st P k v Hwf (conj Htype Htext) Hw)|].
      split; [exact (stable_slot _ _ _ st P k v Hwf (conj Hprops HP) Hw)|].
      exists v. split.
      + exact (sget_sset_written _ _ _ _ _ Hslot).
      + apply not_local_kept; assumption. }
  destruct Hmid as (Hwf1 & Hq1 & Ht1 & Hp1 & c & Hc1 & Hn1).
  rewrite (proj1 Hp1), cbind_lift in H. cbv beta in H.
  rewrite Hc1, cbind_lift in H. cbv beta in H.
  pose proof (nested_calls _ _ _ Hwf1 H) as Hres.
  destruct (call_keeps
              (fun s => Q s
                        /\ (sget s (SRef l) "type" = Ok (SStr "object")
                            /\ not_local_reference s (SStr "object"))
                        /\ (sget s (SRef l) "properties" = Ok (SRef P)
                            /\ not_local_reference s (SRef P))
                        /\ (sget s (SRef P) k = Ok c
                            /\ not_local_reference s c))
              fuel st1 c st')
    as (Hwf' & Hq' & [Ht' _] & [Hp' _] & [Hc' Hn']); auto.
  { apply stable_and; [exact HQ|]. apply stable_and; [apply stable_slot|].
    apply stable_and; apply stable_slot. }
  split; [exact Hwf'|]. split; [exact Hq'|]. split; [exact Ht'|].
  split; [exact Hp'|].
  intros k' [<- | []]. exists c. auto.
Qed.

(** The assignment of the items loop: none, and if the key is [$ref] the
    items carry no local reference, or the one that replaces them. *)
Lemma item_assignment_cases (l : loc) (st st1 : store) (key : string)
    (z : sval) :
  sget st (SRef l) "items" = Ok z ->
  (if String.eqb key "$ref" then
     items <~ lift (sget st (SRef l) "items") ;;
     r <~ lift (sget st items key) ;;
     match sto_string fuel st r with
     | None => None
     | Some text =>
         if negb (test_http text) then
           match r with
           | SStr pointer =>
               lift (target <- definition_of (SRef sw) st pointer ;;
                     sassign st (SRef l) "items" target)
           | _ => lift (Throw TypeError)
           end
         else ret st
     end
   else ret st) = Some (Ok st1) ->
  (st1 = st /\ (key = "$ref" -> not_local_reference st z))
  \/ (key = "$ref"
      /\ exists v,
           replaces_local_reference (SRef sw) st l "items" v
           /\ st1 = sset st l "items" v).
Proof.
  intros Hitems H.
  destruct (String.eqb_spec key "$ref") as [->|Hne];
    [|inversion H; subst; left; split; [reflexivity | congruence]].
  rewrite Hitems, cbind_lift in H. cbv beta in H.
  apply cbind_Ok in H as (r & Hr & H). apply lift_Ok in Hr.
  destruct (sto_string fuel st r) as [text|] eqn:Htext; [|discriminate H].
  destruct (test_http text) eqn:Hhttp; cbn [negb] in H; cbv iota in H.
  - inversion H; subst. left. split; [reflexivity|].
    intros _ p Hp. rewrite Hr in Hp. inversion Hp; subst r.
    rewrite sto_string_of_string in Htext. inversion Htext; subst.
    exact Hhttp.
  - destruct r as [| | | |pointer|]; try discriminate H.
    rewrite sto_string_of_string in Htext. inversion Htext; subst text.
    apply lift_Ok in H. apply bind_Ok in H as (target & Htarget & H).
    destruct (sget_pointer_base _ _ _ Hr) as [q ->].
    cbn [sassign] in H. inversion H; subst st1.
    right. split; [reflexivity|]. exists target. split; [|reflexivity].
    exists q, pointer. auto.
Qed.

(** One iteration of the items loop. *)
Lemma item_step_resolves (l : loc) (st st' : store) (key : string)
    (rest : list string) :
  well_formed sw D st ->
  sget st (SRef l) "type" = Ok (SStr "array") ->
  items_state st (SRef l) (key :: rest) ->
  item_step (fun st0 x0 => getResolvedSchema fuel st0 (SRef sw) x0)
            fuel (SRef sw) (SRef l) st key = Some (Ok st') ->
  well_formed sw D st'
  /\ sget st' (SRef l) "type" = Ok (SStr "array")
  /\ items_state st' (SRef l) rest.
Proof.
  intros Hwf Htype (z & Hitems & Hstate) H. unfold item_step in H.
  apply cbind_Ok in H as (st1 & Hassign & H).
  assert (Htext : not_local_reference st (SStr "array")).
  { apply not_local_primitive. discriminate. }
  assert (Hmid : well_formed sw D st1
                 /\ (sget st1 (SRef l) "type" = Ok (SStr "array")
                     /\ not_local_reference st1 (SStr "array"))
                 /\ exists z1,
                      sget st1 (SRef l) "items" = Ok z1
                      /\ (not_local_reference st1 z1
                          \/ ((exists pointer,
                                 sget st1 z1 "$ref" = Ok (SStr pointer)
                                 /\ test_http pointer = false)
                              /\ In "$ref" rest))).
  { destruct (item_assignment_cases _ _ _ _ _ Hitems Hassign)
      as [(-> & Hn) | (-> & v & Hw & ->)].
    - split; [exact Hwf|]. split; [auto|]. exists z. split; [exact Hitems|].
      destruct Hstate as [[Hz _] | [Hlocal [Hkey | Hin]]].
      + left. exact Hz.
      + left. apply Hn. exact Hkey.
      + right. auto.
    - destruct (write_target _ _ _ _ Hwf Hw)
        as (q & pointer & Hslot & _ & _ & _ & Hv).
      split; [apply well_formed_kept; assumption|].
      split; [exact (stable_slot _ _ _ st l "items" v Hwf
                       (conj Htype Htext) Hw)|].
      exists v. split.
      + exact (sget_sset_written _ _ _ _ _ Hslot).
      + left. apply not_local_kept; assumption. }
  destruct Hmid as (Hwf1 & Ht1 & z1 & Hz1 & Hcase).
  rewrite Hz1, cbind_lift in H. cbv beta in H.
  pose proof (nested_calls _ _ _ Hwf1 H) as Hres.
  destruct Hcase as [Hn1 | [_ Hin]].
  - destruct (call_keeps
                (fun s => (sget s (SRef l) "type" = Ok (SStr "array")
                           /\ not_local_reference s (SStr "array"))
                          /\ (sget s (SRef l) "items" = Ok z1
                              /\ not_local_reference s z1))
                fuel st1 z1 st')
      as (Hwf' & [Ht' _] & [Hz' Hn']); auto.
    { apply stable_and; apply stable_slot. }
    split; [exact Hwf'|]. split; [exact Ht'|].
    exists z1. split; [exact Hz'|]. left. auto.
  - destruct (call_keeps
                (fun s => sget s (SRef l) "type" = Ok (SStr "array")
                          /\ not_local_reference s (SStr "array"))
                fuel st1 z1 st')
      as (Hwf' & [Ht' _]); auto.
    { apply stable_slot. }
    split; [exact Hwf'|]. split; [exact Ht'|].
    destruct (sget st' (SRef l) "items") as [z2|e] eqn:Hz2.
    2:{ unfold sget in Hz2.
        destruct (is_array (st' l) && String.eqb "items" "length");
          discriminate Hz2. }
    exists z2. split; [exact Hz2|].
    destruct (local_or_not st' z2) as [Hn2 | Hl2].
    + left. split; [exact Hn2|]. right. intros ->. destruct Hin.
    + right. auto.
Qed.

End Step.

(** When a call returns, no node below the schema it was called on carries
    a local reference. *)
Lemma resolved_after_call (fuel : nat) :
  forall st x st',
    well_formed sw D st ->
    getResolvedSchema fuel st (SRef sw) x = Some (Ok st') ->
    resolved_below st' x.
Proof.
  induction fuel as [|fuel IH]; intros st x st' Hwf Hrun;
    [discriminate Hrun|].
  pose proof Hrun as Hcall.
  rewrite getResolvedSchema_unfold in Hrun.
  apply cbind_Ok in Hrun as (type & Htype & Hrun). apply lift_Ok in Htype.
  destruct (s_strict_eq_str type "object") eqn:Hobject.
  - (* a node typed "object" *)
    destruct type as [| | | |text|]; try discriminate Hobject.
    apply String.eqb_eq in Hobject. subst text.
    destruct (sget_type_base _ _ _ Htype) as [l ->].
    assert (Htext : not_local_reference st (SStr "object")).
    { apply not_local_primitive. discriminate. }
    apply cbind_Ok in Hrun as (props & Hprops & Hrun). apply lift_Ok in Hprops.
    destruct props as [| | | | |P].
    1:{ inversion Hrun; subst st'. apply resolved_from_children.
        intros c [P k _ Hp _ _ | Ht _]; congruence. }
    5:{ (* the properties map is an object *)
        assert (Hloop :
                  well_formed sw D st'
                  /\ sget st' (SRef l) "type" = Ok (SStr "object")
                  /\ sget st' (SRef l) "properties" = Ok (SRef P)
                  /\ forin_keys st' (SRef P) = forin_keys st (SRef P)
                  /\ properties_state st' P ([] ++ forin_keys st (SRef P))).
        { revert Hrun. cbn [negb s_is_undefined].
          apply (loop_prefix_invariant
                   (fun done s =>
                      well_formed sw D s
                      /\ sget s (SRef l) "type" = Ok (SStr "object")
                      /\ sget s (SRef l) "properties" = Ok (SRef P)
                      /\ forin_keys s (SRef P) = forin_keys st (SRef P)
                      /\ properties_state s P done)).
          - intros done k s s' (Hwf0 & Ht0 & Hp0 & Hk0 & Hd0) Hstep.
            destruct (prop_step_resolves fuel IH
                        (fun s1 => forin_keys s1 (SRef P)
                                   = forin_keys st (SRef P)
                                   /\ properties_state s1 P done)
                        l P s s' k)
              as (Hwf1 & [Hk1 Hd1] & Ht1 & Hp1 & Hnew); auto.
            { apply stable_and;
                [apply stable_keys | apply stable_properties_state]. }
            split; [exact Hwf1|]. split; [exact Ht1|]. split; [exact Hp1|].
            split; [exact Hk1|].
            intros k' Hin. apply in_app_or in Hin as [Hin | Hin]; auto.
          - split; [exact Hwf|]. split; [exact Htype|].
            split; [exact Hprops|]. split; [reflexivity|]. intros k []. }
        destruct Hloop as (Hwf' & Ht' & Hp' & Hk' & Hdone).
        apply resolved_from_children.
        intros c [P' k Ht Hp Hk Hc | Ht _]; [|congruence].
        rewrite Hp' in Hp. inversion Hp; subst P'.
        rewrite Hk' in Hk. destruct (Hdone k Hk) as (c' & Hc' & Hn & Hres).
        rewrite Hc' in Hc. inversion Hc; subst c'. auto. }
    (* the properties map is a primitive: nothing below *)
    all: apply (primitive_properties_resolved (S fuel) st l st' _
                  Hwf Htype Hprops); [intro; discriminate | exact Hcall].
  - destruct (s_strict_eq_str type "array") eqn:Harray.
    + (* a node typed "array" *)
      destruct type as [| | | |text|]; try discriminate Harray.
      apply String.eqb_eq in Harray. subst text.
      destruct (sget_type_base _ _ _ Htype) as [l ->].
      apply cbind_Ok in Hrun as (items & Hitems & Hrun).
      apply lift_Ok in Hitems.
      assert (Hloop : sget st' (SRef l) "type" = Ok (SStr "array")
                      /\ items_state st' (SRef l) []).
      { destruct (s_is_undefined items) eqn:Hundef; cbn [negb] in Hrun.
        - destruct items; try discriminate Hundef.
          inversion Hrun; subst st'. split; [exact Htype|].
          exists SUndef. split; [exact Hitems|]. left. split.
          + apply not_local_primitive. discriminate.
          + left. apply resolved_without_type. intros text H.
            discriminate H.
        - assert (Hstart : items_state st (SRef l) (forin_keys st items)).
          { exists items. split; [exact Hitems|].
            destruct (local_or_not st items) as [Hn | (pointer & Hptr & Hl)].
            - left. split; [exact Hn|].
              destruct (forin_keys st items) eqn:Hkeys;
                [|right; discriminate].
              left. apply resolved_without_type. intro text.
              apply no_keys_no_string. exact Hkeys.
            - right. split; [eauto|].
              destruct (sget_pointer_base _ _ _ Hptr) as [q ->].
              apply assoc_defined_key. unfold sget in Hptr.
              destruct (is_array (st q) && String.eqb "$ref" "length");
                [discriminate Hptr|].
              inversion Hptr as [Heq]. rewrite Heq. discriminate. }
          assert (Hend : well_formed sw D st'
                         /\ sget st' (SRef l) "type" = Ok (SStr "array")
                         /\ items_state st' (SRef l) []).
          { revert Hrun.
            apply (loop_suffix_invariant
                     (fun rest s =>
                        well_formed sw D s
                        /\ sget s (SRef l) "type" = Ok (SStr "array")
                        /\ items_state s (SRef l) rest)).
            - intros key rest s s' (Hwf0 & Ht0 & Hs0) Hstep.
              exact (item_step_resolves fuel IH l s s' key rest
                       Hwf0 Ht0 Hs0 Hstep).
            - auto. }
          destruct Hend as (_ & Ht' & Hs'). auto. }
      destruct Hloop as (Ht' & z & Hz & Hstate).
      destruct Hstate as [[Hn [Hres | Hne]] | [_ []]]; [|congruence].
      apply resolved_from_children.
      intros c [P k Ht _ _ _ | _ Hi]; [congruence|].
      rewrite Hz in Hi. inversion Hi; subst c. auto.
    + (* any other node *)
      inversion Hrun; subst st'. apply resolved_from_children.
      intros c [P k Ht _ _ _ | Ht _]; rewrite Htype in Ht;
        inversion Ht; subst type; discriminate.
Qed.

End TypedSubtree.

(** A slot that holds a local reference to a definition holds that
    reference or the definition, whatever is assigned. *)
Lemma stable_pending_slot (sw D P : loc) (k : string) (r : loc)
    (pointer : string) (target : sval) :
  stable sw D
    (fun st =>
       sget st (SRef r) "$ref" = Ok (SStr pointer)
       /\ (sget st (SRef D) (last_segment pointer) = Ok target
           /\ not_local_reference st target)
       /\ (sget st (SRef P) k = Ok (SRef r)
           \/ sget st (SRef P) k = Ok target)).
Proof.
  intros st X key v Hwf (Hptr & [Ht Hn] & Hs) Hw.
  split; [|split].
  - apply (slot_kept sw D _ _ _ _ _ _ _ Hwf Hw Hptr).
    apply not_local_primitive. discriminate.
  - exact (stable_slot sw D _ _ _ st X key v Hwf (conj Ht Hn) Hw).
  - destruct Hs as [Hs | Hs];
      [|right; exact (slot_kept sw D _ _ _ _ _ _ _ Hwf Hw Hs Hn)].
    destruct Hw as (q & ptr & Hq & Hqp & Hl & Hdef).
    destruct (write_cases st X key v q (SRef P) k Hq)
      as [Hsame | (_ & _ & Hold & Hnew)].
    + left. rewrite Hsame. exact Hs.
    + right. rewrite Hnew. rewrite Hs in Hold. inversion Hold; subst q.
      rewrite Hptr in Hqp. inversion Hqp; subst ptr.
      unfold definition_of in Hdef.
      rewrite (wf_definitions _ _ _ Hwf), bind_ret, Ht in Hdef.
      inversion Hdef. reflexivity.
Qed.

(** C5, amended.  Take a document whose [definitions] is an object none of
    whose entries is a string or carries a local [$ref], and in which no
    node typed "object" has a local reference as its properties map; let
    the definitions hold a node under "Pet", and let an object-typed
    schema have a property that carries the [$ref] "#/definitions/Pet".
    Whenever [getResolvedSchema] returns:
    - that property is the node [definitions.Pet] itself: the slot and the
      definitions entry hold the same location, so the two are identical,
      by aliasing and not by copy;
    - no node that is reached from the property through the properties of
      nodes typed "object" and the items of nodes typed "array", the
      property included, carries a local [$ref].
    Nothing is said of a [$ref] that is not reached this way, as one under
    [allOf]. *)
Theorem getResolvedSchema_property_is_definition (sw D pet s P r : loc)
    (k : string) (fuel : nat) (st st' : store) :
  well_formed sw D st ->
  sget st (SRef D) "Pet" = Ok (SRef pet) ->
  sget st (SRef s) "type" = Ok (SStr "object") ->
  sget st (SRef s) "properties" = Ok (SRef P) ->
  sget st (SRef P) k = Ok (SRef r) ->
  sget st (SRef r) "$ref" = Ok (SStr "#/definitions/Pet") ->
  getResolvedSchema fuel st (SRef sw) (SRef s) = Some (Ok st') ->
  sget st' (SRef s) "properties" = Ok (SRef P)
  /\ sget st' (SRef P) k = Ok (SRef pet)
  /\ sget st' (SRef sw) "definitions" = Ok (SRef D)
  /\ sget st' (SRef D) "Pet" = Ok (SRef pet)
  /\ (forall depth,
        snapshot depth st' (SRef pet) =
        match sget st' (SRef P) k with
        | Ok property => snapshot depth st' property
        | Throw _ => VUndef
        end)
  /\ (forall node,
        typed_reach st' (SRef pet) node -> not_local_reference st' node).
Proof.
  intros Hwf Hpet Htype Hprops Hslot Hptr Hrun.
  pose proof (resolved_after_call sw D fuel st (SRef s) st' Hwf Hrun) as Hres.
  assert (Hkey : In k (forin_keys st (SRef P))).
  { apply assoc_defined_key. unfold sget in Hslot.
    destruct (is_array (st P) && String.eqb k "length"); [discriminate Hslot|].
    inversion Hslot as [Heq]. rewrite Heq. discriminate. }
  destruct (call_keeps sw D
              (fun s1 =>
                 (sget s1 (SRef s) "type" = Ok (SStr "object")
                  /\ not_local_reference s1 (SStr "object"))
                 /\ (sget s1 (SRef s) "properties" = Ok (SRef P)
                     /\ not_local_reference s1 (SRef P))
                 /\ forin_keys s1 (SRef P) = forin_keys st (SRef P)
                 /\ (sget s1 (SRef r) "$ref" = Ok (SStr "#/definitions/Pet")
                     /\ (sget s1 (SRef D) (last_segment "#/definitions/Pet")
                         = Ok (SRef pet)
                         /\ not_local_reference s1 (SRef pet))
                     /\ (sget s1 (SRef P) k = Ok (SRef r)
                         \/ sget s1 (SRef P) k = Ok (SRef pet))))
              fuel st (SRef s) st')
    as (Hwf' & [Ht' _] & [Hp' _] & Hk' & Hptr' & [Hpet' _] & Hslot').
  { apply stable_and; [apply stable_slot|].
    apply stable_and; [apply stable_slot|].
    apply stable_and; [apply stable_keys|].
    apply stable_pending_slot. }
  { exact Hwf. }
  { split; [split; [exact Htype | apply not_local_primitive; discriminate]|].
    split; [split; [exact Hprops
                   | exact (wf_properties _ _ _ Hwf _ _ Htype Hprops)]|].
    split; [reflexivity|]. split; [exact Hptr|].
    split; [|left; exact Hslot].
    split; [exact Hpet | exact (proj2 (wf_entries _ _ _ Hwf _ _ Hpet))]. }
  { exact Hrun. }
  change (last_segment "#/definitions/Pet") with "Pet" in Hpet'.
  rewrite <- Hk' in Hkey.
  assert (Hdone : sget st' (SRef P) k = Ok (SRef pet)).
  { destruct Hslot' as [Hpending | Hdone]; [|exact Hdone].
    pose proof (Hres (SRef s) (SRef r) (reach_here st' (SRef s))
                  (child_property st' (SRef s) (SRef r) P k
                     Ht' Hp' Hkey Hpending) _ Hptr') as Hhttp.
    discriminate Hhttp. }
  split; [exact Hp'|]. split; [exact Hdone|].
  split; [exact (wf_definitions _ _ _ Hwf')|]. split; [exact Hpet'|].
  split; [intro depth; rewrite Hdone; reflexivity|].
  assert (Hchild : typed_child st' (SRef s) (SRef pet)).
  { exact (child_property st' (SRef s) (SRef pet) P k Ht' Hp' Hkey Hdone). }
  intros node Hreach. destruct Hreach as [|u c Hu Hc].
  - exact (Hres (SRef s) (SRef pet) (reach_here st' (SRef s)) Hchild).
  - apply (Hres u c); [|exact Hc].
    apply (typed_reach_trans st' (SRef s) (SRef pet) u); [|exact Hu].
    exact (reach_child st' (SRef s) (SRef s) (SRef pet)
             (reach_here st' (SRef s)) Hchild).
Qed.

(** In [kennel_document] the property [pet] ends up being the node
    [definitions.Pet], whose property [owner] is the node
    [definitions.Owner] and whose property [tags] has the node
    [definitions.Tag] as its items: nothing reached from [pet] carries a
    local reference. *)
Lemma getResolvedSchema_property_is_definition_witness :
  getResolvedSchema 4 kennel_store kennel_root (SRef 13)
  = Some (Ok kennel_resolved)
  /\ sget kennel_resolved (SRef 12) "pet" = Ok (SRef 5)
  /\ sget kennel_resolved (SRef 10) "Pet" = Ok (SRef 5)
  /\ sget kennel_resolved (SRef 4) "owner" = Ok (SRef 8)
  /\ sget kennel_resolved (SRef 3) "items" = Ok (SRef 9)
  /\ (forall node,
        typed_reach kennel_resolved (SRef 5) node ->
        not_local_reference kennel_resolved node).
Proof.
  assert (Hrun : getResolvedSchema 4 kennel_store (SRef 14) (SRef 13)
                 = Some (Ok kennel_resolved)).
  { vm_compute. reflexivity. }
  split; [exact Hrun|].
  assert (Hwf : well_formed 14 10 kennel_store).
  { constructor.
    - reflexivity.
    - intros key v H.
      assert (Hdefs : kennel_store 10
                      = mkObject false [("Pet", SRef 5); ("Owner", SRef 8);
                                        ("Tag", SRef 9)]).
      { reflexivity. }
      unfold sget in H. rewrite Hdefs in H. cbn [is_array andb fields assoc] in H.
      destruct (String.eqb "Pet" key);
        [inversion H; subst v; split;
         [discriminate | intros p Hp; vm_compute in Hp; discriminate Hp]|].
      destruct (String.eqb "Owner" key);
        [inversion H; subst v; split;
         [discriminate | intros p Hp; vm_compute in Hp; discriminate Hp]|].
      destruct (String.eqb "Tag" key);
        [inversion H; subst v; split;
         [discriminate | intros p Hp; vm_compute in Hp; discriminate Hp]|].
      inversion H; subst v. split; [discriminate|].
      apply not_local_primitive. discriminate.
    - intros l P Ht Hp.
      do 15 (destruct l as [|l];
             [vm_compute in Ht; try discriminate Ht;
              vm_compute in Hp; inversion Hp; subst P;
              intros p H; vm_compute in H; discriminate H|]).
      vm_compute in Ht. discriminate Ht. }
  destruct (getResolvedSchema_property_is_definition 14 10 5 13 12 11 "pet" 4
              kennel_store kennel_resolved)
    as (_ & Hslot & _ & Hentry & _ & Hbelow).
  - exact Hwf.
  - reflexivity.
  - reflexivity.
  - reflexivity.
  - reflexivity.
  - reflexivity.
  - exact Hrun.
  - split; [exact Hslot|]. split; [exact Hentry|].
    split; [vm_compute; reflexivity|]. split; [vm_compute; reflexivity|].
    exact Hbelow.
Defined.

(** ** Fuel

    The fuel only bounds the depth of the nested calls: a call that returns
    or throws with some fuel does the same with more. *)

Lemma join_with_cons (rec : sval -> option string) (k : string) (x : sval)
    (rest : list (string * sval)) :
  join_with rec ((k, x) :: rest) =
  match (match x with
         | SUndef | SNull => Some ""
         | _ => rec x
         end) with
  | None => None
  | Some e =>
      match rest with
      | [] => Some e
      | _ :: _ =>
          match join_with rec rest with
          | Some r => Some (e ++ "," ++ r)
          | None => None
          end
      end
  end.
Proof.
  reflexivity.
Qed.

Lemma join_with_mono (rec1 rec2 : sval -> option string)
    (l : list (string * sval)) :
  (forall x t, rec1 x = Some t -> rec2 x = Some t) ->
  forall t, join_with rec1 l = Some t -> join_with rec2 l = Some t.
Proof.
  intro Hrec. induction l as [|[k0 x] l IH]; intros t H; [exact H|].
  rewrite join_with_cons in H |- *.
  assert (He : forall e,
             match x with SUndef | SNull => Some "" | _ => rec1 x end = Some e ->
             match x with SUndef | SNull => Some "" | _ => rec2 x end = Some e).
  { destruct x; auto. }
  destruct (match x with SUndef | SNull => Some "" | _ => rec1 x end)
    as [e|]; [|discriminate H].
  rewrite (He e eq_refl).
  destruct l as [|p l']; [exact H|].
  destruct (join_with rec1 (p :: l')) as [r0|]; [|discriminate H].
  rewrite (IH r0 eq_refl). exact H.
Qed.

Lemma sto_string_mono (n : nat) :
  forall (m : nat) (st : store) (v : sval) (t : string),
    (n <= m)%nat -> sto_string n st v = Some t -> sto_string m st v = Some t.
Proof.
  induction n as [|n IH]; intros m st v t Hle H.
  - destruct v; try (destruct m; exact H).
    simpl in H. destruct m; simpl; destruct (is_array (st l));
      try discriminate H; exact H.
  - destruct m as [|m]; [lia|].
    destruct v; try exact H.
    simpl in H |- *. destruct (is_array (st l)); [|exact H].
    revert H. apply join_with_mono. intros x t0. apply IH. lia.
Qed.

Lemma cbind_Some {A B : Type} (c : comp A) (k : A -> comp B) (r : result B) :
  cbind c k = Some r ->
  (exists a, c = Some (Ok a) /\ k a = Some r)
  \/ (exists e, c = Some (Throw e) /\ r = Throw e).
Proof.
  destruct c as [[a|e]|]; simpl; intro H; [eauto | | discriminate].
  inversion H. eauto.
Qed.

Lemma loop_mono {S X : Type} (body1 body2 : S -> X -> comp S) (xs : list X) :
  (forall s x r, body1 s x = Some r -> body2 s x = Some r) ->
  forall s r, loop body1 xs s = Some r -> loop body2 xs s = Some r.
Proof.
  intro Hbody. induction xs as [|x xs IH]; intros s r H; [exact H|].
  simpl in H |- *.
  apply cbind_Some in H as [(s1 & H1 & H2) | (e & H1 & ->)].
  - rewrite (Hbody _ _ _ H1). simpl. auto.
  - rewrite (Hbody _ _ _ H1). reflexivity.
Qed.

Section MoreFuel.

Variables self1 self2 : store -> sval -> comp store.
Hypothesis self_mono :
  forall st x r, self1 st x = Some r -> self2 st x = Some r.

Lemma prop_step_mono (swagger schema : sval) (st : store) (propKey : string)
    (r : result store) :
  prop_step self1 swagger schema st propKey = Some r ->
  prop_step self2 swagger schema st propKey = Some r.
Proof.
  unfold prop_step. intro H.
  apply cbind_Some in H as [(st1 & H1 & H) | (e & H1 & ->)];
    rewrite H1; cbn [cbind]; [|reflexivity].
  apply cbind_Some in H as [(properties & H2 & H) | (e & H2 & ->)];
    rewrite H2; cbn [cbind]; [|reflexivity].
  apply cbind_Some in H as [(prop & H3 & H) | (e & H3 & ->)];
    rewrite H3; cbn [cbind]; [|reflexivity].
  apply self_mono. exact H.
Qed.

Lemma item_step_mono (n m : nat) (swagger schema : sval) (st : store)
    (itemKey : string) (r : result store) :
  (n <= m)%nat ->
  item_step self1 n swagger schema st itemKey = Some r ->
  item_step self2 m swagger schema st itemKey = Some r.
Proof.
  intro Hle. unfold item_step.
  assert (Hfirst : forall c,
    (if String.eqb itemKey "$ref"
     then items <~ lift (sget st schema "items") ;;
          r0 <~ lift (sget st items itemKey) ;;
          match sto_string n st r0 with
          | None => None
          | Some text =>
              if negb (test_http text)
              then match r0 with
                   | SStr pointer =>
                       lift (target <- definition_of swagger st pointer ;;
                             sassign st schema "items" target)
                   | _ => lift (Throw TypeError)
                   end
              else ret st
          end
     else ret st) = Some c ->
    (if String.eqb itemKey "$ref"
     then items <~ lift (sget st schema "items") ;;
          r0 <~ lift (sget st items itemKey) ;;
          match sto_string m st r0 with
          | None => None
          | Some text =>
              if negb (test_http text)
              then match r0 with
                   | SStr pointer =>
                       lift (target <- definition_of swagger st pointer ;;
                             sassign st schema "items" target)
                   | _ => lift (Throw TypeError)
                   end
              else ret st
          end
     else ret st) = Some c).
  { intros c H. destruct (String.eqb itemKey "$ref"); [|exact H].
    apply cbind_Some in H as [(items & H1 & H) | (e & H1 & ->)];
      rewrite H1; cbn [cbind]; [|reflexivity].
    apply cbind_Some in H as [(r0 & H2 & H) | (e & H2 & ->)];
      rewrite H2; cbn [cbind]; [|reflexivity].
    destruct (sto_string n st r0) as [text|] eqn:Htext; [|discriminate H].
    rewrite (sto_string_mono n m st r0 text Hle Htext). exact H. }
  intro H. apply cbind_Some in H as [(st1 & H1 & H) | (e & H1 & ->)];
    rewrite (Hfirst _ H1); cbn [cbind]; [|reflexivity].
  apply cbind_Some in H as [(items & H2 & H) | (e & H2 & ->)];
    rewrite H2; cbn [cbind]; [|reflexivity].
  apply self_mono. exact H.
Qed.

End MoreFuel.

Lemma getResolvedSchema_more_fuel (n : nat) :
  forall (m : nat) (st : store) (swagger schema : sval) (r : result store),
    (n <= m)%nat ->
    getResolvedSchema n st swagger schema = Some r ->
    getResolvedSchema m st swagger schema = Some r.
Proof.
  induction n as [|n IH]; intros m st swagger schema r Hle H;
    [discriminate H|].
  destruct m as [|m]; [lia|].
  rewrite getResolvedSchema_unfold in H |- *.
  apply cbind_Some in H as [(type & H1 & H) | (e & H1 & ->)];
    rewrite H1; cbn [cbind]; [|reflexivity].
  destruct (s_strict_eq_str type "object").
  - apply cbind_Some in H as [(properties & H2 & H) | (e & H2 & ->)];
      rewrite H2; cbn [cbind]; [|reflexivity].
    destruct (negb (s_is_undefined properties)); [|exact H].
    revert H. apply loop_mono. intros s0 x r0.
    apply prop_step_mono. intros st0 x0 r1. apply IH. lia.
  - destruct (s_strict_eq_str type "array"); [|exact H].
    apply cbind_Some in H as [(items & H2 & H) | (e & H2 & ->)];
      rewrite H2; cbn [cbind]; [|reflexivity].
    destruct (negb (s_is_undefined items)); [|exact H].
    revert H. apply loop_mono. intros s0 x r0.
    apply item_step_mono; [|lia]. intros st0 x0 r1. apply IH. lia.
Qed.

(** ** The steps of the batch that can raise

    Inside the [try], nothing else raises: once the base URL is read the
    document is an object, the loops run over keys that exist, and the
    description is read from an operation that [createHar] has already
    read. *)

Lemma for_each_throw_source {S X : Type} (body : S -> X -> result S)
    (xs : list X) :
  forall s e,
    for_each body xs s = Throw e ->
    exists x s0, In x xs /\ body s0 x = Throw e.
Proof.
  induction xs as [|x xs IH]; intros s e H; simpl in H; [discriminate H|].
  destruct (body s x) as [s1|e1] eqn:Hx; simpl in H.
  - destruct (IH _ _ H) as (y & s0 & Hin & Hy). exists y, s0.
    split; [right; exact Hin | exact Hy].
  - inversion H; subst. exists x, s.
    split; [left; reflexivity | exact Hx].
Qed.

Lemma get_own_key (v : value) (k : string) :
  In k (own_keys v) -> exists x, get v k = Ok x.
Proof.
  destruct v; simpl; try (intros []); intros _; eauto.
  - destruct (String.eqb k "length"); eauto.
    destruct (index_of_key k); eauto.
  - destruct (String.eqb k "length"); eauto.
    destruct (index_of_key k); eauto.
Qed.

Lemma get_after_get (v : value) (k k' : string) (x : value) :
  get v k = Ok x -> exists y, get v k' = Ok y.
Proof.
  destruct v; simpl; try discriminate; intros _; eauto.
  - destruct (String.eqb k' "length"); eauto.
    destruct (index_of_key k'); eauto.
  - destruct (String.eqb k' "length"); eauto.
    destruct (index_of_key k'); eauto.
Qed.

Lemma swaggerToHarList_try_raises (instantiate : value -> result value)
    (JSON_stringify : value -> value) (ambient_values swagger : value)
    (e : error) :
  swaggerToHarList_try instantiate JSON_stringify ambient_values swagger
  = Throw e ->
  batch_step_raises instantiate JSON_stringify ambient_values swagger.
Proof.
  unfold swaggerToHarList_try. intro H.
  destruct (getBaseUrl swagger) as [baseUrl|e0] eqn:Hbase;
    [|eapply raises_in_getBaseUrl; eauto].
  simpl in H.
  assert (Hpaths : exists paths, get swagger "paths" = Ok paths).
  { unfold getBaseUrl in Hbase.
    destruct (get swagger "servers") as [servers|e1] eqn:Hs;
      [|discriminate Hbase].
    eapply get_after_get; eauto. }
  destruct Hpaths as [paths Hpaths]. rewrite Hpaths in H. simpl in H.
  apply for_each_throw_source in H as (path & harList & Hpath & H).
  unfold path_loop_step in H. rewrite Hpaths in H. simpl in H.
  destruct (get_own_key _ _ Hpath) as [item Hitem].
  rewrite Hitem in H. simpl in H.
  apply for_each_throw_source in H as (method & harList' & Hmethod & H).
  unfold method_step in H.
  destruct (createHar instantiate JSON_stringify ambient_values swagger path
              method VUndef VUndef) as [har|e1] eqn:Hhar;
    [|eapply raises_in_createHar; eauto].
  exfalso. simpl in H.
  unfold createHar in Hhar.
  apply bind_Ok in Hhar as (b & _ & Hhar).
  apply bind_Ok in Hhar as (headers & Hheaders & _).
  unfold getHeadersArray in Hheaders.
  apply bind_Ok in Hheaders as (pathObj & Hop & Hheaders).
  apply bind_Ok in Hheaders as (contentType & _ & Hheaders).
  apply bind_Ok in Hheaders as (parameters & Hparams & _).
  rewrite Hop in H. simpl in H.
  destruct (get_after_get _ _ "description" _ Hparams) as [d Hd].
  rewrite Hd in H. simpl in H. discriminate H.
Qed.

(** * Further properties of the conversion *)

(** ** Request assembly *)

(** X1.  An operation with no [parameters] and no [requestBody]: the
    request has exactly the two default headers, both "application/json",
    an empty query string, no path or required-header parameters, and no
    [postData] field. *)
Theorem createHar_bare_operation (instantiate : value -> result value)
    (JSON_stringify : value -> value) (ambient_values swagger : value)
    (path method : string) (queryParamValues apiKey op baseUrl : value) :
  getBaseUrl swagger = Ok baseUrl ->
  operation swagger path method = Ok op ->
  get op "parameters" = Ok VUndef ->
  get op "requestBody" = Ok VUndef ->
  createHar instantiate JSON_stringify ambient_values swagger path method
            queryParamValues apiKey =
  Ok (VObj [("method", VStr (toUpperCase method));
            ("url", VStr (to_string baseUrl ++ path));
            ("headers", VArr (default_headers (VStr "application/json")));
            ("queryString", VArr []);
            ("httpVersion", VStr "HTTP/1.1");
            ("cookies", VArr []);
            ("headersSize", VNum 0);
            ("bodySize", VNum 0);
            ("_swaggerSettings",
             VObj [("originalMethod", json_copy op);
                   ("path", VStr path);
                   ("pathParams", VArr []);
                   ("requiredHeaderParams", VArr [])])]).
Proof.
  intros Hbase Hop Hparams Hbody.
  assert (Hround : JSON_roundtrip op = Ok (json_copy op)).
  { destruct op; try reflexivity. discriminate Hparams. }
  assert (Hheaders : getHeadersArray swagger path method apiKey
                     = Ok (default_headers (VStr "application/json"))).
  { unfold getHeadersArray. rewrite Hop, bind_ret. rewrite Hbody, Hparams.
    destruct (truthy op); reflexivity. }
  assert (Hquery : forall values,
             getQueryStrings swagger path method values = Ok []).
  { intro values. unfold getQueryStrings. rewrite Hop, bind_ret, Hparams.
    reflexivity. }
  assert (Hpath : getPathParams ambient_values swagger path method = Ok []).
  { unfold getPathParams. rewrite Hop, bind_ret, Hparams. reflexivity. }
  assert (Hrequired : getRequiredHeaderParams swagger path method apiKey
                      = Ok []).
  { unfold getRequiredHeaderParams. rewrite Hop, bind_ret, Hparams.
    reflexivity. }
  assert (Hpayload : getPayload instantiate JSON_stringify swagger path method
                     = Ok VNull).
  { unfold getPayload. rewrite Hop, bind_ret, Hbody. reflexivity. }
  unfold createHar.
  rewrite Hbase, bind_ret, Hheaders, bind_ret, Hquery, bind_ret, Hop, bind_ret,
    Hround, bind_ret, Hpath, bind_ret, Hrequired, bind_ret, Hpayload, bind_ret.
  reflexivity.
Qed.

(** The operation [GET /a] of [served] is an empty object. *)
Lemma createHar_bare_operation_witness :
  exists har,
    createHar echo same VUndef served "/a" "get" VUndef VUndef = Ok har
    /\ get har "headers" = Ok (VArr (default_headers (VStr "application/json")))
    /\ get har "queryString" = Ok (VArr [])
    /\ get har "postData" = Ok VUndef.
Proof.
  eexists. split.
  - apply (createHar_bare_operation echo same VUndef served "/a" "get"
             VUndef VUndef (VObj []) (VStr "https://api.example.com/v1"));
      reflexivity.
  - repeat split; reflexivity.
Defined.

(** ** Base URL from the servers list *)

(** X2.  With a non-empty [servers] array the base URL is the [url] of its
    first element, whatever the others are, and the [url] of every request
    is its string form followed by the path key. *)
Theorem first_server_is_base_url (instantiate : value -> result value)
    (JSON_stringify : value -> value) (ambient_values swagger : value)
    (server : value) (others : list value) :
  get swagger "servers" = Ok (VArr (server :: others)) ->
  getBaseUrl swagger = get server "url"
  /\ (forall path method queryParamValues apiKey har,
        createHar instantiate JSON_stringify ambient_values swagger path
                  method queryParamValues apiKey = Ok har ->
        exists baseUrl,
          get server "url" = Ok baseUrl
          /\ get har "url" = Ok (VStr (to_string baseUrl ++ path))).
Proof.
  intro Hservers.
  assert (Hbase : getBaseUrl swagger = get server "url").
  { unfold getBaseUrl. rewrite Hservers, bind_ret.
    change (truthy (VArr (server :: others))) with true. cbv iota.
    change (get (VArr (server :: others)) "length")
      with (@Ok value (VNum (Z.of_nat (S (List.length others))))).
    rewrite bind_ret.
    assert (Hgt : gt_zero (VNum (Z.of_nat (S (List.length others)))) = true).
    { unfold gt_zero, to_number. apply Z.ltb_lt. lia. }
    rewrite Hgt. reflexivity. }
  split; [exact Hbase|].
  intros path method q k har H.
  apply createHar_url in H as (baseUrl & Hb & Hurl & _).
  exists baseUrl. rewrite <- Hbase. auto.
Qed.

(** [served] lists two servers; the first one gives the URL. *)
Lemma first_server_is_base_url_witness :
  getBaseUrl served = Ok (VStr "https://api.example.com/v1")
  /\ exists har,
       createHar echo same VUndef served "/b" "post" VUndef VUndef = Ok har
       /\ get har "url" = Ok (VStr "https://api.example.com/v1/b").
Proof.
  destruct (first_server_is_base_url echo same VUndef served
              (VObj [("url", VStr "https://api.example.com/v1")])
              [VObj [("url", VStr "https://staging.example.com")]]
              eq_refl) as [Hbase Hurl].
  split; [rewrite Hbase; reflexivity|].
  destruct (createHar echo same VUndef served "/b" "post" VUndef VUndef)
    as [har|e] eqn:Hhar; [|vm_compute in Hhar; discriminate Hhar].
  exists har. split; [reflexivity|].
  destruct (Hurl _ _ _ _ _ Hhar) as (baseUrl & Hb & Hu).
  inversion Hb; subst baseUrl. exact Hu.
Defined.

(** ** The batch, entry by entry *)

Section Batch.

Variable instantiate : value -> result value.
Variable JSON_stringify : value -> value.
Variable ambient_values : value.
Variables swagger baseUrl : value.

Local Abbreviation convert :=
  (fun path method =>
     createHar instantiate JSON_stringify ambient_values swagger path method
               VUndef VUndef).

Lemma method_loop_entries (path : string) (methods : list string) :
  forall acc out,
    for_each (method_step instantiate JSON_stringify ambient_values swagger
                          baseUrl path) methods acc = Ok out ->
    exists pushed,
      out = (acc ++ pushed)%list
      /\ Forall2 (batch_entry_of convert baseUrl) pushed
                 (map (fun method => (path, method)) methods).
Proof.
  induction methods as [|method methods IH]; intros acc out H; simpl in H.
  - inversion H. exists []. rewrite app_nil_r. split; [reflexivity|constructor].
  - apply bind_Ok in H as (acc1 & Hstep & H).
    apply IH in H as (pushed & -> & Hrest).
    unfold method_step in Hstep.
    apply bind_Ok in Hstep as (har & Hhar & Hstep).
    apply bind_Ok in Hstep as (op & _ & Hstep).
    apply bind_Ok in Hstep as (description & _ & Hstep).
    inversion Hstep; subst acc1. unfold push. rewrite <- app_assoc.
    eexists. split; [reflexivity|]. simpl. constructor; [|exact Hrest].
    exists har. repeat split; auto.
Qed.

Lemma path_loop_entries (paths : value) (keys : list string) :
  get swagger "paths" = Ok paths ->
  forall acc out,
    for_each (path_loop_step instantiate JSON_stringify ambient_values swagger
                             baseUrl) keys acc = Ok out ->
    exists pushed,
      out = (acc ++ pushed)%list
      /\ Forall2 (batch_entry_of convert baseUrl) pushed
                 (flat_map (fun path =>
                              match get paths path with
                              | Ok item => map (fun method => (path, method))
                                               (own_keys item)
                              | Throw _ => []
                              end) keys).
Proof.
  intro Hpaths. induction keys as [|path keys IH]; intros acc out H;
    simpl in H.
  - inversion H. exists []. rewrite app_nil_r. split; [reflexivity|constructor].
  - apply bind_Ok in H as (acc1 & Hstep & H).
    apply IH in H as (pushed & -> & Hrest).
    unfold path_loop_step in Hstep. rewrite Hpaths, bind_ret in Hstep.
    apply bind_Ok in Hstep as (item & Hitem & Hstep).
    apply method_loop_entries in Hstep as (pushed1 & -> & Hfirst).
    exists (pushed1 ++ pushed)%list. rewrite app_assoc.
    split; [reflexivity|]. simpl. rewrite Hitem.
    apply Forall2_app; assumption.
Qed.

End Batch.

(** X3.  When the batch is not [null] it holds exactly one entry for each
    declared (path, method) pair, in the order in which the document
    declares them: the entry's [method] is the method key in upper case,
    its [url] the base URL followed by the path key, and its [har] the
    request that [createHar] builds for the pair without value map or API
    key. *)
Theorem swaggerToHarList_one_entry_per_operation
    (instantiate : value -> result value) (JSON_stringify : value -> value)
    (ambient_values swagger : value) (entries : list value) :
  swaggerToHarList instantiate JSON_stringify ambient_values swagger
  = VArr entries ->
  exists baseUrl,
    getBaseUrl swagger = Ok baseUrl
    /\ Forall2 (batch_entry_of
                  (fun path method =>
                     createHar instantiate JSON_stringify ambient_values
                               swagger path method VUndef VUndef)
                  baseUrl)
               entries (declared_pairs swagger)
    /\ List.length entries = List.length (declared_pairs swagger).
Proof.
  unfold swaggerToHarList. intro H.
  destruct (swaggerToHarList_try instantiate JSON_stringify ambient_values
              swagger) as [harList|e] eqn:Htry; simpl in H; [|discriminate H].
  inversion H; subst harList. clear H.
  unfold swaggerToHarList_try in Htry.
  apply bind_Ok in Htry as (baseUrl & Hbase & Htry).
  apply bind_Ok in Htry as (paths & Hpaths & Htry).
  apply (path_loop_entries _ _ _ _ _ paths) in Htry as (pushed & -> & Hall);
    [|exact Hpaths].
  exists baseUrl. split; [exact Hbase|].
  unfold declared_pairs. rewrite Hpaths. simpl.
  split; [exact Hall|]. eapply Forall2_length; eauto.
Qed.

(** [served] declares [GET /a], [PUT /a] and [POST /b], in that order. *)
Lemma swaggerToHarList_one_entry_per_operation_witness :
  exists first second third,
    swaggerToHarList echo same VUndef served = VArr [first; second; third]
    /\ get first "method" = Ok (VStr "GET")
    /\ get second "method" = Ok (VStr "PUT")
    /\ get third "url" = Ok (VStr "https://api.example.com/v1/b").
Proof.
  destruct (swaggerToHarList echo same VUndef served)
    as [| | | | |entries|] eqn:Hrun; try (vm_compute in Hrun; discriminate).
  destruct (swaggerToHarList_one_entry_per_operation echo same VUndef served
              entries Hrun) as (baseUrl & Hbase & Hall & _).
  vm_compute in Hbase. inversion Hbase; subst baseUrl.
  change (declared_pairs served)
    with [("/a", "get"); ("/a", "put"); ("/b", "post")] in Hall.
  inversion Hall as [|first ? l1 ? (h1 & _ & Hm1 & _) Hall1]; subst.
  inversion Hall1 as [|second ? l2 ? (h2 & _ & Hm2 & _) Hall2]; subst.
  inversion Hall2 as [|third ? l3 ? (h3 & _ & _ & Hu3 & _) Hall3]; subst.
  inversion Hall3; subst.
  exists first, second, third. repeat split; assumption.
Defined.

(** X4.  The batch is [null] only when a step raised: reading the base
    URL, or [createHar] on a declared pair.  Nothing else makes it
    [null]. *)
Theorem swaggerToHarList_null_only_on_error
    (instantiate : value -> result value) (JSON_stringify : value -> value)
    (ambient_values swagger : value) :
  swaggerToHarList instantiate JSON_stringify ambient_values swagger = VNull ->
  batch_step_raises instantiate JSON_stringify ambient_values swagger.
Proof.
  unfold swaggerToHarList. intro H.
  destruct (swaggerToHarList_try instantiate JSON_stringify ambient_values
              swagger) as [harList|e] eqn:Htry; simpl in H; [discriminate H|].
  eapply swaggerToHarList_try_raises; eauto.
Qed.

(** The batch of [broken_body] is [null], so one of its steps raises. *)
Lemma swaggerToHarList_null_only_on_error_witness :
  batch_step_raises echo same VUndef broken_body.
Proof.
  apply swaggerToHarList_null_only_on_error. vm_compute. reflexivity.
Defined.

(** ** The two header routes side by side *)

Ltac step_cases :=
  repeat (cbn [bind];
          match goal with
          | |- context [bind ?r _] => destruct r
          | |- context [if ?b then _ else _] => destruct b
          end);
  cbn [bind].

(** What a loop body of the header routes pushes does not depend on what
    is already there. *)
Lemma header_step_from_empty (auth : value -> value) (apiKey : value)
    (headers : list value) (param : value) :
  header_step auth apiKey headers param =
  match header_step auth apiKey [] param with
  | Ok pushed => Ok (headers ++ pushed)%list
  | Throw e => Throw e
  end.
Proof.
  unfold header_step, push. step_cases;
    rewrite ?app_nil_r; reflexivity.
Qed.

Lemma header_step_bearer (apiKey param : value) :
  header_step bearer apiKey [] param =
  match header_step (fun key => key) apiKey [] param with
  | Ok pushed => Ok (map (with_bearer apiKey) pushed)
  | Throw e => Throw e
  end.
Proof.
  unfold header_step, push.
  repeat (cbn [bind];
          match goal with
          | |- context [bind ?r _] => destruct r
          | |- context [if ?b then _ else _] => destruct b eqn:?
          end);
    cbn [bind]; try reflexivity;
    unfold with_bearer; simpl;
    match goal with
    | H : strict_eq_str _ _ && truthy _ = _ |- _ => rewrite H
    end; reflexivity.
Qed.

Lemma header_loop_bearer (apiKey : value) (params : list value) :
  forall headers,
    for_each (header_step bearer apiKey) params headers =
    match for_each (header_step (fun key => key) apiKey) params [] with
    | Ok pushed => Ok (headers ++ map (with_bearer apiKey) pushed)%list
    | Throw e => Throw e
    end.
Proof.
  assert (Hplain : forall params acc,
             for_each (header_step (fun key => key) apiKey) params acc =
             match for_each (header_step (fun key => key) apiKey) params []
             with
             | Ok pushed => Ok (acc ++ pushed)%list
             | Throw e => Throw e
             end).
  { clear params. induction params as [|p params IH]; intro acc; simpl.
    - rewrite app_nil_r. reflexivity.
    - rewrite (header_step_from_empty _ _ acc p).
      destruct (header_step (fun key => key) apiKey [] p) as [t|e]; simpl;
        [|reflexivity].
      rewrite (IH (acc ++ t)%list), (IH t).
      destruct (for_each (header_step (fun key => key) apiKey) params [])
        as [u|e]; [|reflexivity].
      rewrite app_assoc. reflexivity. }
  induction params as [|p params IH]; intro headers; simpl.
  - rewrite app_nil_r. reflexivity.
  - rewrite (header_step_from_empty bearer apiKey headers p).
    rewrite header_step_bearer.
    destruct (header_step (fun key => key) apiKey [] p) as [t|e]; simpl;
      [|reflexivity].
    rewrite IH, (Hplain params t).
    destruct (for_each (header_step (fun key => key) apiKey) params [])
      as [u|e]; [|reflexivity].
    rewrite map_app, app_assoc. reflexivity.
Qed.

(** X5.  [getHeadersArray] is [getRequiredHeaderParams] after the two
    default headers: it throws when the other does, and otherwise returns
    the accept and content-type headers followed by the same entries, in
    the same order, where an [Authorization] entry carries "Bearer " and
    the key when an API key is supplied.  Without an API key the entries
    are identical. *)
Theorem getHeadersArray_extends_required_params (swagger : value)
    (path method : string) (apiKey pathObj parameters : value) :
  operation swagger path method = Ok pathObj ->
  get pathObj "parameters" = Ok parameters ->
  exists contentType,
    getHeadersArray swagger path method apiKey =
    (required <- getRequiredHeaderParams swagger path method apiKey ;;
     Ok (default_headers contentType
         ++ map (with_bearer apiKey) required)%list)
    /\ (truthy apiKey = false ->
        getHeadersArray swagger path method apiKey =
        (required <- getRequiredHeaderParams swagger path method apiKey ;;
         Ok (default_headers contentType ++ required)%list)).
Proof.
  intros Hop Hparams.
  destruct (getHeadersArray_content_type swagger path method apiKey pathObj
              parameters Hop Hparams) as [contentType Hheaders].
  exists contentType.
  assert (Hmain : getHeadersArray swagger path method apiKey =
                  (required <- getRequiredHeaderParams swagger path method
                                 apiKey ;;
                   Ok (default_headers contentType
                       ++ map (with_bearer apiKey) required)%list)).
  { rewrite Hheaders. unfold getRequiredHeaderParams.
    rewrite Hop, bind_ret, Hparams, bind_ret.
    destruct (negb (is_undefined parameters)); [|reflexivity].
    rewrite header_loop_bearer.
    destruct (for_each (header_step (fun key => key) apiKey)
                (forin_values parameters) []); reflexivity. }
  split; [exact Hmain|].
  intro Hkey.
  assert (Hsame : forall entries, map (with_bearer apiKey) entries = entries).
  { induction entries as [|entry entries IH]; [reflexivity|].
    simpl. rewrite IH. f_equal. unfold with_bearer.
    destruct (get entry "name"); [|reflexivity].
    destruct (get entry "type"); [|reflexivity].
    rewrite Hkey, andb_false_r. reflexivity. }
  rewrite Hmain.
  destruct (getRequiredHeaderParams swagger path method apiKey) as [required|e];
    [|reflexivity].
  cbn [bind]. rewrite Hsame. reflexivity.
Qed.

(** [GET /pets] of [petstore] with the key "KEY123". *)
Lemma getHeadersArray_extends_required_params_witness :
  exists required,
    getRequiredHeaderParams petstore "/pets" "get" (VStr "KEY123")
    = Ok required
    /\ getHeadersArray petstore "/pets" "get" (VStr "KEY123") =
       Ok (default_headers (VStr "application/json")
           ++ map (with_bearer (VStr "KEY123")) required)%list.
Proof.
  destruct (getHeadersArray_extends_required_params petstore "/pets" "get"
              (VStr "KEY123")
              (VObj [("description", VStr "List pets");
                     ("parameters",
                      VArr [limit_param; tag_param; authorization_param;
                            trace_param; petId_param]);
                     ("requestBody",
                      VObj [("content",
                             VObj [("application/json",
                                    VObj [("schema", pet_body_schema)])])])])
              (VArr [limit_param; tag_param; authorization_param;
                     trace_param; petId_param])
              eq_refl eq_refl) as (contentType & Hmain & _).
  assert (Hct : contentType = VStr "application/json").
  { pose proof Hmain as Hrun. vm_compute in Hrun. congruence. }
  subst contentType.
  eexists. split; [reflexivity|].
  rewrite Hmain. reflexivity.
Defined.

(** ** The first content type *)

Lemma header_step_extends (auth : value -> value) (apiKey : value)
    (headers : list value) (param : value) (headers' : list value) :
  header_step auth apiKey headers param = Ok headers' ->
  exists pushed, headers' = (headers ++ pushed)%list.
Proof.
  rewrite header_step_from_empty.
  destruct (header_step auth apiKey [] param) as [pushed|e];
    intro H; inversion H. eauto.
Qed.

(** X6.  When [requestBody.content] is an object, its first key alone
    decides the body and the headers: [getPayload] instantiates the schema
    stored under that key and reports the key as [mimeType], and the
    accept and content-type headers of [getHeadersArray] carry the same
    key.  The content types declared after it play no part. *)
Theorem first_content_type_decides (instantiate : value -> result value)
    (JSON_stringify : value -> value) (swagger : value)
    (path method : string) (op requestBody media : value)
    (contentType : string) (others : list (string * value)) :
  operation swagger path method = Ok op ->
  get op "requestBody" = Ok requestBody ->
  get requestBody "content" = Ok (VObj ((contentType, media) :: others)) ->
  getPayload instantiate JSON_stringify swagger path method =
    (schema <- get media "schema" ;;
     example <- instantiate schema ;;
     Ok (VObj [("mimeType", VStr contentType);
               ("text", JSON_stringify example)]))
  /\ (forall apiKey headers,
        getHeadersArray swagger path method apiKey = Ok headers ->
        exists declared,
          headers = (default_headers (VStr contentType) ++ declared)%list).
Proof.
  intros Hop Hbody Hcontent.
  assert (Hrb : exists fs, requestBody = VObj fs).
  { destruct requestBody; eauto; vm_compute in Hcontent;
      discriminate Hcontent. }
  destruct Hrb as [rb ->].
  assert (Hobj : exists fs, op = VObj fs).
  { destruct op; eauto; vm_compute in Hbody; discriminate Hbody. }
  destruct Hobj as [opf ->].
  split.
  - unfold getPayload, payload_schema, getFirstContentTypeFromContent.
    rewrite Hop, bind_ret, Hbody, bind_ret. cbn [is_undefined negb].
    rewrite Hcontent, bind_ret. cbn [is_undefined negb Object_keys own_keys map fst bind].
    rewrite Hbody, bind_ret, Hcontent, bind_ret.
    cbn [to_string get lookup]. rewrite String.eqb_refl. rewrite bind_ret.
    reflexivity.
  - intros apiKey headers H. unfold getHeadersArray in H.
    rewrite Hop, bind_ret in H. cbn [truthy] in H.
    rewrite Hbody, bind_ret in H. cbn [truthy] in H.
    rewrite Hcontent, bind_ret in H. cbn [truthy] in H.
    unfold getFirstContentTypeFromContent in H.
    cbn [Object_keys own_keys map fst bind] in H.
    apply bind_Ok in H as (parameters & _ & H).
    destruct (negb (is_undefined parameters)).
    + apply for_each_extends in H; [exact H|].
      intros; eapply header_step_extends; eauto.
    + inversion H. exists []. reflexivity.
Qed.

(** [GET /pets] of [petstore] declares "application/json" only. *)
Lemma first_content_type_decides_witness :
  getPayload echo same petstore "/pets" "get" =
    Ok (VObj [("mimeType", VStr "application/json");
              ("text", pet_body_schema)])
  /\ exists declared,
       getHeadersArray petstore "/pets" "get" VUndef =
       Ok (default_headers (VStr "application/json") ++ declared)%list.
Proof.
  destruct (first_content_type_decides echo same petstore "/pets" "get"
              (VObj [("description", VStr "List pets");
                     ("parameters",
                      VArr [limit_param; tag_param; authorization_param;
                            trace_param; petId_param]);
                     ("requestBody",
                      VObj [("content",
                             VObj [("application/json",
                                    VObj [("schema", pet_body_schema)])])])])
              (VObj [("content",
                      VObj [("application/json",
                             VObj [("schema", pet_body_schema)])])])
              (VObj [("schema", pet_body_schema)])
              "application/json" [] eq_refl eq_refl eq_refl)
    as [Hpayload Hheaders].
  split; [rewrite Hpayload; reflexivity|].
  destruct (getHeadersArray petstore "/pets" "get" VUndef) as [headers|e]
    eqn:Hrun; [|vm_compute in Hrun; discriminate Hrun].
  destruct (Hheaders VUndef headers Hrun) as [declared ->]. eauto.
Defined.

(** ** Query values *)

(** X7.  Every entry that [getQueryStrings] returns has the two fields
    [name] and [value], and its [value] is a string: examples, value-map
    entries and defaults are all stringified on this route. *)
Theorem getQueryStrings_values_are_strings (swagger : value)
    (path method : string) (values : value) (queryStrings : list value) :
  getQueryStrings swagger path method values = Ok queryStrings ->
  Forall (fun entry =>
            exists name text,
              entry = VObj [("name", name); ("value", VStr text)])
         queryStrings.
Proof.
  unfold getQueryStrings. intro H.
  apply bind_Ok in H as (op & _ & H).
  apply bind_Ok in H as (parameters & _ & H).
  destruct (negb (is_undefined parameters)); [|inversion H; constructor].
  revert H. apply for_each_invariant; [|constructor].
  intros acc param0 acc' _ Hacc Hstep. unfold query_step in Hstep.
  apply bind_Ok in Hstep as (param & _ & Hstep).
  apply bind_Ok in Hstep as (pin & _ & Hstep).
  destruct (is_undefined pin); [inversion Hstep; subst; exact Hacc|].
  apply bind_Ok in Hstep as (l & _ & Hstep).
  destruct (String.eqb l "query"); [|inversion Hstep; subst; exact Hacc].
  apply bind_Ok in Hstep as (type & _ & Hstep).
  apply bind_Ok in Hstep as (example & Hexample & Hstep).
  apply bind_Ok in Hstep as (name & _ & Hstep).
  apply bind_Ok in Hstep as (value & Hvalue & Hstep).
  inversion Hstep; subst acc'. unfold push. apply Forall_app.
  split; [exact Hacc|]. constructor; [|constructor].
  exists name.
  assert (Htext : exists text, value = VStr text).
  { destruct (truthy example) eqn:Ht.
    - inversion Hvalue; subst value. unfold exampleVal in Hexample.
      apply bind_Ok in Hexample as (schema & _ & Hexample).
      apply bind_Ok in Hexample as (e & _ & Hexample).
      destruct (negb (strict_eq_str e "undefined"));
        inversion Hexample; subst example; [eauto | discriminate Ht].
    - unfold from_values_or_default, placeholder in Hvalue.
      apply bind_Ok in Hvalue as (n & _ & Hvalue).
      apply bind_Ok in Hvalue as (given & _ & Hvalue).
      destruct (is_undefined given); [|inversion Hvalue; eauto].
      apply bind_Ok in Hvalue as (dflt & _ & Hvalue).
      destruct (is_undefined dflt); [|inversion Hvalue; eauto].
      apply bind_Ok in Hvalue as (u & _ & Hvalue).
      inversion Hvalue. eauto. }
  destruct Htext as [text ->]. eauto.
Qed.

(** The query strings of [GET /pets] in [petstore], with the number 5
    supplied for [limit]. *)
Lemma getQueryStrings_values_are_strings_witness :
  exists queryStrings,
    getQueryStrings petstore "/pets" "get" (VObj [("limit", VNum 5)])
    = Ok queryStrings
    /\ Forall (fun entry =>
                 exists name text,
                   entry = VObj [("name", name); ("value", VStr text)])
              queryStrings.
Proof.
  eexists. split.
  - vm_compute. reflexivity.
  - apply (getQueryStrings_values_are_strings petstore "/pets" "get"
             (VObj [("limit", VNum 5)])).
    vm_compute. reflexivity.
Defined.

(** ** Pointers and parameter references *)

Lemma split_aux_first_segment (sep : ascii) (prefix rest cur : string) :
  contains_char sep prefix = false ->
  exists first,
    split_aux sep (prefix ++ String sep rest) cur
    = first :: split_aux sep rest EmptyString.
Proof.
  revert cur; induction prefix as [|c prefix IH]; intros cur H; simpl in *.
  - rewrite Ascii.eqb_refl. eauto.
  - apply orb_false_elim in H as [Hc Hrest]. rewrite Hc. apply IH. exact Hrest.
Qed.

(** X8.  [resolveRef] does not look at what precedes the first "/": a
    pointer is resolved by the key lookups along the segments after it, so
    two pointers that differ only before the first "/" resolve alike,
    "#/a/b" like "other.yaml#/a/b". *)
Theorem resolveRef_ignores_first_segment (oai : value)
    (prefix rest : string) :
  contains_char slash prefix = false ->
  resolveRef oai (prefix ++ String slash rest)
  = walk (split slash rest) oai
  /\ resolveRef oai (prefix ++ String slash rest)
     = resolveRef oai (String "#" (String slash rest)).
Proof.
  intro Hprefix.
  assert (Hwalk : forall p,
             contains_char slash p = false ->
             resolveRef oai (p ++ String slash rest)
             = walk (split slash rest) oai).
  { intros p Hp. unfold resolveRef, split.
    destruct (split_aux_first_segment slash p rest EmptyString Hp)
      as [first ->].
    destruct (split_aux_nonempty slash rest EmptyString) as (a & r & Hparts).
    rewrite Hparts. simpl List.length. simpl skipn.
    apply recursive_walk. discriminate. }
  split; [apply Hwalk; exact Hprefix|].
  rewrite (Hwalk prefix Hprefix).
  symmetry. apply (Hwalk "#"%string). reflexivity.
Qed.

(** A pointer into another file is looked up in this document. *)
Lemma resolveRef_ignores_first_segment_witness :
  resolveRef by_reference "other.yaml#/components/parameters/Page"
  = resolveRef by_reference "#/components/parameters/Page".
Proof.
  exact (proj2 (resolveRef_ignores_first_segment by_reference "other.yaml#"
                  "components/parameters/Page" eq_refl)).
Defined.

Section ParameterReferences.

Variables swagger values : value.
Variable param0 : value.
Variable pointer : string.
Hypothesis param0_is_reference : get param0 "$ref" = Ok (VStr pointer).
Hypothesis pointer_is_local : test_http pointer = false.

Lemma resolve_param_local :
  resolve_param swagger param0 = resolveRef swagger pointer.
Proof.
  unfold resolve_param. rewrite param0_is_reference, bind_ret.
  rewrite pointer_is_local. reflexivity.
Qed.

(** X9.  A parameter whose local [$ref] has no "/" is dropped without a
    trace by the query and path routes: it resolves to the empty object,
    which has no [in]. *)
Theorem reference_without_separator_is_dropped (acc : list value) :
  contains_char slash pointer = false ->
  query_step swagger values acc param0 = Ok acc
  /\ path_step swagger values acc param0 = Ok acc.
Proof.
  intro Hplain.
  assert (Hres : resolveRef swagger pointer = Ok (VObj [])).
  { unfold resolveRef, split.
    destruct (split_aux_no_separator slash pointer EmptyString Hplain)
      as [only ->]. reflexivity. }
  unfold query_step, path_step.
  rewrite resolve_param_local, Hres. split; reflexivity.
Qed.

(** X10.  A parameter whose local [$ref] names a last key that the node
    reached neither has nor inherits (or a key that holds [null]) resolves
    to no object, and reading [in] on it throws: one such entry among the
    parameters makes [getQueryStrings] and [getPathParams] throw for the
    operation. *)
Theorem dangling_reference_throws (ambient_values : value)
    (path method : string) (op parameters node : value)
    (first last : string) (before : list string) :
  split slash pointer = first :: (before ++ [last])%list ->
  walk before swagger = Ok node ->
  (get node last = Ok VUndef /\ own_only node last = true)
  \/ get node last = Ok VNull ->
  operation swagger path method = Ok op ->
  get op "parameters" = Ok parameters ->
  In param0 (forin_values parameters) ->
  (exists e, getQueryStrings swagger path method values = Throw e)
  /\ (exists e, getPathParams ambient_values swagger path method = Throw e).
Proof.
  intros Hparts Hwalk Hlast Hop Hparams Hin.
  assert (Hres : resolveRef swagger pointer = Ok VUndef
                 \/ resolveRef swagger pointer = Ok VNull).
  { unfold resolveRef. rewrite Hparts.
    assert (Hlen : (List.length (first :: before ++ [last]) <=? 1)%nat
                   = false).
    { apply Nat.leb_gt. simpl. rewrite length_app. simpl. lia. }
    rewrite Hlen. simpl skipn.
    rewrite recursive_walk by (destruct before; discriminate).
    rewrite walk_app, Hwalk, bind_ret. simpl.
    destruct Hlast as [[-> _] | ->]; auto. }
  assert (Hquery : forall vals acc,
             exists e, query_step swagger vals acc param0 = Throw e).
  { intros vals acc. unfold query_step. rewrite resolve_param_local.
    destruct Hres as [-> | ->]; simpl; eauto. }
  assert (Hpath : forall vals acc,
             exists e, path_step swagger vals acc param0 = Throw e).
  { intros vals acc. unfold path_step. rewrite resolve_param_local.
    destruct Hres as [-> | ->]; simpl; eauto. }
  assert (Hdef : is_undefined parameters = false).
  { destruct parameters; try reflexivity. destruct Hin. }
  split.
  - unfold getQueryStrings. rewrite Hop, bind_ret, Hparams, bind_ret, Hdef.
    apply for_each_throws with (x := param0); auto.
  - unfold getPathParams. rewrite Hop, bind_ret, Hparams, bind_ret, Hdef.
    apply for_each_throws with (x := param0); auto.
Qed.

End ParameterReferences.

(** The pointer "Page" has no "/". *)
Lemma reference_without_separator_is_dropped_witness :
  query_step by_reference (VObj []) [] (VObj [("$ref", VStr "Page")]) = Ok []
  /\ path_step by_reference (VObj []) [] (VObj [("$ref", VStr "Page")])
     = Ok [].
Proof.
  apply (reference_without_separator_is_dropped by_reference (VObj [])
           (VObj [("$ref", VStr "Page")]) "Page" eq_refl eq_refl [] eq_refl).
Defined.

(** In [dangling_api] the second parameter of [GET /x] refers to
    [#/components/parameters/Missing], and [components.parameters] is
    empty. *)
Lemma dangling_reference_throws_witness :
  (exists e, getQueryStrings dangling_api "/x" "get" VUndef = Throw e)
  /\ (exists e, getPathParams VUndef dangling_api "/x" "get" = Throw e).
Proof.
  apply (dangling_reference_throws dangling_api VUndef dangling_param
           "#/components/parameters/Missing" eq_refl eq_refl VUndef
           "/x" "get"
           (VObj [("parameters", VArr [limit_param; dangling_param])])
           (VArr [limit_param; dangling_param])
           (VObj []) "#" "Missing" ["components"; "parameters"]).
  - reflexivity.
  - reflexivity.
  - left. split; reflexivity.
  - reflexivity.
  - reflexivity.
  - simpl. auto.
Defined.

(** ** What the resolver writes, and what it leaves alone *)

(** X11.  [getResolvedSchema] assigns only to a slot that holds a node
    whose [$ref] is a local pointer.  So a slot that holds a string, a
    number, a boolean, [null] or nothing, and a slot that holds a node
    whose [$ref] is absent, is a number, a boolean or [null], or is a
    string that starts with "http", still holds the same thing when the
    call returns, and that node's [$ref] is what it was: an external
    reference is neither resolved nor altered.  (A node whose [$ref] is
    itself an object is not covered.) *)
Theorem getResolvedSchema_rewrites_only_local_references (fuel : nat)
    (st st' : store) (swagger schema : sval) (l : loc) (k : string)
    (v : sval) :
  sget st (SRef l) k = Ok v ->
  (forall q, v = SRef q ->
             exists w,
               sget st (SRef q) "$ref" = Ok w
               /\ is_local_pointer w = false
               /\ (forall q', w <> SRef q')) ->
  getResolvedSchema fuel st swagger schema = Some (Ok st') ->
  sget st' (SRef l) k = Ok v
  /\ (forall q, v = SRef q ->
                sget st' (SRef q) "$ref" = sget st (SRef q) "$ref").
Proof.
  intros Hslot Hnode Hrun.
  assert (Hkeep : sget st' (SRef l) k = Ok v
                  /\ (forall q w, v = SRef q ->
                                  sget st (SRef q) "$ref" = Ok w ->
                                  sget st' (SRef q) "$ref" = Ok w)).
  { revert Hrun.
    apply (getResolvedSchema_preserves swagger
             (fun st1 =>
                sget st1 (SRef l) k = Ok v
                /\ (forall q w, v = SRef q ->
                                sget st (SRef q) "$ref" = Ok w ->
                                sget st1 (SRef q) "$ref" = Ok w))).
    - intros st1 X key v' [Hs Hr] (q0 & pointer & Hq0 & Hptr & Hlocal & _).
      split.
      + rewrite (sget_sset_replace _ _ _ _ _ _ _ Hq0).
        destruct (Nat.eqb l X && String.eqb k key) eqn:E; [|exact Hs].
        exfalso. apply andb_prop in E as [E1 E2].
        apply Nat.eqb_eq in E1. apply String.eqb_eq in E2. subst X key.
        rewrite Hs in Hq0. inversion Hq0; subst v.
        destruct (Hnode q0 eq_refl) as (w & Hw & Hnot & _).
        rewrite (Hr q0 w eq_refl Hw) in Hptr. inversion Hptr; subst w.
        simpl in Hnot. rewrite Hlocal in Hnot. discriminate Hnot.
      + intros q w Hv Hw.
        rewrite (sget_sset_replace _ _ _ _ _ _ _ Hq0).
        destruct (Nat.eqb q X && String.eqb "$ref" key) eqn:E;
          [|exact (Hr q w Hv Hw)].
        exfalso. apply andb_prop in E as [E1 E2].
        apply Nat.eqb_eq in E1. apply String.eqb_eq in E2. subst X key.
        rewrite (Hr q w Hv Hw) in Hq0. inversion Hq0; subst w.
        destruct (Hnode q Hv) as (w' & Hw' & _ & Hnoref).
        rewrite Hw in Hw'. inversion Hw'; subst w'.
        exact (Hnoref q0 eq_refl).
    - split; [exact Hslot | auto]. }
  destruct Hkeep as [Hs Hr]. split; [exact Hs|].
  intros q Hv. destruct (Hnode q Hv) as (w & Hw & _).
  rewrite Hw. apply (Hr q w Hv Hw).
Qed.

(** Resolving [mixed] in [catalog_store] leaves its property [ext], an
    "http" reference, as it was. *)
Lemma getResolvedSchema_rewrites_only_local_references_witness :
  exists st',
    getResolvedSchema 4 catalog_store catalog_root (SRef 12) = Some (Ok st')
    /\ sget st' (SRef 11) "ext" = Ok (SRef 9)
    /\ sget st' (SRef 9) "$ref" = Ok (SStr "http://example.com/x.json")
    /\ sget st' (SRef 11) "pet" = Ok (SRef 2).
Proof.
  destruct (getResolvedSchema 4 catalog_store catalog_root (SRef 12))
    as [[st'|e]|] eqn:Hrun; try (vm_compute in Hrun; discriminate Hrun).
  exists st'.
  destruct (getResolvedSchema_rewrites_only_local_references 4 catalog_store
              st' catalog_root (SRef 12) 11 "ext" (SRef 9)) as [Hext Href].
  - reflexivity.
  - intros q Hq. inversion Hq; subst q.
    exists (SStr "http://example.com/x.json").
    split; [reflexivity|]. split; [reflexivity | discriminate].
  - exact Hrun.
  - split; [reflexivity|]. split; [exact Hext|]. split.
    + rewrite (Href 9 eq_refl). reflexivity.
    + vm_compute in Hrun. inversion Hrun. reflexivity.
Defined.

(** X12.  [getResolvedSchema] changes values only: when it returns, every
    object has the keys it had, in the same order, and arrays are still
    arrays.  No property is added or removed. *)
Theorem getResolvedSchema_keeps_keys (fuel : nat) (st st' : store)
    (swagger schema : sval) :
  getResolvedSchema fuel st swagger schema = Some (Ok st') ->
  forall l,
    map fst (fields (st' l)) = map fst (fields (st l))
    /\ is_array (st' l) = is_array (st l).
Proof.
  apply (getResolvedSchema_preserves swagger
           (fun st1 =>
              forall l,
                map fst (fields (st1 l)) = map fst (fields (st l))
                /\ is_array (st1 l) = is_array (st l))).
  - intros st1 X key v Hall (q & pointer & Hq & _) l.
    unfold sset. destruct (Nat.eqb l X) eqn:E; [|apply Hall].
    apply Nat.eqb_eq in E. subst l. simpl.
    destruct (Hall X) as [Hkeys Harr]. split; [|exact Harr].
    rewrite assoc_set_keys; [exact Hkeys|].
    unfold sget in Hq.
    destruct (is_array (st1 X) && String.eqb key "length");
      [discriminate Hq|].
    inversion Hq as [Heq]. rewrite Heq. discriminate.
  - intro l. split; reflexivity.
Qed.

(** After [mixed] is resolved its properties map still has the keys [ext]
    and [pet]. *)
Lemma getResolvedSchema_keeps_keys_witness :
  exists st',
    getResolvedSchema 4 catalog_store catalog_root (SRef 12) = Some (Ok st')
    /\ map fst (fields (st' 11)) = ["ext"; "pet"].
Proof.
  destruct (getResolvedSchema 4 catalog_store catalog_root (SRef 12))
    as [[st'|e]|] eqn:Hrun; try (vm_compute in Hrun; discriminate Hrun).
  exists st'. split; [reflexivity|].
  destruct (getResolvedSchema_keeps_keys 4 catalog_store st' catalog_root
              (SRef 12) Hrun 11) as [Hkeys _].
  rewrite Hkeys. reflexivity.
Defined.

(** ** Array items *)

Section Items.

Variables sw D target s r : loc.
Variable pointer : string.
Hypothesis pointer_local : test_http pointer = false.

Lemma items_invariant_assignment (resolved : bool) (st : store) (X : loc)
    (key : string) (v : sval) :
  items_invariant sw D target s r pointer resolved st ->
  replaces_local_reference (SRef sw) st X key v ->
  items_invariant sw D target s r pointer resolved (sset st X key v).
Proof.
  intros [Hdefs Hobjs Htarget Hplain Hptr Hslot]
         (q & ptr & Hq & Hqref & _ & Hv).
  unfold definition_of in Hv. rewrite Hdefs, bind_ret in Hv.
  assert (Hv_plain : forall text, v <> SStr text).
  { intros text ->. exact (Hobjs _ _ Hv). }
  assert (Hread : forall l k,
             sget (sset st X key v) (SRef l) k =
             if Nat.eqb l X && String.eqb k key then Ok v
             else sget st (SRef l) k).
  { intros l k. apply (sget_sset_replace _ _ _ _ q). exact Hq. }
  assert (Hhit : forall l k,
             Nat.eqb l X && String.eqb k key = true ->
             sget st (SRef l) k = Ok (SRef q)).
  { intros l k E. apply andb_prop in E as [E1 E2].
    apply Nat.eqb_eq in E1. apply String.eqb_eq in E2. subst. exact Hq. }
  constructor.
  - rewrite Hread. destruct (Nat.eqb sw X && _) eqn:E; [|exact Hdefs].
    apply Hhit in E. rewrite Hdefs in E. inversion E; subst q.
    destruct (Hobjs _ _ Hqref).
  - intros key' text. rewrite Hread.
    destruct (Nat.eqb D X && _); [|apply Hobjs].
    intro H. inversion H. eapply Hv_plain; eauto.
  - rewrite Hread. destruct (Nat.eqb D X && _) eqn:E; [|exact Htarget].
    apply Hhit in E. rewrite Htarget in E. inversion E; subst q.
    destruct (Hplain _ Hqref).
  - intro text. rewrite Hread.
    destruct (Nat.eqb target X && _); [|apply Hplain].
    intro H. inversion H. eapply Hv_plain; eauto.
  - rewrite Hread. destruct (Nat.eqb r X && _) eqn:E; [|exact Hptr].
    apply Hhit in E. rewrite Hptr in E. discriminate E.
  - rewrite Hread. destruct (Nat.eqb s X && _) eqn:E; [|exact Hslot].
    apply Hhit in E. destruct Hslot as [Hdone | [_ Hpending]].
    + rewrite Hdone in E. inversion E; subst q. destruct (Hplain _ Hqref).
    + rewrite Hpending in E. inversion E; subst q.
      rewrite Hptr in Hqref. inversion Hqref; subst ptr.
      rewrite Htarget in Hv. left. symmetry. exact Hv.
Qed.

Lemma items_invariant_call (resolved : bool) (fuel : nat) (st : store)
    (x : sval) (st' : store) :
  items_invariant sw D target s r pointer resolved st ->
  getResolvedSchema fuel st (SRef sw) x = Some (Ok st') ->
  items_invariant sw D target s r pointer resolved st'.
Proof.
  apply (getResolvedSchema_preserves (SRef sw)
           (items_invariant sw D target s r pointer resolved)).
  intros; apply items_invariant_assignment; assumption.
Qed.

(** The iteration for the key [$ref] leaves [target] in [s.items]. *)
Lemma item_step_resolves_items (fuel : nat) (st st' : store) :
  items_invariant sw D target s r pointer false st ->
  item_step (fun st0 x => getResolvedSchema fuel st0 (SRef sw) x) fuel
            (SRef sw) (SRef s) st "$ref" = Some (Ok st') ->
  items_invariant sw D target s r pointer true st'.
Proof.
  intros Hinv H. unfold item_step in H.
  apply cbind_Ok in H as (st1 & Hassign & H).
  apply cbind_Ok in H as (items' & _ & H).
  apply items_invariant_call with (resolved := true) in H; [exact H|].
  clear H. rewrite String.eqb_refl in Hassign.
  assert (Hdone : forall st0,
             items_invariant sw D target s r pointer false st0 ->
             sget st0 (SRef s) "items" = Ok (SRef target) ->
             items_invariant sw D target s r pointer true st0).
  { intros st0 [] Hs. constructor; auto. }
  destruct (items_slot _ _ _ _ _ _ _ _ Hinv) as [Hslot | [_ Hslot]].
  - rewrite Hslot, cbind_lift in Hassign.
    apply cbind_Ok in Hassign as (w & Hw & Hassign). apply lift_Ok in Hw.
    destruct (sto_string fuel st w) as [text|]; [|discriminate Hassign].
    destruct (negb (test_http text)).
    + destruct w; try discriminate Hassign.
      destruct (items_target_plain _ _ _ _ _ _ _ _ Hinv _ Hw).
    + inversion Hassign; subst st1. apply Hdone; assumption.
  - rewrite Hslot, cbind_lift in Hassign.
    rewrite (items_pointer _ _ _ _ _ _ _ _ Hinv), cbind_lift in Hassign.
    rewrite sto_string_of_string, pointer_local in Hassign.
    cbn [negb] in Hassign. apply lift_Ok in Hassign.
    unfold definition_of in Hassign.
    rewrite (items_definitions _ _ _ _ _ _ _ _ Hinv), bind_ret in Hassign.
    rewrite (items_target _ _ _ _ _ _ _ _ Hinv), bind_ret in Hassign.
    simpl sassign in Hassign. inversion Hassign; subst st1.
    apply Hdone.
    + apply items_invariant_assignment; [exact Hinv|].
      exists r, pointer. repeat split; auto.
      * exact (items_pointer _ _ _ _ _ _ _ _ Hinv).
      * unfold definition_of.
        rewrite (items_definitions _ _ _ _ _ _ _ _ Hinv), bind_ret.
        exact (items_target _ _ _ _ _ _ _ _ Hinv).
    + rewrite (sget_sset_replace _ _ _ _ r) by exact Hslot.
      rewrite Nat.eqb_refl, String.eqb_refl. reflexivity.
Qed.

(** X13.  The items route.  Let an array-typed schema have as [items] a
    node that carries a local [$ref], and let the definitions hold, under
    the last segment of that pointer, a node that is not itself a
    reference (no definitions entry being a string).  Whenever
    [getResolvedSchema] returns, [schema.items] is that definitions node
    itself, the same location as the definitions entry. *)
Theorem getResolvedSchema_items_is_definition (fuel : nat) (st st' : store) :
  sget st (SRef sw) "definitions" = Ok (SRef D) ->
  (forall key text, sget st (SRef D) key <> Ok (SStr text)) ->
  sget st (SRef D) (last_segment pointer) = Ok (SRef target) ->
  (forall text, sget st (SRef target) "$ref" <> Ok (SStr text)) ->
  sget st (SRef s) "type" = Ok (SStr "array") ->
  sget st (SRef s) "items" = Ok (SRef r) ->
  sget st (SRef r) "$ref" = Ok (SStr pointer) ->
  getResolvedSchema fuel st (SRef sw) (SRef s) = Some (Ok st') ->
  sget st' (SRef s) "items" = Ok (SRef target)
  /\ sget st' (SRef D) (last_segment pointer) = Ok (SRef target).
Proof.
  intros Hdefs Hobjs Htarget Hplain Htype Hitems Hptr Hrun.
  assert (Hinv : items_invariant sw D target s r pointer false st).
  { constructor; auto. }
  assert (Hfinal : items_invariant sw D target s r pointer true st').
  { destruct fuel as [|fuel]; [discriminate Hrun|].
    rewrite getResolvedSchema_unfold in Hrun.
    rewrite Htype, cbind_lift in Hrun. cbv beta in Hrun.
    change (s_strict_eq_str (SStr "array") "object") with false in Hrun.
    change (s_strict_eq_str (SStr "array") "array") with true in Hrun.
    cbv iota in Hrun. rewrite Hitems, cbind_lift in Hrun. cbv beta in Hrun.
    change (negb (s_is_undefined (SRef r))) with true in Hrun.
    cbv iota in Hrun.
    change (forin_keys st (SRef r)) with (map fst (fields (st r))) in Hrun.
    assert (Hkey : In "$ref" (map fst (fields (st r)))).
    { apply assoc_defined_key. unfold sget in Hptr.
      destruct (is_array (st r) && String.eqb "$ref" "length");
        [discriminate Hptr|].
      inversion Hptr as [Heq]. rewrite Heq. discriminate. }
    apply in_split in Hkey as (pre & post & Hkeys). rewrite Hkeys in Hrun.
    rewrite loop_app in Hrun.
    apply cbind_Ok in Hrun as (st1 & Hpre & Hrun).
    simpl in Hrun. apply cbind_Ok in Hrun as (st2 & Hstep & Hpost).
    assert (H1 : items_invariant sw D target s r pointer false st1).
    { revert Hpre. apply loop_invariant; [|exact Hinv].
      intros s0 key s1 Hs0 Hs.
      apply (item_step_preserves (SRef sw)
               (items_invariant sw D target s r pointer false)
               (fun st0 X key0 v Ha Hb =>
                  items_invariant_assignment false st0 X key0 v Ha Hb)
               (fun st0 x0 => getResolvedSchema fuel st0 (SRef sw) x0))
        with (fuel := fuel) (schema := SRef s) (st := s0) (itemKey := key);
        [intros st0 x0 st3 Ha Hb;
         exact (items_invariant_call false fuel st0 x0 st3 Ha Hb)
        | assumption | assumption]. }
    assert (H2 : items_invariant sw D target s r pointer true st2).
    { eapply item_step_resolves_items; eauto. }
    revert Hpost. apply loop_invariant; [|exact H2].
    intros s0 key s1 Hs0 Hs.
    apply (item_step_preserves (SRef sw)
             (items_invariant sw D target s r pointer true)
             (fun st0 X key0 v Ha Hb =>
                items_invariant_assignment true st0 X key0 v Ha Hb)
             (fun st0 x0 => getResolvedSchema fuel st0 (SRef sw) x0))
      with (fuel := fuel) (schema := SRef s) (st := s0) (itemKey := key);
      [intros st0 x0 st3 Ha Hb;
       exact (items_invariant_call true fuel st0 x0 st3 Ha Hb)
      | assumption | assumption]. }
  destruct Hfinal as [_ _ Ht _ _ [Hs | [Hs _]]]; [|discriminate Hs].
  split; assumption.
Qed.

End Items.

(** Resolving [list] in [catalog_store] puts the node [definitions.Pet]
    in its [items]. *)
Lemma getResolvedSchema_items_is_definition_witness :
  exists st',
    getResolvedSchema 4 catalog_store catalog_root (SRef 8) = Some (Ok st')
    /\ sget st' (SRef 8) "items" = Ok (SRef 2)
    /\ sget st' (SRef 6) "Pet" = Ok (SRef 2).
Proof.
  destruct (getResolvedSchema 4 catalog_store (SRef 19) (SRef 8))
    as [[st'|e]|] eqn:Hrun; try (vm_compute in Hrun; discriminate Hrun).
  exists st'. split; [exact Hrun|].
  assert (Hdefs : catalog_store 6 = mkObject false [("Pet", SRef 2);
                                                    ("Node", SRef 5)]).
  { reflexivity. }
  assert (Hpet : catalog_store 2 = mkObject false [("type", SStr "object");
                                                   ("properties", SRef 1)]).
  { reflexivity. }
  apply (getResolvedSchema_items_is_definition 19 6 2 8 7
           "#/definitions/Pet" eq_refl 4 catalog_store st').
  - reflexivity.
  - apply sget_no_string_field. rewrite Hdefs.
    repeat constructor; discriminate.
  - reflexivity.
  - intro text. unfold sget. rewrite Hpet. simpl. discriminate.
  - reflexivity.
  - reflexivity.
  - reflexivity.
  - exact Hrun.
Defined.

(** ** Missing definitions and self-reference *)

Lemma loop_first_throws {S X : Type} (body : S -> X -> comp S) (x : X)
    (xs : list X) (s : S) (e : error) :
  body s x = Some (Throw e) -> loop body (x :: xs) s = Some (Throw e).
Proof.
  intro H. simpl. rewrite H. reflexivity.
Qed.

(** X14.  A property that carries a local [$ref] whose target is not
    there: when the document has no [definitions] at all (as an OpenAPI 3
    document, which keeps its schemas under [components]), or when the
    definitions are an object that neither has nor inherits an entry under
    the pointer's last segment, and the property is the first one of an
    object-typed schema, [getResolvedSchema] throws a [TypeError].  No
    placeholder is put in its place. *)
Theorem getResolvedSchema_missing_definition_throws (fuel : nat)
    (st : store) (swagger : sval) (s P r : loc) (k pointer : string)
    (keys : list string) :
  sget st (SRef s) "type" = Ok (SStr "object") ->
  sget st (SRef s) "properties" = Ok (SRef P) ->
  forin_keys st (SRef P) = k :: keys ->
  sget st (SRef P) k = Ok (SRef r) ->
  sget st (SRef r) "$ref" = Ok (SStr pointer) ->
  test_http pointer = false ->
  sget st swagger "definitions" = Ok SUndef
  \/ (exists D,
        sget st swagger "definitions" = Ok (SRef D)
        /\ sget st (SRef D) (last_segment pointer) = Ok SUndef
        /\ is_array (st D) = false
        /\ inherited_key (last_segment pointer) = false) ->
  getResolvedSchema (S (S fuel)) st swagger (SRef s) = Some (Throw TypeError).
Proof.
  intros Htype Hprops Hkeys Hslot Hptr Hlocal Hmissing.
  rewrite getResolvedSchema_unfold.
  rewrite Htype, cbind_lift.
  change (s_strict_eq_str (SStr "object") "object") with true. cbv iota.
  rewrite Hprops, cbind_lift.
  change (negb (s_is_undefined (SRef P))) with true. cbv iota.
  rewrite Hkeys. apply loop_first_throws.
  unfold prop_step.
  rewrite Hprops, bind_ret, Hslot, bind_ret, Hptr, bind_ret, Hlocal.
  cbn [negb]. unfold definition_of.
  destruct Hmissing as [Hnone | (D & Hdefs & Hentry & _ & _)].
  - rewrite Hnone. reflexivity.
  - rewrite Hdefs, bind_ret, Hentry, bind_ret. cbn [sassign].
    rewrite cbind_lift.
    rewrite (sget_sset_replace _ _ _ _ r) by exact Hslot.
    destruct (Nat.eqb s P && String.eqb "properties" k); rewrite Hprops || idtac.
    + reflexivity.
    + rewrite cbind_lift.
      rewrite (sget_sset_replace _ _ _ _ r) by exact Hslot.
      rewrite Nat.eqb_refl, String.eqb_refl. cbn [andb].
      rewrite cbind_lift. rewrite getResolvedSchema_unfold. reflexivity.
Qed.

(** [missing] in [catalog_store] refers to [#/definitions/Nothing]. *)
Lemma getResolvedSchema_missing_definition_throws_witness :
  getResolvedSchema 2 catalog_store catalog_root (SRef 18)
  = Some (Throw TypeError).
Proof.
  apply (getResolvedSchema_missing_definition_throws 0 catalog_store
           catalog_root 18 17 16 "m" "#/definitions/Nothing" []).
  - reflexivity.
  - reflexivity.
  - reflexivity.
  - reflexivity.
  - reflexivity.
  - reflexivity.
  - right. exists 6%nat. repeat split; reflexivity.
Defined.

Section SelfReference.

Variable swagger : sval.
Variables n Q : loc.
Variable k : string.
Variable keys : list string.

(** Once the first property of [n] is [n] itself, a call on [n] calls
    itself on [n] in the same store. *)
Lemma getResolvedSchema_on_cycle (fuel : nat) (st : store) :
  sget st (SRef n) "type" = Ok (SStr "object") ->
  sget st (SRef n) "properties" = Ok (SRef Q) ->
  forin_keys st (SRef Q) = k :: keys ->
  sget st (SRef Q) k = Ok (SRef n) ->
  (forall text, sget st (SRef n) "$ref" <> Ok (SStr text)) ->
  getResolvedSchema fuel st swagger (SRef n) = None.
Proof.
  intros Htype Hprops Hkeys Hslot Hplain.
  induction fuel as [|fuel IH]; [reflexivity|].
  rewrite getResolvedSchema_unfold.
  rewrite Htype, cbind_lift.
  change (s_strict_eq_str (SStr "object") "object") with true. cbv iota.
  rewrite Hprops, cbind_lift.
  change (negb (s_is_undefined (SRef Q))) with true. cbv iota.
  rewrite Hkeys. simpl loop. unfold prop_step.
  rewrite Hprops, bind_ret, Hslot, bind_ret.
  assert (Hnone : exists w, sget st (SRef n) "$ref" = Ok w
                            /\ forall text, w <> SStr text).
  { destruct (sget st (SRef n) "$ref") as [w|e] eqn:Hw.
    - exists w. split; [reflexivity|]. intros text ->. exact (Hplain _ eq_refl).
    - unfold sget in Hw.
      destruct (is_array (st n) && String.eqb "$ref" "length");
        discriminate Hw. }
  destruct Hnone as (w & Hw & Hnot). rewrite Hw, bind_ret.
  assert (Hsame : match w with
                  | SStr p =>
                      if negb (test_http p)
                      then target <- definition_of swagger st p ;;
                           sassign st (SRef Q) k target
                      else Ok st
                  | _ => Ok st
                  end = Ok st).
  { destruct w; try reflexivity. destruct (Hnot s eq_refl). }
  rewrite Hsame, cbind_lift, Hprops, cbind_lift, Hslot, cbind_lift, IH.
  reflexivity.
Qed.

(** X15.  A definition whose first property refers to the definition
    itself: the first call replaces the reference by the node, the nested
    call finds the node under its own first property, and so on without
    end.  No amount of fuel lets the call return or throw. *)
Theorem getResolvedSchema_self_reference_never_returns (fuel : nat)
    (st : store) (r : loc) (pointer : string) :
  sget st (SRef n) "type" = Ok (SStr "object") ->
  sget st (SRef n) "properties" = Ok (SRef Q) ->
  forin_keys st (SRef Q) = k :: keys ->
  sget st (SRef Q) k = Ok (SRef r) ->
  sget st (SRef r) "$ref" = Ok (SStr pointer) ->
  test_http pointer = false ->
  definition_of swagger st pointer = Ok (SRef n) ->
  (forall text, sget st (SRef n) "$ref" <> Ok (SStr text)) ->
  getResolvedSchema fuel st swagger (SRef n) = None.
Proof.
  intros Htype Hprops Hkeys Hslot Hptr Hlocal Hdef Hplain.
  destruct fuel as [|fuel]; [reflexivity|].
  rewrite getResolvedSchema_unfold.
  rewrite Htype, cbind_lift.
  change (s_strict_eq_str (SStr "object") "object") with true. cbv iota.
  rewrite Hprops, cbind_lift.
  change (negb (s_is_undefined (SRef Q))) with true. cbv iota.
  rewrite Hkeys. simpl loop. unfold prop_step.
  rewrite Hprops, bind_ret, Hslot, bind_ret, Hptr, bind_ret, Hlocal.
  cbn [negb]. rewrite Hdef, bind_ret. cbn [sassign]. rewrite cbind_lift.
  assert (Hread : forall l key,
             sget (sset st Q k (SRef n)) (SRef l) key =
             if Nat.eqb l Q && String.eqb key k then Ok (SRef n)
             else sget st (SRef l) key).
  { intros l key. apply (sget_sset_replace _ _ _ _ r). exact Hslot. }
  assert (Hhit : forall l key,
             Nat.eqb l Q && String.eqb key k = true ->
             sget st (SRef l) key = Ok (SRef r)).
  { intros l key E. apply andb_prop in E as [E1 E2].
    apply Nat.eqb_eq in E1. apply String.eqb_eq in E2. subst. exact Hslot. }
  assert (Htype' : sget (sset st Q k (SRef n)) (SRef n) "type"
                   = Ok (SStr "object")).
  { rewrite Hread. destruct (Nat.eqb n Q && _) eqn:E; [|exact Htype].
    apply Hhit in E. rewrite Htype in E. discriminate E. }
  assert (Hprops' : sget (sset st Q k (SRef n)) (SRef n) "properties"
                    = Ok (SRef Q)).
  { rewrite Hread. destruct (Nat.eqb n Q && _) eqn:E; [|exact Hprops].
    pose proof (Hhit _ _ E) as E'. rewrite Hprops in E'.
    inversion E'; subst r.
    apply andb_prop in E as [E1 _]. apply Nat.eqb_eq in E1. subst Q.
    destruct (Hplain _ Hptr). }
  assert (Hslot' : sget (sset st Q k (SRef n)) (SRef Q) k = Ok (SRef n)).
  { rewrite Hread, Nat.eqb_refl, String.eqb_refl. reflexivity. }
  assert (Hkeys' : forin_keys (sset st Q k (SRef n)) (SRef Q) = k :: keys).
  { unfold forin_keys, sset in *. rewrite Nat.eqb_refl. simpl.
    rewrite assoc_set_keys; [exact Hkeys|].
    unfold sget in Hslot.
    destruct (is_array (st Q) && String.eqb k "length");
      [discriminate Hslot|].
    inversion Hslot as [Heq]. rewrite Heq. discriminate. }
  assert (Hplain' : forall text,
             sget (sset st Q k (SRef n)) (SRef n) "$ref" <> Ok (SStr text)).
  { intro text. rewrite Hread.
    destruct (Nat.eqb n Q && _); [discriminate | apply Hplain]. }
  rewrite Hprops', cbind_lift, Hslot', cbind_lift.
  rewrite (getResolvedSchema_on_cycle fuel _ Htype' Hprops' Hkeys' Hslot'
             Hplain').
  reflexivity.
Qed.

End SelfReference.

(** [Node] in [catalog_store] has the one property [next], which refers
    to [Node]. *)
Lemma getResolvedSchema_self_reference_never_returns_witness :
  getResolvedSchema 1000 catalog_store catalog_root (SRef 5) = None.
Proof.
  assert (Hnode : catalog_store 5 = mkObject false [("type", SStr "object");
                                                    ("properties", SRef 4)]).
  { reflexivity. }
  apply (getResolvedSchema_self_reference_never_returns catalog_root 5 4
           "next" [] 1000 catalog_store 3 "#/definitions/Node").
  - reflexivity.
  - reflexivity.
  - reflexivity.
  - reflexivity.
  - reflexivity.
  - reflexivity.
  - reflexivity.
  - intro text. unfold sget. rewrite Hnode. simpl. discriminate.
Defined.

(** ** The copy of the operation *)

Lemma json_copy_plain : forall v, is_json v = true -> json_copy v = v.
Proof.
  fix IH 1. intros [| | | | |xs|fs] Hv; try reflexivity.
  - simpl. f_equal. simpl in Hv.
    induction xs as [|x xs IHxs]; [reflexivity|].
    simpl in Hv. apply andb_prop in Hv as [Hx Hxs].
    simpl. rewrite (IHxs Hxs). f_equal.
    pose proof (IH x Hx) as Hcopy.
    destruct x; try exact Hcopy. discriminate Hx.
  - simpl. f_equal. simpl in Hv.
    induction fs as [|[k x] fs IHfs]; [reflexivity|].
    apply andb_prop in Hv as [Hx Hfs].
    rewrite (IHfs Hfs).
    pose proof (IH x Hx) as Hcopy.
    destruct x; try (rewrite Hcopy; reflexivity). discriminate Hx.
Qed.

(** X16.  [_swaggerSettings.originalMethod] is a copy of the operation:
    for an operation that is plain JSON (no [undefined] in it) the copy
    equals the operation, and [_swaggerSettings.path] is the path key. *)
Theorem createHar_originalMethod (instantiate : value -> result value)
    (JSON_stringify : value -> value) (ambient_values swagger : value)
    (path method : string) (queryParamValues apiKey har op : value) :
  createHar instantiate JSON_stringify ambient_values swagger path method
            queryParamValues apiKey = Ok har ->
  operation swagger path method = Ok op ->
  is_json op = true ->
  exists settings,
    get har "_swaggerSettings" = Ok settings
    /\ get settings "originalMethod" = Ok op
    /\ get settings "path" = Ok (VStr path).
Proof.
  unfold createHar. intros H Hop Hjson.
  apply bind_Ok in H as (baseUrl & _ & H).
  apply bind_Ok in H as (headers & _ & H).
  apply bind_Ok in H as (queryString & _ & H).
  rewrite Hop, bind_ret in H.
  apply bind_Ok in H as (originalMethod & Hcopy & H).
  apply bind_Ok in H as (pathParams & _ & H).
  apply bind_Ok in H as (requiredHeaderParams & _ & H).
  apply bind_Ok in H as (postData & _ & H).
  assert (Hsame : originalMethod = op).
  { assert (Hround : JSON_roundtrip op = Ok (json_copy op)).
    { destruct op; try reflexivity. discriminate Hjson. }
    rewrite Hround in Hcopy. inversion Hcopy.
    apply json_copy_plain. exact Hjson. }
  subst originalMethod.
  destruct (truthy postData); inversion H; subst har;
    (eexists; split; [reflexivity|]; split; reflexivity).
Qed.

(** [GET /pets] of [petstore]. *)
Lemma createHar_originalMethod_witness :
  exists har settings op,
    createHar echo same VUndef petstore "/pets" "get" VUndef VUndef = Ok har
    /\ operation petstore "/pets" "get" = Ok op
    /\ get har "_swaggerSettings" = Ok settings
    /\ get settings "originalMethod" = Ok op.
Proof.
  destruct (createHar echo same VUndef petstore "/pets" "get" VUndef VUndef)
    as [har|e] eqn:Hhar; [|vm_compute in Hhar; discriminate Hhar].
  destruct (operation petstore "/pets" "get") as [op|e] eqn:Hop;
    [|vm_compute in Hop; discriminate Hop].
  destruct (createHar_originalMethod echo same VUndef petstore "/pets" "get"
              VUndef VUndef har op Hhar Hop) as (settings & Hs & Ho & _).
  - vm_compute in Hop. inversion Hop. reflexivity.
  - exists har, settings, op. auto.
Defined.

(** ** Parameters that no route takes *)

Lemma unrouted_steps (swagger values : value) (auth : value -> value)
    (apiKey : value) (acc : list value) (p : value) :
  is_unrouted p = true ->
  query_step swagger values acc p = Ok acc
  /\ path_step swagger values acc p = Ok acc
  /\ header_step auth apiKey acc p = Ok acc.
Proof.
  destruct p as [| | | | | |fs]; try discriminate. simpl.
  intro H. apply andb_prop in H as [Href H].
  assert (Hres : resolve_param swagger (VObj fs) = Ok (VObj fs)).
  { unfold resolve_param. simpl. unfold is_local_ref in Href.
    destruct (lookup "$ref" fs); try reflexivity.
    apply negb_true_iff in Href. rewrite Href. reflexivity. }
  destruct (lookup "in" fs) as [| | | |location| |] eqn:Hin;
    try discriminate H.
  apply andb_prop in H as [H Hheader]. apply andb_prop in H as [Hq Hp].
  apply negb_true_iff in Hq, Hp, Hheader.
  unfold query_step, path_step, header_step.
  rewrite Hres. simpl. rewrite Hin. simpl. rewrite Hq, Hp.
  repeat split.
  destruct (String.eqb (toLowerCase location) "header"); [|reflexivity].
  simpl in Hheader. rewrite Hheader. reflexivity.
Qed.

(** X17.  Parameters that are neither path nor query parameters nor
    required headers (cookie parameters, optional headers) leave no trace:
    an operation that declares only such parameters has no query string,
    no path parameters, no required header parameters, and its headers are
    the two default ones. *)
Theorem unrouted_parameters_leave_no_trace (ambient_values swagger : value)
    (path method : string) (values apiKey op parameters : value) :
  operation swagger path method = Ok op ->
  get op "parameters" = Ok parameters ->
  Forall (fun p => is_unrouted p = true) (forin_values parameters) ->
  getQueryStrings swagger path method values = Ok []
  /\ getPathParams ambient_values swagger path method = Ok []
  /\ getRequiredHeaderParams swagger path method apiKey = Ok []
  /\ exists contentType,
       getHeadersArray swagger path method apiKey
       = Ok (default_headers contentType).
Proof.
  intros Hop Hparams Hall.
  assert (Hloop : forall (body : list value -> value -> result (list value))
                         acc,
             (forall a p, is_unrouted p = true -> body a p = Ok a) ->
             for_each body (forin_values parameters) acc = Ok acc).
  { intros body acc Hbody. induction Hall as [|p ps Hp _ IH]; [reflexivity|].
    simpl. rewrite (Hbody acc p Hp). exact IH. }
  repeat split.
  - unfold getQueryStrings. rewrite Hop, bind_ret, Hparams, bind_ret.
    destruct (negb (is_undefined parameters)); [|reflexivity].
    apply Hloop. intros a p Hp.
    apply (unrouted_steps swagger _ bearer apiKey a p Hp).
  - unfold getPathParams. rewrite Hop, bind_ret, Hparams, bind_ret.
    destruct (negb (is_undefined parameters)); [|reflexivity].
    apply Hloop. intros a p Hp.
    apply (unrouted_steps swagger _ bearer apiKey a p Hp).
  - unfold getRequiredHeaderParams. rewrite Hop, bind_ret, Hparams, bind_ret.
    destruct (negb (is_undefined parameters)); [|reflexivity].
    apply Hloop. intros a p Hp.
    apply (unrouted_steps swagger VUndef (fun key => key) apiKey a p Hp).
  - destruct (getHeadersArray_content_type swagger path method apiKey op
                parameters Hop Hparams) as [contentType Hheaders].
    exists contentType. rewrite Hheaders.
    destruct (negb (is_undefined parameters)); [|reflexivity].
    apply Hloop. intros a p Hp.
    apply (unrouted_steps swagger VUndef bearer apiKey a p Hp).
Qed.

(** [GET /s] of [unrouted_api] declares a cookie parameter and an optional
    header. *)
Lemma unrouted_parameters_leave_no_trace_witness :
  getQueryStrings unrouted_api "/s" "get" VUndef = Ok []
  /\ getPathParams VUndef unrouted_api "/s" "get" = Ok []
  /\ getRequiredHeaderParams unrouted_api "/s" "get" VUndef = Ok []
  /\ exists contentType,
       getHeadersArray unrouted_api "/s" "get" VUndef
       = Ok (default_headers contentType).
Proof.
  apply (unrouted_parameters_leave_no_trace VUndef unrouted_api "/s" "get"
           VUndef VUndef
           (VObj [("parameters",
                   VArr [VObj [("name", VStr "session");
                               ("in", VStr "cookie");
                               ("schema", string_schema)];
                         VObj [("name", VStr "X-Debug");
                               ("in", VStr "header");
                               ("schema", string_schema)]])])
           (VArr [VObj [("name", VStr "session"); ("in", VStr "cookie");
                        ("schema", string_schema)];
                  VObj [("name", VStr "X-Debug"); ("in", VStr "header");
                        ("schema", string_schema)]])).
  - reflexivity.
  - reflexivity.
  - repeat constructor.
Defined.
